(** * omelette: the e-graph encoder (rejoice/lib.py) and the PPO loop (ppo.py)

    A shallow embedding of the two source files and the properties of the
    specification proved (or refuted) on it.

    Modelling conventions, used throughout:
    - a torch tensor of floats is a [list] of numbers.  The feature rows of
      the encoder hold integers ([Z]): their entries are 0, 1 or the float32
      that an integer operand is stored as, which is again an integer.  The
      arithmetic of the training loop is over the rationals ([Qc]), and its
      theorems state what the code computes operation by operation; where a
      property of the specification depends on the rounding of float32, the
      advantage computation is run on binary32 floats ([Rounded], [F32]);
    - Python exceptions are the left injection of [result];
    - a Python [dict] that is iterated is an association list in insertion
      order; the index map [eclass_to_ind], only ever looked up, is a [gmap];
    - functions of torch, numpy and torch_geometric that the source calls are
      modelled from their documented behaviour where they are combinatorial
      (stack, argmax, slicing, range, add_remaining_self_loops) and taken as
      section variables where they are analytic (exp, std) or belong to the
      learner (the network, the optimizer, the random generator). *)

From Stdlib Require Import ZArith QArith Qcanon String List Lia DecimalString.
From Stdlib Require SpecFloat.
From stdpp Require Import gmap strings list numbers.

Local Open Scope Z_scope.

(** ** Exceptions *)

Inductive exn :=
| EncodeFailure        (* raise Exception("Failed to encode node") *)
| KeyError (k : string)
| IndexError
| EmptyTensorList      (* torch.stack on an empty list of tensors *)
| ZeroDivisionError
| ValueError
| NameError
| Overflow.            (* RuntimeError: Overflow when unpacking long *)

Definition result : Type → Type := sum exn.

#[global] Instance result_ret : MRet result := λ A x, inr x.
#[global] Instance result_bind : MBind result := λ A B f m,
  match m with inl e => inl e | inr x => f x end.

Definition of_option {A} (e : exn) (o : option A) : result A :=
  match o with Some x => inr x | None => inl e end.

(** [t[i]] on a one-dimensional tensor or a Python list, for [i >= 0]. *)
Definition item {A} (l : list A) (i : nat) : result A :=
  of_option IndexError (l !! i).

(** Python's [str] on an int. *)
Definition str (z : Z) : string := NilZero.string_of_int (Z.to_int z).

(** ** rejoice/lib.py *)

Module Lib.

(** An e-node as the engine hands it over: a Python [int] (a scalar leaf) or
    an instance of one of the named-tuple classes built by [op_tuple], whose
    fields are the identifiers of the child e-classes.  A class is
    identified by its [__name__]. *)
Inductive operator :=
| Scalar (v : Z)
| OpNode (cls : string) (children : list Z).

(** The result of [decode_node]: the dict with keys "type", "is_scalar",
    "value" and, only when the row is flagged as an e-node, "op". *)
Record dnode := {
  type : string;
  is_scalar : bool;
  value : Z;
  op : option string
}.

(** [geom.data.Data(x=, edge_index=, edge_attr=)]: [edge_index] is the list of
    the columns of the 2 x M index tensor. *)
Record Data := {
  x : list (list Z);
  edge_index : list (nat * nat);
  edge_attr : list (list Z)
}.

(** torch.stack(tensors, dim=0): refuses an empty list. *)
Definition stack {A} (l : list A) : result (list A) :=
  match l with [] => inl EmptyTensorList | _ => inr l end.

(** torch.argmax of a one-dimensional tensor: the index of the first maximal
    entry; on an empty tensor it raises an IndexError. *)
Fixpoint argmax_from (best_i : nat) (best : Z) (i : nat) (l : list Z) : nat :=
  match l with
  | [] => best_i
  | y :: l' =>
      if best <? y then argmax_from i y (S i) l'
      else argmax_from best_i best (S i) l'
  end.

Definition argmax (l : list Z) : result nat :=
  match l with
  | [] => inl IndexError
  | y :: l' => inr (argmax_from 0 y 1 l')
  end.

(** [t[i] = v] for a Python int [v] and a float32 tensor [t]: torch unpacks
    the int to a 64-bit integer, which fails outside that range, and stores
    the nearest float32, ties to even.  A float32 has 24 significant bits:
    an integer of more bits is rounded to a multiple of 2^(bits - 24), and
    the stored value is again an integer. *)
Definition in_int64 (v : Z) : bool := (- 2 ^ 63 <=? v) && (v <? 2 ^ 63).

Definition round_to_24_bits (m : Z) : Z :=
  let ulp := 2 ^ Z.max 0 (Z.log2 m - 23) in
  let q := m / ulp in
  let r := m mod ulp in
  let q := if 2 * r <? ulp then q
           else if ulp <? 2 * r then q + 1
           else if Z.even q then q else q + 1 in
  q * ulp.

Definition float32_of_int (v : Z) : Z := Z.sgn v * round_to_24_bits (Z.abs v).

(** torch_geometric.utils.num_nodes.maybe_num_nodes(edge_index, None):
    [int(edge_index.max()) + 1], or 0 without edges. *)
Definition maybe_num_nodes (edge_index : list (nat * nat)) : nat :=
  match edge_index with
  | [] => 0%nat
  | _ => S (max_list (map (λ e, e.1 `max` e.2)%nat edge_index))
  end.

(** torch_geometric.utils.add_remaining_self_loops(edge_index, edge_attr)
    with [fill_value] and [num_nodes] left at [None]: the edges that are not
    self-loops are kept in order, then one loop (i, i) per node follows.
    The attribute of a loop is that of an existing loop on the node (the
    last one wins) and otherwise the default fill value, which the library
    sets to 1 in each slot ([edge_attr.new_full((N,) + edge_attr.size()[1:],
    1.)]). *)
Definition is_self_loop (e : nat * nat) : bool := (e.1 =? e.2)%nat.

Definition add_remaining_self_loops
    (edge_index : list (nat * nat)) (edge_attr : list (list Z))
  : list (nat * nat) * list (list Z) :=
  let N := maybe_num_nodes edge_index in
  let edges := zip edge_index edge_attr in
  let mask := λ ea : (nat * nat) * list Z, negb (is_self_loop ea.1) in
  let loop_index := (λ i, (i, i)) <$> seq 0 N in
  let width := length (hd [] edge_attr) in
  let loop_attr :=
    foldl (λ la ea, if is_self_loop ea.1 then <[ea.1.1 := ea.2]> la else la)
          (replicate N (replicate width 1)) edges in
  ((filter (λ ea, mask ea = true) edges).*1 ++ loop_index,
   (filter (λ ea, mask ea = true) edges).*2 ++ loop_attr).

Section Language.

(** [all_operators()]: the operator classes of the language, in order. *)
Variable all_operators : list string.

(** The analysis data of an e-class ([any]); the encoder ignores it. *)
Context {data : Type}.

Definition num_node_features : nat := 4 + length all_operators.

(** The loop [for ind, op in enumerate(self.all_operators())] of
    [encode_node], from position [ind] on. *)
Fixpoint encode_op (cls : string) (onehot : list Z) (ind : nat)
    (ops : list string) : result (list Z) :=
  match ops with
  | [] => inl EncodeFailure
  | o :: ops' =>
      if String.eqb cls o                       (* isinstance(operator, op) *)
      then inr (<[(4 + ind)%nat := 1]> onehot)
      else encode_op cls onehot (S ind) ops'
  end.

Definition encode_node (operator : operator) : result (list Z) :=
  let onehot := replicate num_node_features 0 in
  match operator with
  | Scalar v =>
      let onehot := <[2%nat := 1]> onehot in
      if in_int64 v then
        let onehot := <[3%nat := float32_of_int v]> onehot in
        inr onehot
      else inl Overflow
  | OpNode cls _ =>
      (* is an enode *)
      let onehot := <[1%nat := 1]> onehot in
      encode_op cls onehot 0 all_operators
  end.

Definition decode_node (node : list Z) : result dnode :=
  n0 ← item node 0;
  n2 ← item node 2;
  n3 ← item node 3;
  let dn := {| type := if n0 =? 1 then "eclass" else "enode";
               is_scalar := negb (n2 =? 0);
               value := n3;
               op := None |} in
  n1 ← item node 1;
  if n1 =? 1 then
    ind ← argmax (drop 4 node);
    o ← item all_operators ind;
    mret {| type := type dn; is_scalar := is_scalar dn; value := value dn;
            op := Some o |}
  else mret dn.

Definition encode_eclass (eclass_id : string) (d : data) : list Z :=
  let onehot := replicate num_node_features 0 in
  <[0%nat := 1]> onehot.

(** The local variables of [encode_egraph] that its loops update. *)
Record enc_state := {
  all_nodes : list (list Z);
  all_edges : list (nat * nat);
  attrs : list (list Z)
}.

Definition eclasses : Type := list (string * (data * list operator)).

(** First loop: "Insert eclasses first as enodes will refer to them". *)
Definition insert_eclass (acc : list (list Z) * gmap string nat)
    (c : string * (data * list operator)) : list (list Z) * gmap string nat :=
  let nodes := acc.1 ++ [encode_eclass c.1 c.2.1] in
  (nodes, <[c.1 := (length nodes - 1)%nat]> acc.2).

Definition insert_eclasses (classes : eclasses)
  : list (list Z) * gmap string nat :=
  foldl insert_eclass ([], ∅) classes.

(** [for ecid in node]: one argument edge per child. *)
Fixpoint connect_children (eclass_to_ind : gmap string nat) (enode : nat)
    (children : list Z) (st : enc_state) : result enc_state :=
  match children with
  | [] => inr st
  | ecid :: rest =>
      tgt ← of_option (KeyError (str ecid)) (eclass_to_ind !! str ecid);
      connect_children eclass_to_ind enode rest
        {| all_nodes := all_nodes st;
           all_edges := all_edges st ++ [(enode, tgt)];
           attrs := attrs st ++ [[1; 0]] |}
  end.

(** The body of [for node in nodes]. *)
Definition insert_enode (eclass_to_ind : gmap string nat)
    (eclass_id : string) (node : operator) (st : enc_state)
  : result enc_state :=
  row ← encode_node node;
  let nodes := all_nodes st ++ [row] in
  src ← of_option (KeyError eclass_id) (eclass_to_ind !! eclass_id);
  let st := {| all_nodes := nodes;
               all_edges := all_edges st ++ [(src, (length nodes - 1)%nat)];
               attrs := attrs st ++ [[0; 1]] |} in
  match node with
  | OpNode _ children =>                       (* isinstance(node, tuple) *)
      connect_children eclass_to_ind (length nodes - 1) children st
  | Scalar _ => inr st
  end.

Fixpoint insert_enodes (eclass_to_ind : gmap string nat)
    (eclass_id : string) (nodes : list operator) (st : enc_state)
  : result enc_state :=
  match nodes with
  | [] => inr st
  | node :: rest =>
      st ← insert_enode eclass_to_ind eclass_id node st;
      insert_enodes eclass_to_ind eclass_id rest st
  end.

Fixpoint insert_classes (eclass_to_ind : gmap string nat)
    (classes : eclasses) (st : enc_state) : result enc_state :=
  match classes with
  | [] => inr st
  | (eclass_id, (_, nodes)) :: rest =>
      st ← insert_enodes eclass_to_ind eclass_id nodes st;
      insert_classes eclass_to_ind rest st
  end.

Definition encode_egraph (classes : eclasses) : result Data :=
  let '(nodes, eclass_to_ind) := insert_eclasses classes in
  st ← insert_classes eclass_to_ind classes
         {| all_nodes := nodes; all_edges := []; attrs := [] |};
  xs ← stack (all_nodes st);
  ei ← stack (all_edges st);
  ea ← stack (attrs st);
  let '(ei, ea) := add_remaining_self_loops ei ea in
  mret {| x := xs; edge_index := ei; edge_attr := ea |}.

(** What the engine guarantees of a search state: every operator node is
    an instance of a class of the vocabulary and every int operand fits a
    64-bit integer, every child identifier names an e-class of the graph,
    and the graph holds at least one e-node (an e-class of the engine is
    never empty). *)
Definition known_operator (node : operator) : bool :=
  match node with
  | Scalar v => in_int64 v
  | OpNode cls _ => bool_decide (cls ∈ all_operators)
  end.

Definition children_of (node : operator) : list Z :=
  match node with Scalar _ => [] | OpNode _ children => children end.

Definition enodes (classes : eclasses) : list operator :=
  c ← classes; c.2.2.

Definition wf_egraph (classes : eclasses) : bool :=
  forallb known_operator (enodes classes)
  && forallb (λ node,
       forallb (λ ecid, bool_decide (str ecid ∈ classes.*1))
               (children_of node)) (enodes classes)
  && negb (Nat.eqb (length (enodes classes)) 0).

End Language.

(** *** The classification of the specification

    "decode(encode_node(n)) == classification(n) for every node kind in the
    vocabulary": the node kinds are the e-class, the scalar leaf and the
    operator node; [classification] is the dict that the specification
    expects back, and [encode_kind] the encoder of each kind. *)

Inductive node_kind {data : Type} :=
| Eclass (eclass_id : string) (d : data)
| Enode (node : operator).
Arguments node_kind : clear implicits.

Definition encode_kind {data} (all_operators : list string)
    (k : node_kind data) : result (list Z) :=
  match k with
  | Eclass eclass_id d => inr (encode_eclass all_operators eclass_id d)
  | Enode node => encode_node all_operators node
  end.

Definition classification {data} (k : node_kind data) : dnode :=
  match k with
  | Eclass _ _ =>
      {| type := "eclass"; is_scalar := false; value := 0; op := None |}
  | Enode (Scalar v) =>
      {| type := "enode"; is_scalar := true; value := v; op := None |}
  | Enode (OpNode cls _) =>
      {| type := "enode"; is_scalar := false; value := 0; op := Some cls |}
  end.

Definition representable {data} (all_operators : list string)
    (k : node_kind data) : bool :=
  match k with
  | Eclass _ _ => true
  | Enode node => known_operator all_operators node
  end.

(** *** Invariants of the loops of [encode_egraph]

    [E] is the number of e-classes.  The index map sends identifiers to the
    first [E] rows; every edge joins two different rows that exist; as soon
    as an e-node row exists, some edge reaches the last row; and an edge
    attribute is one of the two one-hot codes. *)

Definition index_below (E : nat) (m : gmap string nat) : Prop :=
  ∀ id i, m !! id = Some i → (i < E)%nat.

Definition edges_ok (E : nat) (st : enc_state) : Prop :=
  (E ≤ length (all_nodes st))%nat
  ∧ length (attrs st) = length (all_edges st)
  ∧ Forall (λ e : nat * nat,
      e.1 ≠ e.2 ∧ (e.1 < length (all_nodes st))%nat
      ∧ (e.2 < length (all_nodes st))%nat) (all_edges st)
  ∧ ((E < length (all_nodes st))%nat →
      ∃ e, e ∈ all_edges st
           ∧ (e.1 `max` e.2)%nat = (length (all_nodes st) - 1)%nat)
  ∧ Forall (λ ea : list Z, ea = [0; 1] ∨ ea = [1; 0]) (attrs st).

(** *** A sample search state

    The e-graph of (16 + 2) * (4 * 0), the expression that [make_env] builds,
    over a vocabulary of two operators; the class of 0 also holds the
    product 4 * 0. *)

Definition sample_operators : list string := ["Add"; "Mul"].

Definition sample_egraph : @eclasses unit :=
  [("0", (tt, [Scalar 16]));
   ("1", (tt, [Scalar 2]));
   ("2", (tt, [OpNode "Add" [0; 1]]));
   ("3", (tt, [Scalar 4]));
   ("4", (tt, [Scalar 0; OpNode "Mul" [3; 4]]));
   ("5", (tt, [OpNode "Mul" [2; 4]]))].

End Lib.

(** ** ppo.py *)

Module PPO.

Local Open Scope Qc_scope.

(** *** Tensor arithmetic (elementwise, with scalars broadcast) *)

Abbreviation vec := (list Qc).

Definition vadd (u v : vec) : vec := zip_with Qcplus u v.
Definition vsub (u v : vec) : vec := zip_with Qcminus u v.
Definition vmul (u v : vec) : vec := zip_with Qcmult u v.
Definition vscale (c : Qc) (v : vec) : vec := Qcmult c <$> v.
(** [Tensor.mean] of a non-empty tensor (torch gives nan on an empty one,
    [Qc] gives 0). *)
Definition sum (v : vec) : Qc := foldr Qcplus 0 v.
Definition mean (v : vec) : Qc := sum v / Q2Qc (inject_Z (Z.of_nat (length v))).

(** [t[i]] on the first axis of a two-dimensional buffer; the buffers are
    allocated with [num_steps] rows, which is where the loops index them. *)
Definition row (m : list vec) (i : nat) : vec := default [] (m !! i).

(** *** Python slices, ranges and indices *)

Definition slice_index (len i : Z) : Z :=
  if (i <? 0)%Z then Z.max 0 (i + len) else Z.min i len.

(** [l[start:stop]] *)
Definition py_slice {A} (l : list A) (start stop : Z) : list A :=
  let len := Z.of_nat (length l) in
  let lo := slice_index len start in
  let hi := slice_index len stop in
  take (Z.to_nat (hi - lo)) (drop (Z.to_nat lo) l).

(** [l[start:]] *)
Definition py_slice_from {A} (l : list A) (start : Z) : list A :=
  drop (Z.to_nat (slice_index (Z.of_nat (length l)) start)) l.

(** [l[i]] for a Python int [i], negative indices counting from the end. *)
Definition py_item {A} (l : list A) (i : Z) : result A :=
  let len := Z.of_nat (length l) in
  let j := if (i <? 0)%Z then (i + len)%Z else i in
  if (j <? 0)%Z then inl IndexError else item l (Z.to_nat j).

(** [list(range(start, stop, step))] *)
Definition py_range (start stop step : Z) : result (list Z) :=
  if (step =? 0)%Z then inl ValueError
  else
    let n := if (0 <? step)%Z then ((stop - start + step - 1) / step)%Z
             else ((start - stop - step - 1) / (- step))%Z in
    inr ((λ i, (start + Z.of_nat i * step)%Z) <$> seq 0 (Z.to_nat n)).

(** [t[:, env_ind]] *)
Fixpoint column {A} (env_ind : nat) (rows : list (list A)) : result (list A) :=
  match rows with
  | [] => inr []
  | r :: rest =>
      a ← item r env_ind;
      col ← column env_ind rest;
      mret (a :: col)
  end.

(** [[action_names[int(i)] for i in acts]] *)
Fixpoint names_of (action_names : list string) (acts : list Z)
  : result (list string) :=
  match acts with
  | [] => inr []
  | i :: rest =>
      n ← py_item action_names i;
      ns ← names_of action_names rest;
      mret (n :: ns)
  end.

(** *** Command line *)

(** The options that the training loop reads. *)
Record cli := {
  print_actions : bool;
  total_timesteps : Z;
  num_envs : Z;
  num_steps : Z;
  gae : bool;
  gamma : Qc;
  gae_lambda : Qc;
  num_minibatches : Z;
  update_epochs : Z;
  norm_adv : bool;
  clip_coef : Qc;
  clip_vloss : bool;
  ent_coef : Qc;
  vf_coef : Qc;
  target_kl : option Qc
}.

(** The [default=] of every option. *)
Definition defaults : cli := {|
  print_actions := false;
  total_timesteps := 100000;
  num_envs := 4;
  num_steps := 128;
  gae := true;
  gamma := Q2Qc (99 # 100);
  gae_lambda := Q2Qc (95 # 100);
  num_minibatches := 4;
  update_epochs := 4;
  norm_adv := true;
  clip_coef := Q2Qc (2 # 10);
  clip_vloss := true;
  ent_coef := Q2Qc (1 # 100);
  vf_coef := Q2Qc (5 # 10);
  target_kl := None
|}.

(** [args] after [parse_args]: the options and the two derived sizes. *)
Record args := {
  opts : cli;
  batch_size : Z;
  minibatch_size : Z
}.

(** Python's [//] on ints. *)
Definition floordiv (a b : Z) : result Z :=
  if (b =? 0)%Z then inl ZeroDivisionError else inr (a / b)%Z.

Definition parse_args (c : cli) : result args :=
  let batch_size := (num_envs c * num_steps c)%Z in
  minibatch_size ← floordiv batch_size (num_minibatches c);
  mret {| opts := c; batch_size := batch_size;
          minibatch_size := minibatch_size |}.

(** [num_updates = args.total_timesteps // args.batch_size] *)
Definition num_updates (a : args) : result Z :=
  floordiv (total_timesteps (opts a)) (batch_size a).

(** What [main] computes from the command line before its training loop:
    the parsed arguments and the number of rollouts. *)
Definition startup (c : cli) : result (args * Z) :=
  a ← parse_args c;
  n ← num_updates a;
  mret (a, n).

(** *** Rollout buffer *)

(** [buf[step] = v]: the slot is overwritten. *)
Definition record {A} (buf : list A) (step : nat) (v : A) : list A :=
  <[step := v]> buf.

(** The buffer after the first [g] environment steps of a run, [h k] being
    what step [k] of the run stores: the buffer is allocated once, of
    [num_steps] slots, and step [k] writes slot [k mod num_steps]. *)
Fixpoint buffer_after {A} (num_steps : nat) (zero : A) (h : nat → A)
    (g : nat) : list A :=
  match g with
  | O => replicate num_steps zero
  | S k => record (buffer_after num_steps zero h k) (k mod num_steps) (h k)
  end.

(** The slice of a finished episode of length [l], reported at [step]. *)
Definition episode_slice {A} (num_steps step l : Z) (env_ind : nat)
    (buf : list (list A)) : result (list A) :=
  let start := ((step + 1) - l)%Z in
  if (start <? 0)%Z then
    (* start of episode is at end of buffer *)
    let start_before := (num_steps + start)%Z in
    tail ← column env_ind (py_slice_from buf start_before);
    head ← column env_ind (py_slice buf 0 (step + 1));
    mret (tail ++ head)                                       (* torch.cat *)
  else column env_ind (py_slice buf start (step + 1)).

Definition ep_a_r (a : args) (action_names : list string)
    (actions : list (list Z)) (rewards : list vec)
    (step : Z) (env_ind : nat) (l : Z) : result (list (string * Qc)) :=
  acts ← episode_slice (num_steps (opts a)) step l env_ind actions;
  ep_actions ← names_of action_names acts;
  ep_rewards ← episode_slice (num_steps (opts a)) step l env_ind rewards;
  mret (zip ep_actions ep_rewards).

(** *** Advantages and returns *)

Section Advantage.

Variable a : args.
Variables rewards values dones : list vec.
Variables next_value next_done : vec.

(** [range(args.num_steps)] and the width of the buffers. *)
Definition T : nat := Z.to_nat (num_steps (opts a)).
Definition E : nat := Z.to_nat (num_envs (opts a)).

(** [torch.zeros_like(rewards)] *)
Definition zeros_like (m : list vec) : list vec :=
  (λ r : vec, (λ _, 0) <$> r) <$> m.

(** [for t in reversed(range(args.num_steps))] *)
Definition steps_backwards : list nat := reverse (seq 0 T).

(** The two branches of [if t == args.num_steps - 1] on the Python ints. *)
Definition is_last (t : nat) : bool :=
  (Z.of_nat t =? num_steps (opts a) - 1)%Z.

Definition nextnonterminal (t : nat) : vec :=
  if is_last t then (λ d, 1 - d) <$> next_done
  else (λ d, 1 - d) <$> row dones (t + 1).

(** GAE branch.  The state of the loop is the array [advantages] and
    [lastgaelam], which starts as the scalar 0, broadcast over the
    environments. *)
Definition nextvalues (t : nat) : vec :=
  if is_last t then next_value else row values (t + 1).

Definition delta (t : nat) : vec :=
  vsub (vadd (row rewards t)
             (vmul (vscale (gamma (opts a)) (nextvalues t))
                   (nextnonterminal t)))
       (row values t).

(** [delta + args.gamma * args.gae_lambda * nextnonterminal * lastgaelam] *)
Definition gae_step (t : nat) (lastgaelam : vec) : vec :=
  vadd (delta t)
       (vmul (vscale (gamma (opts a) * gae_lambda (opts a))
                     (nextnonterminal t))
             lastgaelam).

Definition gae_body (st : list vec * vec) (t : nat) : list vec * vec :=
  let lastgaelam := gae_step t st.2 in
  (record st.1 t lastgaelam, lastgaelam).

Definition gae_advantages : list vec :=
  (foldl gae_body (zeros_like rewards, replicate E 0) steps_backwards).1.

Definition gae_returns : list vec :=
  zip_with vadd gae_advantages values.

(** Non-GAE branch.  [next_return] is read back from [returns]. *)
Definition plain_step (t : nat) (next_return : vec) : vec :=
  vadd (row rewards t)
       (vmul (vscale (gamma (opts a)) (nextnonterminal t)) next_return).

Definition plain_body (returns : list vec) (t : nat) : list vec :=
  let next_return := if is_last t then next_value else row returns (t + 1) in
  record returns t (plain_step t next_return).

Definition plain_returns : list vec :=
  foldl plain_body (zeros_like rewards) steps_backwards.

Definition plain_advantages : list vec :=
  zip_with vsub plain_returns values.

(** [(advantages, returns)] as [main] has them after the [if args.gae]. *)
Definition advantages_returns : list vec * list vec :=
  if gae (opts a) then (gae_advantages, gae_returns)
  else (plain_advantages, plain_returns).

(** The values that the loops hold after [n] passes, counted from the
    last step: [lastgaelam], and the return stored last. *)
Fixpoint lastgaelam_after (n : nat) : vec :=
  match n with
  | O => replicate E 0
  | S m => gae_step (T - S m) (lastgaelam_after m)
  end.

Fixpoint return_after (n : nat) : vec :=
  match n with
  | O => next_value
  | S m => plain_step (T - S m) (return_after m)
  end.

(** The buffers have [num_steps] rows of [num_envs] entries, and the
    bootstrap vectors [num_envs] entries. *)
Definition is_matrix (m : list vec) : bool :=
  Nat.eqb (length m) T && forallb (λ r : vec, Nat.eqb (length r) E) m.

Definition well_shaped : bool :=
  is_matrix rewards && is_matrix values && is_matrix dones
  && Nat.eqb (length next_value) E && Nat.eqb (length next_done) E.

End Advantage.

(** Entry [e] of a vector and entry [(t, e)] of a buffer. *)
Definition at_env (v : vec) (e : nat) : Qc := default 0 (v !! e).
Definition entry (m : list vec) (t e : nat) : Qc := at_env (row m t) e.

(** The end-to-end scenario of the specification: four steps of one
    environment, reward 1 at every step, all values 0, no episode end, and
    the default gamma = 0.99 and lambda = 0.95. *)
Definition scenario : args :=
  {| opts := {| print_actions := true; total_timesteps := 100000;
                num_envs := 1; num_steps := 4;
                gae := true; gamma := Q2Qc (99 # 100);
                gae_lambda := Q2Qc (95 # 100);
                num_minibatches := 4; update_epochs := 4; norm_adv := true;
                clip_coef := Q2Qc (2 # 10); clip_vloss := true;
                ent_coef := Q2Qc (1 # 100); vf_coef := Q2Qc (5 # 10);
                target_kl := None |};
     batch_size := 4;
     minibatch_size := 1 |}.

Definition scenario_rewards : list vec := replicate 4 [1].
Definition scenario_zeros : list vec := replicate 4 [0].

(** The arguments with another [--gae-lambda]. *)
Definition with_gae_lambda (a : args) (l : Qc) : args :=
  let c := opts a in
  {| opts := {| print_actions := print_actions c;
                total_timesteps := total_timesteps c;
                num_envs := num_envs c; num_steps := num_steps c;
                gae := gae c; gamma := gamma c; gae_lambda := l;
                num_minibatches := num_minibatches c;
                update_epochs := update_epochs c; norm_adv := norm_adv c;
                clip_coef := clip_coef c; clip_vloss := clip_vloss c;
                ent_coef := ent_coef c; vf_coef := vf_coef c;
                target_kl := target_kl c |};
     batch_size := batch_size a;
     minibatch_size := minibatch_size a |}.

(** *** Policy update *)

Definition qmax (p q : Qc) : Qc := if decide (p ≤ q) then q else p.
Definition qmin (p q : Qc) : Qc := if decide (p ≤ q) then p else q.
Definition qabs (p : Qc) : Qc := if decide (0 ≤ p) then p else - p.

(** [torch.clamp(v, lo, hi)] and [torch.max(u, v)] *)
Definition clamp (lo hi : Qc) (v : vec) : vec :=
  (λ p, qmin (qmax p lo) hi) <$> v.
Definition vmax (u v : vec) : vec := zip_with qmax u v.
Definition vneg (v : vec) : vec := Qcopp <$> v.
Definition vsquare (v : vec) : vec := (λ p, p * p) <$> v.

(** [t[mb_inds]], indexing with an array of ints. *)
Fixpoint gather {A} (l : list A) (inds : list Z) : result (list A) :=
  match inds with
  | [] => inr []
  | i :: rest =>
      y ← py_item l i;
      ys ← gather l rest;
      mret (y :: ys)
  end.

(** The flattened batch of one rollout. *)
Record batch {obs : Type} := {
  b_obs : list obs;
  b_logprobs : vec;
  b_actions : list Z;
  b_advantages : vec;
  b_returns : vec;
  b_values : vec
}.
Arguments batch : clear implicits.

(** The data of one minibatch that the loss is built from. *)
Record minibatch {obs : Type} := {
  mb_obs : list obs;
  mb_actions : list Z;
  mb_logprobs : vec;
  mb_advantages : vec;
  mb_returns : vec;
  mb_values : vec
}.
Arguments minibatch : clear implicits.

(** The scalars of one minibatch. *)
Record losses := {
  old_approx_kl : Qc;
  approx_kl : Qc;
  clipfrac : Qc;
  pg_loss : Qc;
  v_loss : Qc;
  entropy_loss : Qc;
  loss : Qc
}.

(** 1e-8 *)
Definition eps : Qc := Q2Qc (1 # 100000000).

Section Update.

Context {obs policy rng : Type}.

(** [np.random.shuffle], on the global generator. *)
Variable shuffle : rng → list Z → list Z * rng.
(** [agent.get_action_and_value(mb_batch_obs, actions)]: the new
    log-probabilities, the entropies and the new values. *)
Variable get_action_and_value : policy → list obs → list Z → vec * vec * vec.
(** [optimizer.zero_grad(); loss.backward(); clip_grad_norm_; optimizer.step()]
    for the loss that the minibatch defines. *)
Variable optimizer_step : policy → minibatch obs → policy.
(** [Tensor.exp], elementwise, and [Tensor.std]. *)
Variable exp : Qc → Qc.
Variable std : vec → Qc.

Variable a : args.
Variable b : batch obs.

(** [(mb_advantages - mb_advantages.mean()) / (mb_advantages.std() + 1e-8)] *)
Definition normalize (adv : vec) : vec :=
  (λ p, p / (std adv + eps)) <$> ((λ p, p - mean adv) <$> adv).

(** The tensors indexed by [mb_inds], the advantages as the loss uses
    them. *)
Definition select (mb_inds : list Z) : result (minibatch obs) :=
  observations ← gather (b_obs b) mb_inds;
  actions ← gather (b_actions b) mb_inds;
  logprobs ← gather (b_logprobs b) mb_inds;
  advantages ← gather (b_advantages b) mb_inds;
  let advantages :=
    if norm_adv (opts a) then normalize advantages else advantages in
  returns ← gather (b_returns b) mb_inds;
  values ← gather (b_values b) mb_inds;
  mret {| mb_obs := observations;
          mb_actions := actions;
          mb_logprobs := logprobs;
          mb_advantages := advantages;
          mb_returns := returns;
          mb_values := values |}.

Definition policy_loss (advantages ratio : vec) : Qc :=
  let pg_loss1 := vmul (vneg advantages) ratio in
  let pg_loss2 :=
    vmul (vneg advantages)
         (clamp (1 - clip_coef (opts a)) (1 + clip_coef (opts a)) ratio) in
  mean (vmax pg_loss1 pg_loss2).

Definition value_loss (newvalue returns values : vec) : Qc :=
  if clip_vloss (opts a) then
    let v_loss_unclipped := vsquare (vsub newvalue returns) in
    let v_clipped :=
      vadd values
           (clamp (- clip_coef (opts a)) (clip_coef (opts a))
                  (vsub newvalue values)) in
    let v_loss_clipped := vsquare (vsub v_clipped returns) in
    let v_loss_max := vmax v_loss_unclipped v_loss_clipped in
    Q2Qc (1 # 2) * mean v_loss_max
  else Q2Qc (1 # 2) * mean (vsquare (vsub newvalue returns)).

(** The forward pass of one minibatch. *)
Definition forward (agent : policy) (mb : minibatch obs) : losses :=
  let '(newlogprob, entropy, newvalue) :=
    get_action_and_value agent (mb_obs mb) (mb_actions mb) in
  let logratio := vsub newlogprob (mb_logprobs mb) in
  let ratio := exp <$> logratio in
  let pg := policy_loss (mb_advantages mb) ratio in
  let v := value_loss newvalue (mb_returns mb) (mb_values mb) in
  let ent := mean entropy in
  {| old_approx_kl := mean (vneg logratio);
     approx_kl := mean (vsub ((λ r, r - 1) <$> ratio) logratio);
     clipfrac :=
       mean ((λ r, if decide (clip_coef (opts a) < qabs (r - 1))
                   then 1 else 0) <$> ratio);
     pg_loss := pg;
     v_loss := v;
     entropy_loss := ent;
     loss := pg - ent_coef (opts a) * ent + v * vf_coef (opts a) |}.

(** The variables that the update loops change.  [last] is what the
    variables [approx_kl], [pg_loss], ... hold ([None] while unbound);
    [applied] is the trace of the gradient steps applied so far, oldest
    first. *)
Record ustate := {
  agent : policy;
  b_inds : list Z;
  gen : rng;
  last : option losses;
  applied : list (minibatch obs)
}.

(** The body of [for start in range(0, batch_size, minibatch_size)]. *)
Definition minibatch_body (st : ustate) (start : Z) : result ustate :=
  let end_ := (start + minibatch_size a)%Z in
  let mb_inds := py_slice (b_inds st) start end_ in
  mb ← select mb_inds;
  mret {| agent := optimizer_step (agent st) mb;
          b_inds := b_inds st;
          gen := gen st;
          last := Some (forward (agent st) mb);
          applied := applied st ++ [mb] |}.

Fixpoint minibatch_loop (st : ustate) (starts : list Z) : result ustate :=
  match starts with
  | [] => inr st
  | start :: rest =>
      st ← minibatch_body st start;
      minibatch_loop st rest
  end.

(** One pass of [for epoch in range(args.update_epochs)] up to the test
    of the target KL. *)
Definition epoch_body (st : ustate) : result ustate :=
  let '(inds, g) := shuffle (gen st) (b_inds st) in
  starts ← py_range 0 (batch_size a) (minibatch_size a);
  minibatch_loop {| agent := agent st; b_inds := inds; gen := g;
                    last := last st; applied := applied st |}
                 starts.

(** [if args.target_kl is not None: if approx_kl > args.target_kl: break] *)
Definition kl_break (st : ustate) : result bool :=
  match target_kl (opts a) with
  | None => inr false
  | Some target =>
      l ← of_option NameError (last st);
      mret (bool_decide (target < approx_kl l))
  end.

Fixpoint epochs (n : nat) (st : ustate) : result ustate :=
  match n with
  | O => inr st
  | S n' =>
      st ← epoch_body st;
      stop ← kl_break st;
      if stop : bool then inr st else epochs n' st
  end.

(** "Optimizing the policy and value network" for one rollout. *)
Definition update (st : ustate) : result ustate :=
  epochs (Z.to_nat (update_epochs (opts a)))
         {| agent := agent st;
            b_inds := Z.of_nat <$> seq 0 (Z.to_nat (batch_size a));
            gen := gen st; last := last st; applied := applied st |}.

End Update.

(** *** Sample runs *)

(** The default command line with three minibatches: 512 samples do not
    divide into 3. *)
Definition three_minibatches : cli :=
  {| print_actions := false; total_timesteps := 100000;
     num_envs := 4; num_steps := 128;
     gae := true; gamma := Q2Qc (99 # 100); gae_lambda := Q2Qc (95 # 100);
     num_minibatches := 3; update_epochs := 4; norm_adv := true;
     clip_coef := Q2Qc (2 # 10); clip_vloss := true;
     ent_coef := Q2Qc (1 # 100); vf_coef := Q2Qc (5 # 10);
     target_kl := None |}.

(** A learner small enough to run: the policy is the number of gradient
    steps it has received; before its first step the new log-probabilities
    are 1 against old ones of 0, afterwards they agree with the old ones.
    [exp] is replaced by its second-order polynomial and [std] by the mean
    absolute deviation, which keep the run within the rationals. *)
Definition small_shuffle (g : unit) (inds : list Z) : list Z * unit := (inds, g).

Definition small_agent (agent : nat) (obs : list unit) (actions : list Z)
  : vec * vec * vec :=
  ((λ _, match agent with O => 1 | S _ => 0 end) <$> obs,
   (λ _, 0) <$> obs,
   (λ _, 0) <$> obs).

Definition small_step (agent : nat) (mb : minibatch unit) : nat := S agent.

Definition small_exp (q : Qc) : Qc := 1 + q + q * q * Q2Qc (1 # 2).

Definition small_std (v : vec) : Qc :=
  mean ((λ p, qabs (p - mean v)) <$> v).

(** One environment, two steps per rollout, two minibatches of one sample,
    two epochs, and a target KL of 1/4. *)
Definition small_args : args :=
  {| opts := {| print_actions := false; total_timesteps := 100;
                num_envs := 1; num_steps := 2;
                gae := true; gamma := Q2Qc (99 # 100);
                gae_lambda := Q2Qc (95 # 100);
                num_minibatches := 2; update_epochs := 2; norm_adv := true;
                clip_coef := Q2Qc (2 # 10); clip_vloss := true;
                ent_coef := Q2Qc (1 # 100); vf_coef := Q2Qc (5 # 10);
                target_kl := Some (Q2Qc (1 # 4)) |};
     batch_size := 2;
     minibatch_size := 1 |}.

Definition small_batch : batch unit :=
  {| b_obs := [(); ()]; b_logprobs := [0; 0]; b_actions := [0%Z; 0%Z];
     b_advantages := [1; Q2Qc 3]; b_returns := [1; Q2Qc 3];
     b_values := [0; 0] |}.

Definition small_start : @ustate unit nat unit :=
  {| agent := O; b_inds := []; gen := (); last := None; applied := [] |}.

End PPO.

(** ** The advantage computation with the arithmetic as a parameter

    The two branches of [if args.gae], operation by operation as the source
    has them, over any type of numbers.  At the rationals these are the
    definitions of [PPO]; at binary32 they are what the tensors hold. *)

Module Rounded.

Section Numbers.

Context {num : Type}.
Variables (zero one : num) (add sub mul : num → num → num).
(** [args.num_steps], [args.num_envs], [args.gamma], [args.gae_lambda] *)
Variables (num_steps num_envs : Z) (gamma gae_lambda : num).
Variables rewards values dones : list (list num).
Variables next_value next_done : list num.

Definition row (m : list (list num)) (i : nat) : list num :=
  default [] (m !! i).

Definition is_last (t : nat) : bool := (Z.of_nat t =? num_steps - 1)%Z.

Definition nextnonterminal (t : nat) : list num :=
  if is_last t then (λ d, sub one d) <$> next_done
  else (λ d, sub one d) <$> row dones (t + 1).

Definition nextvalues (t : nat) : list num :=
  if is_last t then next_value else row values (t + 1).

(** [rewards[t] + args.gamma * nextvalues * nextnonterminal - values[t]] *)
Definition delta (t : nat) : list num :=
  zip_with sub
    (zip_with add (row rewards t)
              (zip_with mul (mul gamma <$> nextvalues t)
                        (nextnonterminal t)))
    (row values t).

(** [delta + args.gamma * args.gae_lambda * nextnonterminal * lastgaelam] *)
Definition gae_step (t : nat) (lastgaelam : list num) : list num :=
  zip_with add (delta t)
    (zip_with mul (mul (mul gamma gae_lambda) <$> nextnonterminal t)
              lastgaelam).

Definition gae_body (st : list (list num) * list num) (t : nat)
  : list (list num) * list num :=
  let lastgaelam := gae_step t st.2 in
  (PPO.record st.1 t lastgaelam, lastgaelam).

Definition zeros_like (m : list (list num)) : list (list num) :=
  (λ r : list num, (λ _, zero) <$> r) <$> m.

Definition steps_backwards : list nat :=
  reverse (seq 0 (Z.to_nat num_steps)).

Definition gae_advantages : list (list num) :=
  (foldl gae_body (zeros_like rewards, replicate (Z.to_nat num_envs) zero)
         steps_backwards).1.

(** [returns = advantages + values] *)
Definition gae_returns : list (list num) :=
  zip_with (zip_with add) gae_advantages values.

(** [rewards[t] + args.gamma * nextnonterminal * next_return] *)
Definition plain_step (t : nat) (next_return : list num) : list num :=
  zip_with add (row rewards t)
    (zip_with mul (mul gamma <$> nextnonterminal t) next_return).

Definition plain_body (returns : list (list num)) (t : nat)
  : list (list num) :=
  let next_return :=
    if is_last t then next_value else row returns (t + 1) in
  PPO.record returns t (plain_step t next_return).

Definition plain_returns : list (list num) :=
  foldl plain_body (zeros_like rewards) steps_backwards.

(** [advantages = returns - values] *)
Definition plain_advantages : list (list num) :=
  zip_with (zip_with sub) plain_returns values.

End Numbers.

End Rounded.

(** ** binary32

    The float32 of torch, as the IEEE 754 format of 24 significant bits of
    the Standard Library's specification of floating-point arithmetic, every
    operation rounding to nearest, ties to even. *)

Module F32.

Definition float32 : Set := SpecFloat.spec_float.

Definition prec : Z := 24.
Definition emax : Z := 128.

Definition add : float32 → float32 → float32 := SpecFloat.SFadd prec emax.
Definition sub : float32 → float32 → float32 := SpecFloat.SFsub prec emax.
Definition mul : float32 → float32 → float32 := SpecFloat.SFmul prec emax.
Definition div : float32 → float32 → float32 := SpecFloat.SFdiv prec emax.

(** The float32 nearest to an integer. *)
Definition of_int (v : Z) : float32 :=
  SpecFloat.binary_normalize prec emax v 0 false.

(** The integer that a float32 is, if it is one. *)
Definition to_int (x : float32) : option Z :=
  match x with
  | SpecFloat.S754_zero _ => Some 0
  | SpecFloat.S754_finite s m e =>
      let sign := if s then -1 else 1 in
      if 0 <=? e then Some (sign * (Z.pos m * 2 ^ e))
      else if Z.pos m mod 2 ^ (- e) =? 0
           then Some (sign * (Z.pos m / 2 ^ (- e)))
           else None
  | _ => None
  end.

(** Integers around the limits of the 24 bits and of the 64-bit range. *)
Definition samples : list Z :=
  [0; 1; -1; 5; 16777215; 16777216; 16777217; 16777218; 16777219; 16777221;
   -16777217; -16777219; 33554433; 33554434; 33554435; 123456789;
   -987654321; 2 ^ 31 - 1; 2 ^ 53 + 1; 2 ^ 60 + 2 ^ 36 + 1;
   2 ^ 60 + 2 ^ 36; 2 ^ 60 + 3 * 2 ^ 36; 2 ^ 63 - 1; - 2 ^ 63].

(** One step of one environment: reward 1 against a value of 2^30, with
    gamma = 1/2 and lambda = 1, and nothing after the step. *)
Definition big_value : list (list float32) := [[of_int (2 ^ 30)]].
Definition unit_reward : list (list float32) := [[of_int 1]].
Definition no_flags : list (list float32) := [[of_int 0]].
Definition half : float32 := div (of_int 1) (of_int 2).

End F32.

(** ** rejoice/lib.py, the rest of the Language protocol *)

Module LibMore.
Import Lib.

(** A bound of [get_feature_upper_bounds]: a number, or [np.inf]. *)
Inductive bound :=
| Finite (u : Z)
| Inf.

Definition below (v : Z) (b : bound) : Prop :=
  match b with Finite u => v ≤ u | Inf => True end.

(** A flag of a feature row. *)
Definition binary (v : Z) : Prop := v = 0 ∨ v = 1.

(** The label that [viz_egraph] gives a node: a string, or the tensor
    entry of the scalar value. *)
Inductive name :=
| Name (s : string)
| Value (v : Z).

Section Language.

Variable all_operators : list string.
Context {data : Type}.

(** [np.array([1, 1, 1, np.inf] + ([1] * len(self.all_operators())))] *)
Definition get_feature_upper_bounds : list bound :=
[Finite 1; Finite 1; Finite 1; Inf]
++ replicate (length all_operators) (Finite 1).

(** [features + op_names], a class being identified by its [__name__]. *)
Definition feature_names : list string :=
let features := ["is_eclass"; "is_enode"; "is_scalar"; "scalar_val"] in
let op_names := all_operators in
features ++ op_names.

(** The first loop of [viz_egraph], on the feature row of one node: the
  value of [data['name']], with the [KeyError] of [decoded["op"]] when
  the row is not flagged as an e-node. *)
Definition node_name (node : list Z) : result name :=
decoded ← decode_node all_operators node;
if String.eqb (type decoded) "eclass" then mret (Name "eclass")
else if is_scalar decoded then mret (Value (value decoded))
else of_option (KeyError "op") (Name <$> op decoded).

Fixpoint node_names (rows : list (list Z)) : result (list name) :=
match rows with
| [] => inr []
| node :: rest =>
    n ← node_name node;
    ns ← node_names rest;
    mret (n :: ns)
end.

(** The labels of the nodes of a graph, in node order
  ([to_networkx(data, node_attrs=['x'])] numbers the nodes as the rows of
  [x]). *)
Definition viz_names (g : Data) : result (list name) := node_names (x g).

(** The label of an e-node read off the node itself: the float32 that the
  value of a scalar leaf is stored as, the class name of an operator
  node. *)
Definition enode_label (node : operator) : name :=
match node with
| Scalar v => Value (float32_of_int v)
| OpNode cls _ => Name cls
end.

(** The row of an identifier in the key order of the class dict (the
  number of keys when it is absent). *)
Fixpoint key_index (keys : list string) (id : string) : nat :=
match keys with
| [] => O
| k :: rest => if String.eqb k id then O else S (key_index rest id)
end.

(** The edges that the second loop of [encode_egraph] is to produce, each
  with its attribute: per e-node, in order, the membership edge from the
  row of its e-class and one argument edge to the row of each child.
  [src] is the row of the current class and [idx] the row of the next
  e-node. *)
Definition node_edges (keys : list string) (src idx : nat)
  (node : operator) : list ((nat * nat) * list Z) :=
((src, idx), [0; 1])
:: ((λ ecid, ((idx, key_index keys (str ecid)), [1; 0]))
    <$> children_of node).

Fixpoint class_edges (keys : list string) (src idx : nat)
  (nodes : list operator) : list ((nat * nat) * list Z) :=
match nodes with
| [] => []
| node :: rest =>
    node_edges keys src idx node ++ class_edges keys src (S idx) rest
end.

Fixpoint graph_edges (keys : list string) (src idx : nat)
  (classes : @eclasses data) : list ((nat * nat) * list Z) :=
match classes with
| [] => []
| c :: rest =>
    class_edges keys src idx c.2.2
    ++ graph_edges keys (S src) (idx + length c.2.2)%nat rest
end.

(** What a loop of [encode_egraph] raises: the failure of [encode_node] on
  one of the nodes, or the KeyError of a child that names no e-class. *)
Definition loop_error (m : gmap string nat) (nodes : list operator)
  (e : exn) : Prop :=
Exists (λ node, encode_node all_operators node = inl e) nodes
∨ (∃ k, e = KeyError k ∧ m !! k = None
        ∧ Exists (λ node, ¬ Forall (λ ecid, is_Some (m !! str ecid))
                                   (children_of node)) nodes).

(** An edge with its attribute joins an e-class row (below [E]) and an
  e-node row (from [E] up to [bound]): a membership edge leaves the
  e-class row, an argument edge enters it. *)
Definition typed_edge (E bound : nat) (ea : (nat * nat) * list Z) : Prop :=
(ea.2 = [0; 1] ∧ (ea.1.1 < E)%nat ∧ (E ≤ ea.1.2 < bound)%nat)
∨ (ea.2 = [1; 0] ∧ (ea.1.2 < E)%nat ∧ (E ≤ ea.1.1 < bound)%nat).

(** The conditions of [wf_egraph] on the e-nodes, one at a time: the
  classes of the operator nodes, the range of the int operands, and the
  child identifiers. *)
Definition class_known (node : operator) : bool :=
match node with
| Scalar _ => true
| OpNode cls _ => bool_decide (cls ∈ all_operators)
end.

Definition scalar_fits (node : operator) : bool :=
match node with
| Scalar v => in_int64 v
| OpNode _ _ => true
end.

Definition operators_known (classes : @eclasses data) : bool :=
forallb class_known (enodes classes).

Definition scalars_fit (classes : @eclasses data) : bool :=
forallb scalar_fits (enodes classes).

Definition children_resolve (classes : @eclasses data) : bool :=
forallb (λ node,
   forallb (λ ecid, bool_decide (str ecid ∈ classes.*1))
           (children_of node)) (enodes classes).

End Language.

End LibMore.

(** ** ppo.py, the rest of [main] *)

Module PPOMore.
Import PPO.

Local Open Scope Qc_scope.

(** *** Action vocabulary *)

(** [[r[0] for r in envs.envs[0].lang.all_rules()] + ["end"]], a rule being
    a name with its two patterns. *)
Definition action_names {pattern : Type}
    (all_rules : list (string * (pattern * pattern))) : list string :=
  all_rules.*1 ++ ["end"].

(** *** Learning-rate annealing *)

(** [frac = 1.0 - (update - 1.0) / num_updates; lrnow = frac *
    args.learning_rate] *)
Definition lrnow (learning_rate : Qc) (update num_updates : Z) : Qc :=
  let frac := 1 - (Qc_of_Z update - 1) / Qc_of_Z num_updates in
  frac * learning_rate.

(** *** Step counter *)

(** [global_step] after the given number of passes of the update loop: each
    pass runs [for step in range(0, args.num_steps)] with
    [global_step += 1 * args.num_envs]. *)
Definition count_rollout (a : args) (global_step : Z) : Z :=
  foldl (λ g _, (g + 1 * num_envs (opts a))%Z) global_step (seq 0 (T a)).

Definition global_step_after (a : args) (updates : nat) : Z :=
  foldl (λ g _, count_rollout a g) 0%Z (seq 1 updates).

(** *** Rollout *)

Section Rollout.

(** A batch of observations, and everything the rollout cannot see: the
  environments and the states of the random generators. *)
Context {observation world : Type}.

(** [agent.get_action_and_value(next_obs)] without an action: the sampled
  actions, their log-probabilities and the values. *)
Variable sample_action_and_value :
world → observation → (list Z * vec * vec) * world.
(** [envs.step(action)] followed by the conversions of its results: the
  next observations, the rewards and the done flags. *)
Variable step_envs : world → list Z → (observation * vec * vec) * world.

Variable a : args.

(** The storage and the variables that the rollout loop updates.  [obs] is
  [np.empty(num_steps, dtype=object)]: a slot holds nothing until it is
  written. *)
Record rollout_state := {
outside : world;
global_step : Z;
next_obs : observation;
next_done : vec;
obs : list (option observation);
actions : list (list Z);
logprobs : list vec;
rewards : list vec;
dones : list vec;
values : list vec
}.

(** The body of [for step in range(0, args.num_steps)], the reporting of
  finished episodes apart. *)
Definition rollout_body (st : rollout_state) (step : nat) : rollout_state :=
let global_step := (global_step st + 1 * num_envs (opts a))%Z in
let obs := record (obs st) step (Some (next_obs st)) in
let dones := record (dones st) step (next_done st) in
let '((action, logprob, value), w) :=
  sample_action_and_value (outside st) (next_obs st) in
let values := record (values st) step value in
let actions := record (actions st) step action in
let logprobs := record (logprobs st) step logprob in
let '((next_obs, reward, done), w) := step_envs w action in
let rewards := record (rewards st) step reward in
{| outside := w; global_step := global_step;
   next_obs := next_obs; next_done := done;
   obs := obs; actions := actions; logprobs := logprobs;
   rewards := rewards; dones := dones; values := values |}.

Definition rollout (st : rollout_state) : rollout_state :=
foldl rollout_body st (seq 0 (T a)).

(** The state at the start of step [t] of the rollout. *)
Definition before_step (st : rollout_state) (t : nat) : rollout_state :=
foldl rollout_body st (seq 0 t).

(** What step [t] computes from the state it starts in. *)
Definition chosen (st : rollout_state) : list Z * vec * vec :=
(sample_action_and_value (outside st) (next_obs st)).1.

Definition stepped (st : rollout_state) : observation * vec * vec :=
(step_envs (sample_action_and_value (outside st) (next_obs st)).2
           (chosen st).1.1).1.

(** The six buffers have [num_steps] slots. *)
Definition allocated (st : rollout_state) : bool :=
Nat.eqb (length (obs st)) (T a) && Nat.eqb (length (actions st)) (T a)
&& Nat.eqb (length (logprobs st)) (T a)
&& Nat.eqb (length (rewards st)) (T a)
&& Nat.eqb (length (dones st)) (T a) && Nat.eqb (length (values st)) (T a).

(** "ALGO Logic: Storage setup" and the start of the game: buffers of zeros
  and the observations of [envs.reset()]. *)
Definition storage_setup (w : world) (reset : observation) : rollout_state :=
{| outside := w; global_step := 0%Z;
   next_obs := reset; next_done := replicate (E a) 0;
   obs := replicate (T a) None;
   actions := replicate (T a) (replicate (E a) 0%Z);
   logprobs := replicate (T a) (replicate (E a) 0);
   rewards := replicate (T a) (replicate (E a) 0);
   dones := replicate (T a) (replicate (E a) 0);
   values := replicate (T a) (replicate (E a) 0) |}.

End Rollout.

(** A world small enough to run: one environment whose observation is the
    number of steps taken, whose reward is always 1 and whose episodes end
    at every third step; the agent answers with the observation as the
    action and as the value. *)
Definition counting_agent (w : nat) (o : nat)
  : (list Z * vec * vec) * nat :=
  (([Z.of_nat o], [0], [Qc_of_Z (Z.of_nat o)]), w).

Definition counting_envs (w : nat) (action : list Z)
  : (nat * vec * vec) * nat :=
  ((S w, [1], [if Nat.eqb (S w mod 3) 0 then 1 else 0]), S w).

(** *** Flattening and minibatches *)

(** [t.reshape(-1)] on a two-dimensional buffer, and the concatenation of
    the per-step lists of observations. *)
Definition flatten {A} (m : list (list A)) : list A := concat m.

(** The index arrays [b_inds[start:end]] of one epoch. *)
Definition minibatch_indices (a : args) (b_inds : list Z)
    (starts : list Z) : list (list Z) :=
  (λ start, py_slice b_inds start (start + minibatch_size a)) <$> starts.

(** [np.arange(args.batch_size)] *)
Definition arange (n : Z) : list Z := Z.of_nat <$> seq 0 (Z.to_nat n).

(** [len(range(0, args.batch_size, args.minibatch_size))] for a positive
    minibatch size. *)
Definition minibatches_per_epoch (a : args) : nat :=
  Z.to_nat ((batch_size a + minibatch_size a - 1) / minibatch_size a).

(** The six arrays of the flattened batch have [batch_size] entries. *)
Definition batch_complete {obs} (a : args) (b : batch obs) : bool :=
  let n := Z.to_nat (batch_size a) in
  Nat.eqb (length (b_obs b)) n && Nat.eqb (length (b_logprobs b)) n
  && Nat.eqb (length (b_actions b)) n && Nat.eqb (length (b_advantages b)) n
  && Nat.eqb (length (b_returns b)) n && Nat.eqb (length (b_values b)) n.

(** The scenario of four steps of one environment with [--gae False], and
    done flags that end an episode with the third step. *)
Definition plain_scenario : args :=
  {| opts := {| print_actions := true; total_timesteps := 100000;
                num_envs := 1; num_steps := 4;
                gae := false; gamma := Q2Qc (99 # 100);
                gae_lambda := Q2Qc (95 # 100);
                num_minibatches := 4; update_epochs := 4; norm_adv := true;
                clip_coef := Q2Qc (2 # 10); clip_vloss := true;
                ent_coef := Q2Qc (1 # 100); vf_coef := Q2Qc (5 # 10);
                target_kl := None |};
     batch_size := 4;
     minibatch_size := 1 |}.

Definition scenario_dones : list vec := [[0]; [0]; [0]; [1]].

(** The arguments that [parse_args] gives for the default command line with
    three minibatches, and for two samples with four minibatches. *)
Definition uneven_args : args :=
  {| opts := three_minibatches; batch_size := 512; minibatch_size := 170 |}.

Definition few_samples : cli :=
  {| print_actions := false; total_timesteps := 100;
     num_envs := 1; num_steps := 2;
     gae := true; gamma := Q2Qc (99 # 100); gae_lambda := Q2Qc (95 # 100);
     num_minibatches := 4; update_epochs := 2; norm_adv := true;
     clip_coef := Q2Qc (2 # 10); clip_vloss := true;
     ent_coef := Q2Qc (1 # 100); vf_coef := Q2Qc (5 # 10);
     target_kl := None |}.

Definition few_samples_args : args :=
  {| opts := few_samples; batch_size := 2; minibatch_size := 0 |}.

(** The small learner at the start of an epoch. *)
Definition small_epoch_start : @ustate unit nat unit :=
  {| agent := O; b_inds := [0; 1]%Z; gen := (); last := None;
     applied := [] |}.

(** The samples of a batch and of a minibatch: for each index, the
    observation, the action, the old log-probability, the return and the
    old value, taken together.  (The advantage of a sample is normalized
    within its minibatch and is not part of the tuple.) *)
Definition samples {obs} (o : list obs) (ac : list Z) (lp r v : vec)
  : list (obs * (Z * (Qc * (Qc * Qc)))) :=
  zip o (zip ac (zip lp (zip r v))).

Definition batch_samples {obs} (b : batch obs)
  : list (obs * (Z * (Qc * (Qc * Qc)))) :=
  samples (b_obs b) (b_actions b) (b_logprobs b) (b_returns b) (b_values b).

Definition minibatch_samples {obs} (mb : minibatch obs)
  : list (obs * (Z * (Qc * (Qc * Qc)))) :=
  samples (mb_obs mb) (mb_actions mb) (mb_logprobs mb) (mb_returns mb)
          (mb_values mb).

(** *** Explained variance *)

(** [np.var], the variance of the population. *)
Definition var (v : vec) : Qc :=
  mean (vsquare ((λ p, p - mean v) <$> v)).

(** [np.nan if var_y == 0 else 1 - np.var(y_true - y_pred) / var_y];
    [None] stands for nan. *)
Definition explained_var (y_pred y_true : vec) : option Qc :=
  let var_y := var y_true in
  if decide (var_y = 0) then None
  else Some (1 - var (vsub y_true y_pred) / var_y).

End PPOMore.

(** * Properties *)

(** ** The encoder *)

Module LibFacts.
Import Lib.

Local Open Scope nat_scope.

(** *** The float32 of an integer *)

Lemma round_to_24_bits_exact (m : Z) :
  (0 ≤ m ≤ 2 ^ 24)%Z → round_to_24_bits m = m.
Proof.
  intros [Hlo Hhi].
  destruct (decide (m = 2 ^ 24)%Z) as [->|Hne]; [by vm_compute|].
  assert (Hlog : (Z.log2 m < 24)%Z).
  { destruct (decide (m = 0%Z)) as [->|H0]; [by vm_compute|].
    apply Z.log2_lt_pow2; lia. }
  unfold round_to_24_bits. rewrite Z.max_l by lia.
  change (2 ^ 0)%Z with 1%Z. rewrite Z.div_1_r, Z.mod_1_r.
  change (2 * 0 <? 1)%Z with true. cbv beta iota zeta. lia.
Qed.

Lemma round_to_24_bits_near (m : Z) :
  (0 ≤ m)%Z → (2 ^ 24 * Z.abs (round_to_24_bits m - m) ≤ m)%Z.
Proof.
  intros Hm.
  destruct (decide (m ≤ 2 ^ 24)%Z) as [Hsmall|Hbig].
  { rewrite round_to_24_bits_exact by lia. rewrite Z.sub_diag. simpl. lia. }
  assert (Hpos : (0 < m)%Z) by lia.
  destruct (Z.log2_spec m Hpos) as [Hle _].
  assert (Hlog : (24 ≤ Z.log2 m)%Z).
  { apply Z.log2_le_pow2; lia. }
  unfold round_to_24_bits. rewrite Z.max_r by lia.
  set (u := (2 ^ (Z.log2 m - 23))%Z).
  assert (Hu : (0 < u)%Z) by (apply Z.pow_pos_nonneg; lia).
  assert (Hpow : (2 ^ Z.log2 m = 2 ^ 23 * u)%Z).
  { unfold u. rewrite <- Z.pow_add_r by lia. f_equal. lia. }
  pose proof (Z.div_mod m u ltac:(lia)) as Hdiv.
  pose proof (Z.mod_pos_bound m u Hu) as Hr.
  set (q := (m / u)%Z) in *. set (r := (m mod u)%Z) in *.
  assert (Hnear : ∀ q', (2 * Z.abs (q' * u - m) ≤ u)%Z →
                        (2 ^ 24 * Z.abs (q' * u - m) ≤ m)%Z).
  { intros q' H'. change (2 ^ 24)%Z with (2 ^ 23 * 2)%Z. nia. }
  apply Hnear.
  destruct (Z.ltb_spec (2 * r) u); [|destruct (Z.ltb_spec u (2 * r))];
    [| |destruct (Z.even q)]; nia.
Qed.

Lemma float32_of_int_exact (v : Z) :
  (Z.abs v ≤ 2 ^ 24)%Z → float32_of_int v = v.
Proof.
  intros Hv. unfold float32_of_int.
  rewrite round_to_24_bits_exact by lia. by destruct v.
Qed.

Lemma float32_of_int_near (v : Z) :
  (2 ^ 24 * Z.abs (float32_of_int v - v) ≤ Z.abs v)%Z.
Proof.
  unfold float32_of_int.
  pose proof (round_to_24_bits_near (Z.abs v) (Z.abs_nonneg v)) as H.
  destruct v as [|p|p]; [by vm_compute| |]; cbn [Z.sgn Z.abs] in *;
    set (R := round_to_24_bits (Z.pos p)) in *;
    change (2 ^ 24)%Z with 16777216%Z in *; lia.
Qed.

(** The rounding agrees with the conversion of the Standard Library's
    binary32 on integers around the limits of the 24 bits and of the 64-bit
    range. *)
Lemma float32_of_int_samples :
  Forall (λ v, F32.to_int (F32.of_int v) = Some (float32_of_int v))
         F32.samples.
Proof.
  apply (bool_decide_unpack
           (Forall (λ v, F32.to_int (F32.of_int v) = Some (float32_of_int v))
                   F32.samples)).
  by vm_compute.
Qed.

Section Rows.

Variable all_operators : list string.
Context {data : Type}.

Lemma encode_op_found cls onehot ops : ∀ ind,
  cls ∈ ops →
  ∃ k, ops !! k = Some cls ∧
       encode_op cls onehot ind ops = inr (<[4 + (ind + k) := 1%Z]> onehot).
Proof.
  induction ops as [|o ops IH]; intros ind Hin.
  - by apply elem_of_nil in Hin.
  - simpl. destruct (String.eqb cls o) eqn:Heq.
    + apply String.eqb_eq in Heq as ->. exists 0.
      by rewrite Nat.add_0_r.
    + apply String.eqb_neq in Heq.
      apply elem_of_cons in Hin as [->|Hin]; [done|].
      destruct (IH (S ind) Hin) as (k & Hk & ->).
      exists (S k). split; [done|].
      by replace (S ind + k) with (ind + S k) by lia.
Qed.

Lemma encode_op_missing cls onehot ops : ∀ ind,
  cls ∉ ops → encode_op cls onehot ind ops = inl EncodeFailure.
Proof.
  induction ops as [|o ops IH]; intros ind Hin; [done|].
  simpl. apply not_elem_of_cons in Hin as [Hne Hin].
  apply String.eqb_neq in Hne as ->. by apply IH.
Qed.

Lemma encode_scalar v :
  in_int64 v = true →
  encode_node all_operators (Scalar v)
  = inr (0 :: 0 :: 1 :: float32_of_int v
         :: replicate (length all_operators) 0)%Z.
Proof. intros Hv. unfold encode_node. rewrite Hv. reflexivity. Qed.

Lemma encode_scalar_overflow v :
  in_int64 v = false → encode_node all_operators (Scalar v) = inl Overflow.
Proof. intros Hv. unfold encode_node. by rewrite Hv. Qed.

Lemma encode_opnode cls children :
  cls ∈ all_operators →
  ∃ k, all_operators !! k = Some cls ∧
       encode_node all_operators (OpNode cls children)
       = inr (0 :: 1 :: 0 :: 0 ::
              <[k := 1%Z]> (replicate (length all_operators) 0%Z))%Z.
Proof.
  intros Hin. unfold encode_node.
  destruct (encode_op_found cls
              (<[1 := 1%Z]> (replicate (num_node_features all_operators) 0%Z))
              all_operators 0 Hin) as (k & Hk & ->).
  exists k. split; [done|]. reflexivity.
Qed.

Lemma encode_eclass_row id (d : data) :
  encode_eclass all_operators id d
  = (1 :: 0 :: 0 :: 0 :: replicate (length all_operators) 0)%Z.
Proof. reflexivity. Qed.

Lemma argmax_from_zeros n : ∀ best_i best i,
  (0 ≤ best)%Z → argmax_from best_i best i (replicate n 0%Z) = best_i.
Proof.
  induction n as [|n IH]; intros best_i best i Hb; [done|].
  simpl. destruct (Z.ltb_spec best 0); [lia|]. by apply IH.
Qed.

Lemma argmax_from_onehot n : ∀ k best_i i,
  k < n →
  argmax_from best_i 0 i (<[k := 1%Z]> (replicate n 0%Z)) = i + k.
Proof.
  induction n as [|n IH]; intros k best_i i Hk; [lia|].
  destruct k as [|k]; simpl.
  - rewrite argmax_from_zeros; lia.
  - rewrite IH; lia.
Qed.

Lemma argmax_onehot n k :
  k < n → argmax (<[k := 1%Z]> (replicate n 0%Z)) = inr k.
Proof.
  intros Hk. destruct n as [|n]; [lia|].
  destruct k as [|k]; simpl.
  - by rewrite argmax_from_zeros.
  - rewrite argmax_from_onehot; [done|lia].
Qed.

Lemma decode_enode_row n0 n2 n3 (onehot : list Z) :
  decode_node all_operators (n0 :: 1 :: n2 :: n3 :: onehot)%Z
  = (ind ← argmax onehot;
     o ← item all_operators ind;
     mret {| type := if (n0 =? 1)%Z then "eclass" else "enode";
             is_scalar := negb (n2 =? 0)%Z; value := n3; op := Some o |}).
Proof. reflexivity. Qed.

Lemma known_operator_encodes node :
  known_operator all_operators node = true →
  ∃ r, encode_node all_operators node = inr r
       ∧ length r = num_node_features all_operators
       ∧ r !! 0 = Some 0%Z.
Proof.
  destruct node as [v|cls children]; intros Hk; cbn [known_operator] in Hk.
  - eexists. split; [by apply encode_scalar|].
    split; [|done]. simpl. by rewrite length_replicate.
  - apply bool_decide_eq_true in Hk.
    destruct (encode_opnode cls children Hk) as (k & _ & ->).
    eexists. split; [done|]. split; [|done].
    simpl. by rewrite length_insert, length_replicate.
Qed.

(** *** First loop *)

Lemma insert_eclasses_acc (cs : @eclasses data) : ∀ nodes0 m0,
  let r := foldl (insert_eclass all_operators) (nodes0, m0) cs in
  r.1 = nodes0 ++ ((λ c, encode_eclass all_operators c.1 c.2.1) <$> cs)
  ∧ (∀ id, id ∈ cs.*1 ∨ is_Some (m0 !! id) → is_Some (r.2 !! id))
  ∧ (index_below (length nodes0) m0 →
     index_below (length nodes0 + length cs) r.2).
Proof.
  induction cs as [|c cs IH]; intros nodes0 m0; simpl.
  - split; [by rewrite app_nil_r|]. split.
    + intros id [Hin|?]; [by apply elem_of_nil in Hin|done].
    + by rewrite Nat.add_0_r.
  - set (nodes1 := nodes0 ++ [encode_eclass all_operators c.1 c.2.1]).
    set (m1 := <[c.1 := length nodes1 - 1]> m0).
    change (insert_eclass all_operators (nodes0, m0) c) with (nodes1, m1).
    assert (Hlen : length nodes1 = length nodes0 + 1)
      by (unfold nodes1; by rewrite length_app).
    destruct (IH nodes1 m1) as (Hn & Hdom & Hbelow).
    split; [|split].
    + rewrite Hn. unfold nodes1. by rewrite <- app_assoc.
    + intros id Hid. apply Hdom. unfold m1.
      destruct (decide (id = c.1)) as [->|Hne].
      * right. rewrite lookup_insert_eq. by eexists.
      * destruct Hid as [Hin|Hs].
        -- apply elem_of_cons in Hin as [?|Hin]; [done|by left].
        -- right. by rewrite lookup_insert_ne.
    + intros Hm.
      replace (length nodes0 + S (length cs))
        with (length nodes1 + length cs) by lia.
      apply Hbelow. intros id i. unfold m1.
      destruct (decide (c.1 = id)) as [->|Hne].
      * rewrite lookup_insert_eq. intros [= <-]. lia.
      * rewrite lookup_insert_ne by done. intros Hi. apply Hm in Hi. lia.
Qed.

Lemma insert_eclasses_spec (classes : @eclasses data) :
  let r := insert_eclasses all_operators classes in
  r.1 = (λ c, encode_eclass all_operators c.1 c.2.1) <$> classes
  ∧ (∀ id, id ∈ classes.*1 → is_Some (r.2 !! id))
  ∧ index_below (length classes) r.2.
Proof.
  destruct (insert_eclasses_acc classes [] ∅) as (Hn & Hdom & Hb).
  split; [done|]. split.
  - intros id Hin. apply Hdom. by left.
  - apply Hb. intros id i. by rewrite lookup_empty.
Qed.

(** *** Second loop *)

Lemma connect_children_ok m E children : ∀ st,
  index_below E m →
  Forall (λ ecid, is_Some (m !! str ecid)) children →
  edges_ok E st →
  E < length (all_nodes st) →
  ∃ st', connect_children m (length (all_nodes st) - 1) children st = inr st'
         ∧ all_nodes st' = all_nodes st
         ∧ edges_ok E st'.
Proof.
  intros st Hm. revert st.
  induction children as [|ecid rest IH]; intros st Hch Hok HE.
  - by exists st.
  - apply Forall_cons_1 in Hch as [[tgt Htgt] Hrest]. simpl.
    rewrite Htgt. simpl.
    pose proof (Hm _ _ Htgt) as Hlt.
    destruct Hok as (H1 & H2 & H3 & H4 & H5).
    set (st1 := {| all_nodes := all_nodes st;
                   all_edges := all_edges st ++ [(length (all_nodes st) - 1, tgt)];
                   attrs := attrs st ++ [[1; 0]]%Z |}).
    destruct (IH st1 Hrest) as (st' & Hrun & Hnodes & Hok'); [|done|].
    + unfold edges_ok, st1; simpl. split; [done|]. split.
      { rewrite !length_app. simpl. lia. }
      split.
      { apply Forall_app. split; [done|].
        apply Forall_singleton. simpl. lia. }
      split.
      { intros _. destruct (H4 HE) as (e & He & Hmax).
        exists e. split; [|done]. apply elem_of_app. by left. }
      apply Forall_app. split; [done|]. apply Forall_singleton. by right.
    + exists st'. split; [exact Hrun|]. split; [exact Hnodes|exact Hok'].
Qed.

Lemma insert_enode_ok m E eclass_id node st :
  index_below E m →
  is_Some (m !! eclass_id) →
  known_operator all_operators node = true →
  Forall (λ ecid, is_Some (m !! str ecid)) (children_of node) →
  edges_ok E st →
  ∃ st' r, insert_enode all_operators m eclass_id node st = inr st'
           ∧ encode_node all_operators node = inr r
           ∧ all_nodes st' = all_nodes st ++ [r]
           ∧ edges_ok E st'.
Proof.
  intros Hm [src Hsrc] Hk Hch (H1 & H2 & H3 & H4 & H5).
  destruct (known_operator_encodes node Hk) as (r & Henc & _ & _).
  unfold insert_enode. rewrite Henc. simpl. rewrite Hsrc. simpl.
  pose proof (Hm _ _ Hsrc) as Hlt.
  set (st1 := {| all_nodes := all_nodes st ++ [r];
                 all_edges := all_edges st
                              ++ [(src, length (all_nodes st ++ [r]) - 1)];
                 attrs := attrs st ++ [[0; 1]]%Z |}).
  assert (Hlen : length (all_nodes st ++ [r]) = S (length (all_nodes st)))
    by (rewrite length_app; simpl; lia).
  assert (Hok1 : edges_ok E st1).
  { unfold edges_ok, st1; simpl. rewrite Hlen. split; [lia|]. split.
    { rewrite !length_app. simpl. lia. }
    split.
    { apply Forall_app. split.
      - eapply List.Forall_impl; [|exact H3]. simpl. intros e ?. lia.
      - apply Forall_singleton. simpl. lia. }
    split.
    { intros _. exists (src, S (length (all_nodes st)) - 1). split.
      - apply elem_of_app. right. by apply list_elem_of_singleton.
      - simpl. lia. }
    apply Forall_app. split; [done|]. apply Forall_singleton. by left. }
  destruct node as [v|cls children].
  - exists st1, r. done.
  - destruct (connect_children_ok m E children st1 Hm Hch Hok1)
      as (st' & Hrun & Hnodes & Hok').
    { unfold st1; simpl. rewrite Hlen. lia. }
    exists st', r. done.
Qed.

Lemma insert_enodes_ok m E eclass_id nodes : ∀ st,
  index_below E m →
  is_Some (m !! eclass_id) →
  Forall (λ node, known_operator all_operators node = true) nodes →
  Forall (λ node, Forall (λ ecid, is_Some (m !! str ecid))
                         (children_of node)) nodes →
  edges_ok E st →
  ∃ st' rows, insert_enodes all_operators m eclass_id nodes st = inr st'
              ∧ Forall2 (λ node r, encode_node all_operators node = inr r)
                        nodes rows
              ∧ all_nodes st' = all_nodes st ++ rows
              ∧ edges_ok E st'.
Proof.
  intros st Hm Hid. revert st.
  induction nodes as [|node rest IH]; intros st Hk Hch Hok.
  - exists st, []. rewrite app_nil_r. done.
  - apply Forall_cons_1 in Hk as [Hk Hks]. apply Forall_cons_1 in Hch as [Hc Hcs].
    destruct (insert_enode_ok m E eclass_id node st Hm Hid Hk Hc Hok)
      as (st1 & r & Hrun1 & Henc & Hn1 & Hok1).
    destruct (IH st1 Hks Hcs Hok1) as (st' & rows & Hrun & Hrows & Hn & Hok').
    exists st', (r :: rows). simpl. rewrite Hrun1. simpl.
    split; [done|]. split; [by constructor|]. split; [|done].
    rewrite Hn, Hn1. by rewrite <- app_assoc.
Qed.

Lemma insert_classes_ok m E (cs : @eclasses data) : ∀ st,
  index_below E m →
  Forall (λ c, is_Some (m !! c.1)) cs →
  Forall (λ node, known_operator all_operators node = true) (enodes cs) →
  Forall (λ node, Forall (λ ecid, is_Some (m !! str ecid))
                         (children_of node)) (enodes cs) →
  edges_ok E st →
  ∃ st' rows, insert_classes all_operators m cs st = inr st'
              ∧ Forall2 (λ node r, encode_node all_operators node = inr r)
                        (enodes cs) rows
              ∧ all_nodes st' = all_nodes st ++ rows
              ∧ edges_ok E st'.
Proof.
  intros st Hm. revert st.
  induction cs as [|[eclass_id [d nodes]] rest IH]; intros st Hids Hk Hch Hok.
  - exists st, []. rewrite app_nil_r. done.
  - apply Forall_cons_1 in Hids as [Hid Hids].
    change (enodes ((eclass_id, (d, nodes)) :: rest))
      with (nodes ++ enodes rest) in Hk, Hch |- *.
    apply Forall_app in Hk as [Hk Hks]. apply Forall_app in Hch as [Hc Hcs].
    destruct (insert_enodes_ok m E eclass_id nodes st Hm Hid Hk Hc Hok)
      as (st1 & rows1 & Hrun1 & Hrows1 & Hn1 & Hok1).
    destruct (IH st1 Hids Hks Hcs Hok1)
      as (st' & rows & Hrun & Hrows & Hn & Hok').
    exists st', (rows1 ++ rows). simpl. rewrite Hrun1. simpl.
    split; [done|]. split; [by apply Forall2_app|]. split; [|done].
    rewrite Hn, Hn1. by rewrite <- app_assoc.
Qed.

(** *** Self-loops *)

Lemma filter_all {A} (P : A → Prop) `{∀ y, Decision (P y)} (l : list A) :
  Forall P l → filter P l = l.
Proof.
  induction 1 as [|y l Hy _ IH]; [done|].
  rewrite filter_cons_True by done. by rewrite IH.
Qed.

Lemma zip_no_loops (edges : list (nat * nat)) : ∀ ats : list (list Z),
  Forall (λ e : nat * nat, e.1 ≠ e.2) edges →
  Forall (λ ea : (nat * nat) * list Z, is_self_loop ea.1 = false)
         (zip edges ats).
Proof.
  induction edges as [|e edges IH]; intros ats He; [constructor|].
  destruct ats as [|ea ats]; [constructor|].
  apply Forall_cons_1 in He as [Hne He]. simpl. constructor.
  - simpl. unfold is_self_loop. by apply Nat.eqb_neq.
  - by apply IH.
Qed.

Lemma foldl_no_loops (l : list ((nat * nat) * list Z)) :
  ∀ la : list (list Z),
  Forall (λ ea : (nat * nat) * list Z, is_self_loop ea.1 = false) l →
  foldl (λ (la : list (list Z)) ea,
           if is_self_loop ea.1 then <[ea.1.1 := ea.2]> la else la)
        la l = la.
Proof.
  induction l as [|ea l IH]; intros la Hl; [done|].
  apply Forall_cons_1 in Hl as [Hea Hl]. simpl. rewrite Hea. by apply IH.
Qed.

Lemma add_loops_no_loops edges (ats : list (list Z)) :
  length ats = length edges →
  Forall (λ e : nat * nat, e.1 ≠ e.2) edges →
  add_remaining_self_loops edges ats
  = (edges ++ ((λ i, (i, i)) <$> seq 0 (maybe_num_nodes edges)),
     ats ++ replicate (maybe_num_nodes edges)
                      (replicate (length (hd [] ats)) 1%Z)).
Proof.
  intros Hlen Hne. unfold add_remaining_self_loops.
  pose proof (zip_no_loops edges ats Hne) as Hz.
  rewrite foldl_no_loops by done.
  rewrite filter_all.
  - rewrite fst_zip, snd_zip by lia. done.
  - eapply List.Forall_impl; [|exact Hz]. simpl. intros ea ->. done.
Qed.

Lemma max_list_bound (l : list nat) b :
  Forall (λ n, n ≤ b) l → max_list l ≤ b.
Proof. induction 1; simpl; lia. Qed.

Lemma maybe_num_nodes_exact (edges : list (nat * nat)) n :
  Forall (λ e : nat * nat, e.1 < n ∧ e.2 < n) edges →
  (∃ e, e ∈ edges ∧ e.1 `max` e.2 = n - 1) →
  maybe_num_nodes edges = n.
Proof.
  intros Hall (e & He & Hmax).
  assert (Hn : 0 < n).
  { apply list_elem_of_lookup in He as [i Hi].
    eapply Forall_lookup_1 in Hall; [|exact Hi]. lia. }
  unfold maybe_num_nodes. destruct edges as [|e0 edges].
  { by apply elem_of_nil in He. }
  set (l := map (λ e : nat * nat, e.1 `max` e.2) (e0 :: edges)).
  assert (max_list l ≤ n - 1).
  { apply max_list_bound. unfold l. apply Forall_map.
    eapply List.Forall_impl; [|exact Hall]. simpl. intros ?. lia. }
  assert (n - 1 ≤ max_list l).
  { apply max_list_elem_of_le. unfold l. rewrite <- Hmax.
    apply (list_elem_of_fmap_2 (λ e : nat * nat, e.1 `max` e.2)). done. }
  lia.
Qed.

(** *** The run of [encode_egraph] on a well-formed search state *)

Lemma wf_egraph_unfold (classes : @eclasses data) :
  wf_egraph all_operators classes = true →
  Forall (λ node, known_operator all_operators node = true) (enodes classes)
  ∧ Forall (λ node, Forall (λ ecid, str ecid ∈ classes.*1)
                           (children_of node)) (enodes classes)
  ∧ enodes classes ≠ [].
Proof.
  unfold wf_egraph. rewrite !andb_true_iff.
  intros [[Hk Hc] Hn]. split; [|split].
  - apply Forall_forall. intros node Hin.
    rewrite List.forallb_forall in Hk. by apply Hk.
  - apply Forall_forall. intros node Hin.
    rewrite List.forallb_forall in Hc.
    apply Hc in Hin. rewrite List.forallb_forall in Hin.
    apply Forall_forall. intros ecid Hecid.
    apply Hin in Hecid. by apply bool_decide_eq_true in Hecid.
  - intros Hnil. by rewrite Hnil in Hn.
Qed.

Lemma encode_egraph_run (classes : @eclasses data) :
  wf_egraph all_operators classes = true →
  ∃ st rows,
    encode_egraph all_operators classes
    = inr {| x := all_nodes st;
             edge_index :=
               all_edges st
               ++ ((λ i, (i, i)) <$> seq 0 (length (all_nodes st)));
             edge_attr :=
               attrs st ++ replicate (length (all_nodes st)) [1; 1]%Z |}
    ∧ all_nodes st
      = ((λ c, encode_eclass all_operators c.1 c.2.1) <$> classes) ++ rows
    ∧ Forall2 (λ node r, encode_node all_operators node = inr r)
              (enodes classes) rows
    ∧ edges_ok (length classes) st.
Proof.
  intros Hwf. destruct (wf_egraph_unfold classes Hwf) as (Hk & Hc & Hne).
  destruct (insert_eclasses_spec classes) as (Hn & Hdom & Hbelow).
  unfold encode_egraph.
  destruct (insert_eclasses all_operators classes) as [nodes m].
  simpl in Hn, Hdom, Hbelow.
  set (st0 := {| all_nodes := nodes; all_edges := []; attrs := [] |}).
  assert (Hok0 : edges_ok (length classes) st0).
  { unfold edges_ok, st0; simpl. rewrite Hn, length_fmap.
    split; [done|]. split; [done|]. split; [constructor|].
    split; [lia|constructor]. }
  destruct (insert_classes_ok m (length classes) classes st0 Hbelow)
    as (st & rows & Hrun & Hrows & Hnodes & Hok); [| done | | done |].
  { apply Forall_forall. intros c Hin. apply Hdom.
    apply list_elem_of_In in Hin. by apply (list_elem_of_fmap_2 fst). }
  { eapply List.Forall_impl; [|exact Hc]. simpl. intros node Hnode.
    eapply List.Forall_impl; [|exact Hnode]. simpl. intros ecid. apply Hdom. }
  exists st, rows. rewrite Hrun. cbv [mbind result_bind].
  destruct Hok as (H1 & H2 & H3 & H4 & H5).
  assert (Hrows_ne : rows ≠ []).
  { intros ->. apply Forall2_nil_inv_r in Hrows. done. }
  assert (HE : length classes < length (all_nodes st)).
  { rewrite Hnodes. simpl. rewrite Hn, length_app, length_fmap.
    destruct rows; [done|]. simpl. lia. }
  destruct (H4 HE) as (e & He & Hmax).
  assert (Hnum : maybe_num_nodes (all_edges st) = length (all_nodes st)).
  { apply maybe_num_nodes_exact; [|by exists e].
    eapply List.Forall_impl; [|exact H3]. simpl. tauto. }
  assert (Hst_nodes : stack (all_nodes st) = inr (all_nodes st)).
  { destruct (all_nodes st); [simpl in HE; lia|done]. }
  assert (Hst_edges : stack (all_edges st) = inr (all_edges st)).
  { destruct (all_edges st); [by apply elem_of_nil in He|done]. }
  assert (Hst_attrs : stack (attrs st) = inr (attrs st)
                      ∧ length (hd [] (attrs st)) = 2).
  { destruct (attrs st) as [|ea ats].
    - destruct (all_edges st); [by apply elem_of_nil in He|done].
    - split; [done|]. apply Forall_cons_1 in H5 as [[->| ->] _]; done. }
  destruct Hst_attrs as [Hst_attrs Hwidth].
  rewrite Hst_nodes, Hst_edges, Hst_attrs.
  rewrite add_loops_no_loops; [|done|].
  - rewrite Hnum, Hwidth. split; [done|]. split; [by rewrite <- Hn|].
    split; [done|]. done.
  - eapply List.Forall_impl; [|exact H3]. simpl. tauto.
Qed.

End Rows.

(** *** The claims on the encoder *)

(** C1, as stated, fails: the row of the scalar leaf 5 does not have
    is_enode = 1 (its slot 1 stays 0), whatever the other slots hold. *)
Lemma scalar_leaf_enode_flag_unset :
  ¬ ∃ r, encode_node sample_operators (Scalar 5) = inr r
         ∧ r !! 1 = Some 1%Z ∧ r !! 2 = Some 1%Z ∧ r !! 3 = Some 5%Z
         ∧ drop 4 r = replicate (length sample_operators) 0%Z.
Proof.
  intros (r & Hr & H1 & _).
  rewrite encode_scalar in Hr by done. injection Hr as <-. discriminate H1.
Qed.

(** C1 (amended): for every scalar leaf whose value fits a 64-bit integer,
    [encode_node] returns a row of the fixed width with is_eclass = 0,
    is_enode = 0, is_scalar = 1, every operator slot zero, and as
    scalar_value the float32 nearest to the leaf's value: the value itself
    up to 2^24 in magnitude, and within a relative error of 2^-24
    otherwise.  For a leaf outside the 64-bit range it raises. *)
Theorem encode_node_scalar_row (all_operators : list string) (v : Z) :
  if in_int64 v then
    ∃ r x, encode_node all_operators (Scalar v) = inr r
           ∧ length r = num_node_features all_operators
           ∧ r !! 0 = Some 0%Z ∧ r !! 1 = Some 0%Z
           ∧ r !! 2 = Some 1%Z ∧ r !! 3 = Some x
           ∧ x = float32_of_int v
           ∧ ((Z.abs v ≤ 2 ^ 24)%Z → x = v)
           ∧ (2 ^ 24 * Z.abs (x - v) ≤ Z.abs v)%Z
           ∧ drop 4 r = replicate (length all_operators) 0%Z
  else encode_node all_operators (Scalar v) = inl Overflow.
Proof.
  destruct (in_int64 v) eqn:Hv; [|by apply encode_scalar_overflow].
  eexists _, (float32_of_int v). split; [by apply encode_scalar|].
  split; [simpl; by rewrite length_replicate|].
  do 5 (split; [done|]). split; [apply float32_of_int_exact|].
  split; [apply float32_of_int_near|done].
Qed.

(** C9, as stated, fails on the value of a scalar leaf: the row holds the
    float32 of the operand, so that the leaf 16777217 = 2^24 + 1 comes back
    with the value 16777216. *)
Lemma scalar_value_is_rounded :
  representable sample_operators (Enode (Scalar 16777217) : node_kind unit)
  = true
  ∧ encode_kind sample_operators (Enode (Scalar 16777217) : node_kind unit)
      ≫= decode_node sample_operators
    = inr {| type := "enode"; is_scalar := true; value := 16777216;
             op := None |}
  ∧ ¬ ∀ k : node_kind unit,
        representable sample_operators k = true →
        encode_kind sample_operators k ≫= decode_node sample_operators
        = inr (classification k).
Proof.
  split; [by vm_compute|]. split; [by vm_compute|].
  intros H. specialize (H (Enode (Scalar 16777217)) ltac:(by vm_compute)).
  vm_compute in H. discriminate H.
Qed.

(** C9 (amended): decoding the encoded row of a representable node kind
    (an e-class, a scalar leaf within the 64-bit range, an operator node of
    the vocabulary) gives back its classification, "eclass" for an e-class,
    "enode" and the scalar flag for a scalar leaf, "enode" and the
    operator's name, found by arg-max over the one-hot segment, for an
    operator node, with the float32 nearest to the leaf's value as the
    value: the classification itself whenever the value is at most 2^24 in
    magnitude. *)
Theorem decode_encode_classification {data : Type}
    (all_operators : list string) (k : node_kind data) :
  representable all_operators k = true →
  ∃ d, encode_kind all_operators k ≫= decode_node all_operators = inr d
       ∧ type d = type (classification k)
       ∧ is_scalar d = is_scalar (classification k)
       ∧ op d = op (classification k)
       ∧ value d = float32_of_int (value (classification k))
       ∧ ((Z.abs (value (classification k)) ≤ 2 ^ 24)%Z →
          d = classification k).
Proof.
  destruct k as [eclass_id d|[v|cls children]]; intros Hk;
    cbn [representable known_operator] in Hk.
  - eexists. split; [reflexivity|]. done.
  - cbn [encode_kind]. rewrite encode_scalar by done.
    eexists. split.
    { cbn. destruct (Z.eqb_spec 1 0); done. }
    cbn [type is_scalar op value classification].
    do 4 (split; [done|]). intros Hv. by rewrite float32_of_int_exact.
  - apply bool_decide_eq_true in Hk.
    destruct (encode_opnode all_operators cls children Hk) as (i & Hi & Henc).
    cbn [encode_kind]. rewrite Henc.
    change (inr ?r ≫= decode_node all_operators)
      with (decode_node all_operators r).
    rewrite decode_enode_row.
    rewrite argmax_onehot by (by eapply lookup_lt_Some).
    cbv [mbind result_bind item of_option]. rewrite Hi.
    eexists. split; [reflexivity|]. done.
Qed.

Lemma decode_encode_classification_witness :
  representable sample_operators (Enode (Scalar 16) : node_kind unit) = true
  ∧ ∃ d, encode_kind sample_operators (Enode (Scalar 16) : node_kind unit)
           ≫= decode_node sample_operators = inr d
         ∧ value d = float32_of_int 16
         ∧ ((Z.abs 16 ≤ 2 ^ 24)%Z
            → d = classification (Enode (Scalar 16) : node_kind unit)).
Proof.
  split; [reflexivity|].
  destruct (decode_encode_classification sample_operators
              (Enode (Scalar 16) : node_kind unit) eq_refl)
    as (d & Hd & _ & _ & _ & Hv & Hc).
  exists d. split; [exact Hd|]. split; [exact Hv|exact Hc].
Defined.

(** C7: on a well-formed search state with E e-classes and N e-nodes,
    [encode_egraph] returns a graph whose feature matrix has E + N rows, each
    of width 4 + number of operator kinds (a function of the vocabulary
    alone); the first E rows are the e-class rows, in the order of the
    classes, and the N rows after them are the encoded e-nodes, in the order
    of the classes and of their nodes. *)
Theorem encode_egraph_rows {data : Type} (all_operators : list string)
    (classes : @eclasses data) :
  wf_egraph all_operators classes = true →
  ∃ g rows,
    encode_egraph all_operators classes = inr g
    ∧ length (x g) = length classes + length (enodes classes)
    ∧ Forall (λ r, length r = 4 + length all_operators) (x g)
    ∧ x g = ((λ c, encode_eclass all_operators c.1 c.2.1) <$> classes) ++ rows
    ∧ Forall2 (λ node r, encode_node all_operators node = inr r)
              (enodes classes) rows
    ∧ Forall (λ r, r !! 0 = Some 1%Z) (take (length classes) (x g))
    ∧ Forall (λ r, r !! 0 = Some 0%Z) (drop (length classes) (x g)).
Proof.
  intros Hwf.
  destruct (wf_egraph_unfold all_operators classes Hwf) as (Hk & _ & _).
  destruct (encode_egraph_run all_operators classes Hwf)
    as (st & rows & Hrun & Hnodes & Hrows & _).
  eexists _, rows. split; [exact Hrun|]. cbn [x]. rewrite Hnodes.
  assert (Hlen : length ((λ c : string * (data * list operator),
                            encode_eclass all_operators c.1 c.2.1) <$> classes)
                 = length classes) by apply length_fmap.
  assert (Hrow : Forall (λ r, length r = 4 + length all_operators
                              ∧ r !! 0 = Some 0%Z) rows).
  { clear Hnodes Hrun. induction Hrows as [|node r nodes rows Hr _ IH];
      [constructor|].
    apply Forall_cons_1 in Hk as [Hk Hks]. constructor; [|by apply IH].
    destruct (known_operator_encodes all_operators node Hk)
      as (r' & Hr' & Hw & H0).
    rewrite Hr in Hr'. by injection Hr' as <-. }
  split; [|split; [|split; [done|split; [done|split]]]].
  - rewrite length_app, Hlen. f_equal. symmetry. by eapply Forall2_length.
  - apply Forall_app. split.
    + apply Forall_fmap, Forall_forall. intros c _. unfold compose.
      rewrite encode_eclass_row. simpl. by rewrite length_replicate.
    + eapply List.Forall_impl; [|exact Hrow]. simpl. tauto.
  - rewrite take_app_length' by done.
    apply Forall_fmap, Forall_forall. by intros c _.
  - rewrite drop_app_length' by done.
    eapply List.Forall_impl; [|exact Hrow]. simpl. tauto.
Qed.

Lemma encode_egraph_rows_witness :
  wf_egraph sample_operators sample_egraph = true
  ∧ ∃ g, encode_egraph sample_operators sample_egraph = inr g
         ∧ length (x g) = 13.
Proof.
  split; [vm_compute; reflexivity|].
  destruct (encode_egraph_rows sample_operators sample_egraph
              ltac:(vm_compute; reflexivity))
    as (g & rows & Hg & Hlen & _).
  exists g. split; [exact Hg|exact Hlen].
Defined.




End LibFacts.

(** ** The training loop *)

Module PPOFacts.
Import PPO.

Local Open Scope nat_scope.

(** *** Elementwise reading of the tensor operations *)

Lemma at_env_lookup (v : vec) e : e < length v → v !! e = Some (at_env v e).
Proof.
  intros He. unfold at_env.
  destruct (lookup_lt_is_Some_2 v e He) as [q ->]. done.
Qed.

Lemma at_env_zip_with (f : Qc → Qc → Qc) (u v : vec) e :
  e < length u → e < length v →
  at_env (zip_with f u v) e = f (at_env u e) (at_env v e).
Proof.
  intros Hu Hv. unfold at_env at 1. rewrite lookup_zip_with.
  rewrite (at_env_lookup u e Hu), (at_env_lookup v e Hv). done.
Qed.

Lemma at_env_fmap (f : Qc → Qc) (v : vec) e :
  e < length v → at_env (f <$> v) e = f (at_env v e).
Proof.
  intros Hv. unfold at_env at 1.
  rewrite list_lookup_fmap, (at_env_lookup v e Hv). done.
Qed.

Lemma at_env_zeros n e : at_env (replicate n 0%Qc) e = 0%Qc.
Proof.
  unfold at_env. destruct (decide (e < n)) as [He|He].
  - by rewrite lookup_replicate_2.
  - rewrite lookup_ge_None_2; [done|]. rewrite length_replicate. lia.
Qed.

Lemma vec_ext (u v : vec) :
  length u = length v →
  (∀ e, e < length u → at_env u e = at_env v e) →
  u = v.
Proof.
  intros Hlen Hat. apply list_eq. intros e.
  destruct (decide (e < length u)) as [He|He].
  - rewrite (at_env_lookup u e He), (at_env_lookup v e) by lia.
    f_equal. by apply Hat.
  - rewrite !lookup_ge_None_2; [done|lia|lia].
Qed.

Lemma length_vadd u v : length (vadd u v) = length u `min` length v.
Proof. apply length_zip_with. Qed.
Lemma length_vsub u v : length (vsub u v) = length u `min` length v.
Proof. apply length_zip_with. Qed.
Lemma length_vmul u v : length (vmul u v) = length u `min` length v.
Proof. apply length_zip_with. Qed.
Lemma length_vscale c v : length (vscale c v) = length v.
Proof. apply length_fmap. Qed.

Lemma at_env_vadd u v e :
  e < length u → e < length v →
  at_env (vadd u v) e = (at_env u e + at_env v e)%Qc.
Proof. apply at_env_zip_with. Qed.
Lemma at_env_vsub u v e :
  e < length u → e < length v →
  at_env (vsub u v) e = (at_env u e - at_env v e)%Qc.
Proof. apply at_env_zip_with. Qed.
Lemma at_env_vmul u v e :
  e < length u → e < length v →
  at_env (vmul u v) e = (at_env u e * at_env v e)%Qc.
Proof. apply at_env_zip_with. Qed.
Lemma at_env_vscale c v e :
  e < length v → at_env (vscale c v) e = (c * at_env v e)%Qc.
Proof. apply at_env_fmap. Qed.

Lemma row_zip_with (f : vec → vec → vec) (m k : list vec) t :
  t < length m → t < length k →
  row (zip_with f m k) t = f (row m t) (row k t).
Proof.
  intros Hm Hk. unfold row. rewrite lookup_zip_with.
  destruct (lookup_lt_is_Some_2 m t Hm) as [u ->].
  destruct (lookup_lt_is_Some_2 k t Hk) as [v ->]. done.
Qed.

(** *** Advantages and returns *)

Section Advantage.

Variable a : args.
Variables rewards values dones : list vec.
Variables next_value next_done : vec.

Local Abbreviation T := (T a).
Local Abbreviation E := (E a).
Local Abbreviation nextnonterminal := (nextnonterminal a dones next_done).
Local Abbreviation nextvalues := (nextvalues a values next_value).
Local Abbreviation delta := (delta a rewards values dones next_value next_done).
Local Abbreviation gae_step := (gae_step a rewards values dones next_value next_done).
Local Abbreviation gae_body := (gae_body a rewards values dones next_value next_done).
Local Abbreviation lastgaelam_after :=
  (lastgaelam_after a rewards values dones next_value next_done).
Local Abbreviation plain_step := (plain_step a rewards dones next_done).
Local Abbreviation plain_body := (plain_body a rewards dones next_value next_done).
Local Abbreviation return_after := (return_after a rewards dones next_value next_done).

Lemma is_last_spec t : t < T → is_last a t = bool_decide (S t = T).
Proof.
  unfold is_last, PPO.T. intros Ht.
  destruct (Z.eqb_spec (Z.of_nat t) (num_steps (opts a) - 1)) as [Heq|Hne];
    symmetry; [apply bool_decide_eq_true|apply bool_decide_eq_false]; lia.
Qed.

Lemma steps_backwards_snoc n :
  S n ≤ T →
  reverse (seq (T - S n) (S n)) = reverse (seq (T - n) n) ++ [T - S n].
Proof.
  intros Hn. rewrite <- cons_seq, reverse_cons.
  by replace (S (T - S n)) with (T - n) by lia.
Qed.

(** The GAE loop after its first [n] passes: [lastgaelam] and the rows
    written so far. *)
Lemma gae_loop_prefix (adv0 : list vec) n :
  length adv0 = T → n ≤ T →
  let r := foldl gae_body (adv0, replicate E 0%Qc)
                 (reverse (seq (T - n) n)) in
  r.2 = lastgaelam_after n
  ∧ length r.1 = T
  ∧ (∀ t, T - n ≤ t < T → r.1 !! t = Some (lastgaelam_after (T - t)))
  ∧ (∀ t, t < T - n → r.1 !! t = adv0 !! t).
Proof.
  intros Hlen. induction n as [|n IH]; intros Hn.
  - simpl. split; [done|]. split; [done|]. split; [intros t ?; lia|done].
  - rewrite steps_backwards_snoc by done. rewrite foldl_snoc.
    destruct IH as (IH2 & IHlen & IHhi & IHlo); [lia|].
    set (r := foldl gae_body (adv0, replicate E 0%Qc)
                    (reverse (seq (T - n) n))) in *.
    unfold PPO.gae_body at 1. cbn [fst snd]. rewrite IH2.
    change (gae_step (T - S n) (lastgaelam_after n))
      with (lastgaelam_after (S n)).
    unfold record. split; [done|]. split; [by rewrite length_insert|].
    split.
    + intros t Ht. destruct (decide (t = T - S n)) as [->|Hne].
      * rewrite list_lookup_insert_eq by lia.
        by replace (T - (T - S n)) with (S n) by lia.
      * rewrite list_lookup_insert_ne by done. apply IHhi. lia.
    + intros t Ht. rewrite list_lookup_insert_ne by lia. apply IHlo. lia.
Qed.

Lemma length_zeros_like (m : list vec) : length (zeros_like m) = length m.
Proof. apply length_fmap. Qed.

Lemma gae_advantages_row t :
  length rewards = T → t < T →
  gae_advantages a rewards values dones next_value next_done !! t
  = Some (lastgaelam_after (T - t)).
Proof.
  intros Hlen Ht. unfold gae_advantages, steps_backwards.
  destruct (gae_loop_prefix (zeros_like rewards) T) as (_ & _ & Hhi & _);
    [by rewrite length_zeros_like|done|].
  rewrite Nat.sub_diag in Hhi. apply Hhi. lia.
Qed.

Lemma length_gae_advantages :
  length rewards = T →
  length (gae_advantages a rewards values dones next_value next_done) = T.
Proof.
  intros Hlen. unfold gae_advantages, steps_backwards.
  destruct (gae_loop_prefix (zeros_like rewards) T) as (_ & Hl & _ & _);
    [by rewrite length_zeros_like|done|].
  by rewrite Nat.sub_diag in Hl.
Qed.

(** The plain loop reads the next return back from the array. *)
Lemma plain_loop_prefix (ret0 : list vec) n :
  length ret0 = T → n ≤ T →
  let r := foldl plain_body ret0 (reverse (seq (T - n) n)) in
  length r = T
  ∧ (∀ t, T - n ≤ t < T → r !! t = Some (return_after (T - t)))
  ∧ (∀ t, t < T - n → r !! t = ret0 !! t).
Proof.
  intros Hlen. induction n as [|n IH]; intros Hn.
  - simpl. split; [done|]. split; [intros t ?; lia|done].
  - rewrite steps_backwards_snoc by done. rewrite foldl_snoc.
    destruct IH as (IHlen & IHhi & IHlo); [lia|].
    set (r := foldl plain_body ret0 (reverse (seq (T - n) n))) in *.
    unfold PPO.plain_body at 1.
    assert (Hnext : (if is_last a (T - S n) then next_value
                     else row r (T - S n + 1)) = return_after n).
    { rewrite is_last_spec by lia. case_bool_decide as Hl.
      - by replace n with 0 by lia.
      - unfold row. rewrite IHhi by lia.
        by replace (T - (T - S n + 1)) with n by lia. }
    rewrite Hnext.
    change (plain_step (T - S n) (return_after n)) with (return_after (S n)).
    unfold record. split; [by rewrite length_insert|]. split.
    + intros t Ht. destruct (decide (t = T - S n)) as [->|Hne].
      * rewrite list_lookup_insert_eq by lia.
        by replace (T - (T - S n)) with (S n) by lia.
      * rewrite list_lookup_insert_ne by done. apply IHhi. lia.
    + intros t Ht. rewrite list_lookup_insert_ne by lia. apply IHlo. lia.
Qed.

Lemma plain_returns_row t :
  length rewards = T → t < T →
  plain_returns a rewards dones next_value next_done !! t
  = Some (return_after (T - t)).
Proof.
  intros Hlen Ht. unfold plain_returns, steps_backwards.
  destruct (plain_loop_prefix (zeros_like rewards) T) as (_ & Hhi & _);
    [by rewrite length_zeros_like|done|].
  rewrite Nat.sub_diag in Hhi. apply Hhi. lia.
Qed.

Lemma length_plain_returns :
  length rewards = T →
  length (plain_returns a rewards dones next_value next_done) = T.
Proof.
  intros Hlen. unfold plain_returns, steps_backwards.
  destruct (plain_loop_prefix (zeros_like rewards) T) as (Hl & _ & _);
    [by rewrite length_zeros_like|done|].
  by rewrite Nat.sub_diag in Hl.
Qed.

(** *** Shapes *)

Lemma is_matrix_unfold (m : list vec) :
  is_matrix a m = true →
  length m = T ∧ ∀ t, t < T → length (row m t) = E.
Proof.
  unfold is_matrix. intros [Hl Hr]%andb_true_iff.
  apply Nat.eqb_eq in Hl. split; [done|]. intros t Ht. unfold row.
  destruct (lookup_lt_is_Some_2 m t) as [r Hr']; [lia|]. rewrite Hr'. simpl.
  rewrite List.forallb_forall in Hr. apply Nat.eqb_eq, Hr.
  apply list_elem_of_In, list_elem_of_lookup. eauto.
Qed.

Hypothesis shaped :
  well_shaped a rewards values dones next_value next_done = true.

Lemma shapes :
  (length rewards = T ∧ ∀ t, t < T → length (row rewards t) = E)
  ∧ (length values = T ∧ ∀ t, t < T → length (row values t) = E)
  ∧ (length dones = T ∧ ∀ t, t < T → length (row dones t) = E)
  ∧ length next_value = E ∧ length next_done = E.
Proof.
  pose proof shaped as H. unfold well_shaped in H.
  rewrite !andb_true_iff in H. destruct H as [[[[Hr Hv] Hd] Hnv] Hnd].
  apply Nat.eqb_eq in Hnv, Hnd.
  repeat split; try done; by apply is_matrix_unfold.
Qed.

Lemma length_nextnonterminal t : t < T → length (nextnonterminal t) = E.
Proof.
  intros Ht. destruct shapes as (_ & _ & [_ Hd] & _ & Hnd).
  unfold PPO.nextnonterminal. rewrite is_last_spec by done.
  case_bool_decide; rewrite length_fmap; [done|]. apply Hd. lia.
Qed.

Lemma length_nextvalues t : t < T → length (nextvalues t) = E.
Proof.
  intros Ht. destruct shapes as (_ & [_ Hv] & _ & Hnv & _).
  unfold PPO.nextvalues. rewrite is_last_spec by done.
  case_bool_decide; [done|]. apply Hv. lia.
Qed.

Lemma length_delta t : t < T → length (delta t) = E.
Proof.
  intros Ht. destruct shapes as ([_ Hr] & [_ Hv] & _).
  unfold PPO.delta.
  rewrite length_vsub, length_vadd, length_vmul, length_vscale.
  rewrite length_nextvalues, length_nextnonterminal, Hr, Hv by done. lia.
Qed.

Lemma length_lastgaelam_after n : n ≤ T → length (lastgaelam_after n) = E.
Proof.
  induction n as [|n IH]; intros Hn; simpl.
  - by rewrite length_replicate.
  - unfold PPO.gae_step.
    rewrite length_vadd, length_vmul, length_vscale.
    rewrite length_delta, length_nextnonterminal, IH by lia. lia.
Qed.

Lemma length_return_after n : n ≤ T → length (return_after n) = E.
Proof.
  destruct shapes as ([_ Hr] & _ & _ & Hnv & _).
  induction n as [|n IH]; intros Hn; simpl; [done|].
  unfold PPO.plain_step.
  rewrite length_vadd, length_vmul, length_vscale.
  rewrite length_nextnonterminal, IH, Hr by lia. lia.
Qed.

(** *** Entries *)

Lemma at_nextnonterminal t e :
  t < T → e < E →
  at_env (nextnonterminal t) e
  = (1 - (if bool_decide (S t = T) then at_env next_done e
          else entry dones (S t) e))%Qc.
Proof.
  intros Ht He. destruct shapes as (_ & _ & [_ Hd] & _ & Hnd).
  unfold PPO.nextnonterminal. rewrite is_last_spec by done.
  case_bool_decide.
  - by rewrite at_env_fmap by lia.
  - rewrite at_env_fmap by (rewrite Hd; lia).
    by replace (t + 1) with (S t) by lia.
Qed.

Lemma at_nextvalues t e :
  t < T →
  at_env (nextvalues t) e
  = if bool_decide (S t = T) then at_env next_value e
    else entry values (S t) e.
Proof.
  intros Ht. unfold PPO.nextvalues. rewrite is_last_spec by done.
  case_bool_decide; [done|]. by replace (t + 1) with (S t) by lia.
Qed.

Lemma at_delta t e :
  t < T → e < E →
  at_env (delta t) e
  = (entry rewards t e
     + gamma (opts a) * at_env (nextvalues t) e * at_env (nextnonterminal t) e
     - entry values t e)%Qc.
Proof.
  intros Ht He. destruct shapes as ([_ Hr] & [_ Hv] & _).
  unfold PPO.delta.
  rewrite at_env_vsub, at_env_vadd, at_env_vmul, at_env_vscale; first done;
    rewrite ?length_vadd, ?length_vmul, ?length_vscale,
            ?length_nextvalues, ?length_nextnonterminal, ?Hr, ?Hv; lia.
Qed.

Lemma at_lastgaelam_after n e :
  S n ≤ T → e < E →
  at_env (lastgaelam_after (S n)) e
  = (at_env (delta (T - S n)) e
     + gamma (opts a) * gae_lambda (opts a)
       * at_env (nextnonterminal (T - S n)) e
       * at_env (lastgaelam_after n) e)%Qc.
Proof.
  intros Hn He. cbn [PPO.lastgaelam_after]. unfold PPO.gae_step.
  rewrite at_env_vadd, at_env_vmul, at_env_vscale; first done;
    rewrite ?length_vmul, ?length_vscale, ?length_delta,
            ?length_nextnonterminal, ?length_lastgaelam_after; lia.
Qed.

Lemma at_return_after n e :
  S n ≤ T → e < E →
  at_env (return_after (S n)) e
  = (entry rewards (T - S n) e
     + gamma (opts a) * at_env (nextnonterminal (T - S n)) e
       * at_env (return_after n) e)%Qc.
Proof.
  intros Hn He. destruct shapes as ([_ Hr] & _).
  cbn [PPO.return_after]. unfold PPO.plain_step.
  rewrite at_env_vadd, at_env_vmul, at_env_vscale; first done;
    rewrite ?length_vmul, ?length_vscale, ?length_nextnonterminal,
            ?length_return_after, ?Hr; lia.
Qed.

(** The advantage that the GAE loop leaves at [(t, e)]. *)
Lemma gae_advantages_entry t e :
  t < T → e < E →
  let advantages :=
    gae_advantages a rewards values dones next_value next_done in
  entry advantages t e
  = (at_env (delta t) e
     + gamma (opts a) * gae_lambda (opts a)
       * at_env (nextnonterminal t) e
       * (if bool_decide (S t = T) then 0 else entry advantages (S t) e))%Qc.
Proof.
  intros Ht He advantages. destruct shapes as ([Hr _] & _).
  unfold entry, row, advantages.
  rewrite gae_advantages_row by done. simpl.
  replace (T - t) with (S (T - S t)) by lia.
  rewrite at_lastgaelam_after by lia.
  replace (T - S (T - S t)) with t by lia.
  do 2 f_equal. case_bool_decide as Hl.
  - replace (T - S t) with 0 by lia. apply at_env_zeros.
  - rewrite gae_advantages_row by (done || lia). done.
Qed.

End Advantage.

(** C5: with GAE enabled, at every step t < T and every environment e the
    advantage is delta_t + gamma * lambda * nonterminal_t * advantage_{t+1},
    with advantage_T = 0 and delta_t = reward_t + gamma * next_v_t *
    nonterminal_t - value_t, where nonterminal_t and next_v_t come from
    dones[t+1] and values[t+1], or from next_done and next_value at the last
    step; and the return is advantage_t + value_t. *)
Theorem gae_recursion (a : args) (rewards values dones : list vec)
    (next_value next_done : vec) (t e : nat) :
  gae (opts a) = true →
  well_shaped a rewards values dones next_value next_done = true →
  t < T a → e < E a →
  let advantages :=
    (advantages_returns a rewards values dones next_value next_done).1 in
  let returns :=
    (advantages_returns a rewards values dones next_value next_done).2 in
  let last := bool_decide (S t = T a) in
  let nonterminal :=
    (1 - (if last then at_env next_done e else entry dones (S t) e))%Qc in
  let next_v := if last then at_env next_value e else entry values (S t) e in
  let next_advantage := if last then 0%Qc else entry advantages (S t) e in
  let delta_t :=
    (entry rewards t e + gamma (opts a) * next_v * nonterminal
     - entry values t e)%Qc in
  entry advantages t e
  = (delta_t
     + gamma (opts a) * gae_lambda (opts a) * nonterminal * next_advantage)%Qc
  ∧ entry returns t e = (entry advantages t e + entry values t e)%Qc.
Proof.
  intros Hgae Hshape Ht He. unfold advantages_returns. rewrite Hgae.
  cbn [fst snd]. cbv zeta.
  pose proof (shapes a rewards values dones next_value next_done Hshape)
    as ([Hr _] & [Hv Hvr] & _).
  split.
  - rewrite (gae_advantages_entry a rewards values dones next_value next_done
               Hshape t e Ht He).
    rewrite (at_delta a rewards values dones next_value next_done Hshape)
      by done.
    rewrite (at_nextnonterminal a rewards values dones next_value next_done
               Hshape) by done.
    rewrite at_nextvalues by done. done.
  - unfold gae_returns, entry.
    rewrite row_zip_with by (rewrite ?length_gae_advantages; lia).
    apply at_env_vadd; [|by rewrite Hvr].
    unfold row. rewrite gae_advantages_row by done. simpl.
    rewrite (length_lastgaelam_after a rewards values dones next_value
               next_done Hshape); lia.
Qed.

Lemma gae_recursion_witness :
  gae (opts scenario) = true
  ∧ well_shaped scenario scenario_rewards scenario_zeros scenario_zeros
                [0%Qc] [0%Qc] = true
  ∧ 2 < T scenario ∧ 0 < E scenario
  ∧ entry (advantages_returns scenario scenario_rewards scenario_zeros
             scenario_zeros [0%Qc] [0%Qc]).2 2 0
    = (entry (advantages_returns scenario scenario_rewards scenario_zeros
                scenario_zeros [0%Qc] [0%Qc]).1 2 0
       + entry scenario_zeros 2 0)%Qc.
Proof.
  assert (H2 : 2 < T scenario) by (vm_compute; lia).
  assert (H0 : 0 < E scenario) by (vm_compute; lia).
  split; [reflexivity|]. split; [reflexivity|]. split; [exact H2|].
  split; [exact H0|].
  exact (proj2 (gae_recursion scenario scenario_rewards scenario_zeros
                  scenario_zeros [0%Qc] [0%Qc] 2 0 eq_refl eq_refl H2 H0)).
Defined.

(** With lambda = 1 the GAE register plus the value is the plain return. *)
Lemma lastgaelam_plus_value (a : args) (rewards values dones : list vec)
    (next_value next_done : vec) :
  well_shaped a rewards values dones next_value next_done = true →
  ∀ n e, 1 ≤ n ≤ T a → e < E a →
    (at_env (lastgaelam_after (with_gae_lambda a 1) rewards values dones
               next_value next_done n) e
     + entry values (T a - n) e)%Qc
    = at_env (return_after a rewards dones next_value next_done n) e.
Proof.
  intros Hshape.
  assert (Hshape1 : well_shaped (with_gae_lambda a 1) rewards values dones
                                next_value next_done = true) by exact Hshape.
  induction n as [|m IH]; intros e Hn He; [lia|].
  rewrite (at_lastgaelam_after _ _ _ _ _ _ Hshape1) by (exact He || apply Hn).
  rewrite (at_delta _ _ _ _ _ _ Hshape1) by (exact He || (change (T (with_gae_lambda a 1)) with (T a); lia)).
  rewrite (at_return_after _ _ _ _ _ _ Hshape) by (exact He || apply Hn).
  rewrite at_nextvalues by (change (T (with_gae_lambda a 1)) with (T a); lia).
  change (T (with_gae_lambda a 1)) with (T a).
  change (gamma (opts (with_gae_lambda a 1))) with (gamma (opts a)).
  change (gae_lambda (opts (with_gae_lambda a 1))) with 1%Qc.
  change (nextnonterminal (with_gae_lambda a 1)) with (nextnonterminal a).
  destruct m as [|m].
  - rewrite bool_decide_eq_true_2 by lia. simpl.
    rewrite at_env_zeros. ring.
  - rewrite bool_decide_eq_false_2 by lia.
    rewrite <- (IH e) by lia.
    replace (T a - S m) with (S (T a - S (S m))) by lia. ring.
Qed.

(** The loops with the arithmetic as a parameter are, at the rationals,
    the loops of [PPO]. *)
Lemma rounded_at_rationals (a : args) (rewards values dones : list vec)
    (next_value next_done : vec) :
  Rounded.gae_advantages 0%Qc 1%Qc Qcplus Qcminus Qcmult
    (num_steps (opts a)) (num_envs (opts a)) (gamma (opts a))
    (gae_lambda (opts a)) rewards values dones next_value next_done
  = gae_advantages a rewards values dones next_value next_done
  ∧ Rounded.gae_returns 0%Qc 1%Qc Qcplus Qcminus Qcmult
      (num_steps (opts a)) (num_envs (opts a)) (gamma (opts a))
      (gae_lambda (opts a)) rewards values dones next_value next_done
    = gae_returns a rewards values dones next_value next_done
  ∧ Rounded.plain_returns 0%Qc 1%Qc Qcplus Qcminus Qcmult
      (num_steps (opts a)) (gamma (opts a)) rewards dones next_value
      next_done
    = plain_returns a rewards dones next_value next_done
  ∧ Rounded.plain_advantages 0%Qc 1%Qc Qcplus Qcminus Qcmult
      (num_steps (opts a)) (gamma (opts a)) rewards values dones next_value
      next_done
    = plain_advantages a rewards values dones next_value next_done.
Proof. repeat split; reflexivity. Qed.

(** Over the rationals, that is, if no operation rounded, the GAE branch
    run with lambda = 1 would yield the returns of the plain branch. *)
Lemma gae_lambda_one_exact (a : args) (rewards values dones : list vec)
    (next_value next_done : vec) :
  well_shaped a rewards values dones next_value next_done = true →
  gae_returns (with_gae_lambda a 1) rewards values dones next_value next_done
  = plain_returns a rewards dones next_value next_done.
Proof.
  intros Hshape.
  pose proof (shapes a rewards values dones next_value next_done Hshape)
    as ([Hr Hrr] & [Hv Hvr] & _).
  apply list_eq. intros t. unfold gae_returns.
  destruct (decide (t < T a)) as [Ht|Ht].
  - rewrite lookup_zip_with.
    rewrite (gae_advantages_row (with_gae_lambda a 1)) by done.
    change (T (with_gae_lambda a 1)) with (T a).
    rewrite plain_returns_row by done.
    destruct (lookup_lt_is_Some_2 values t) as [v Hvt]; [lia|].
    rewrite Hvt. simpl. f_equal.
    assert (Hlv : length v = E a).
    { specialize (Hvr t Ht). unfold row in Hvr. by rewrite Hvt in Hvr. }
    assert (Hl1 : length (lastgaelam_after (with_gae_lambda a 1) rewards
                            values dones next_value next_done (T a - t))
                  = E a).
    { apply (length_lastgaelam_after (with_gae_lambda a 1) rewards values
               dones next_value next_done Hshape).
      change (T (with_gae_lambda a 1)) with (T a). lia. }
    apply vec_ext.
    + rewrite length_vadd, Hl1, Hlv.
      rewrite (length_return_after a rewards values dones next_value
                 next_done Hshape) by lia. lia.
    + intros e He. rewrite length_vadd, Hl1, Hlv in He.
      rewrite at_env_vadd by lia.
      rewrite <- (lastgaelam_plus_value a rewards values dones next_value
                    next_done Hshape) by lia.
      replace (T a - (T a - t)) with t by lia.
      unfold entry, row. by rewrite Hvt.
  - rewrite !lookup_ge_None_2; [done| |].
    + rewrite length_plain_returns by done. lia.
    + rewrite length_zip_with.
      rewrite (length_gae_advantages (with_gae_lambda a 1)) by done.
      change (T (with_gae_lambda a 1)) with (T a). lia.
Qed.




(** *** Start-up *)

(** C3, as stated, fails: with the default 4 environments and 128 steps and
    3 minibatches, the batch of 512 is not divisible, yet the start-up
    returns the arguments with a minibatch size of 170 and 195 rollouts to
    run, and each epoch then has four minibatches, the last one short. *)
Lemma indivisible_batch_is_accepted :
  ((num_envs three_minibatches * num_steps three_minibatches)
   mod num_minibatches three_minibatches ≠ 0)%Z
  ∧ startup three_minibatches
    = inr ({| opts := three_minibatches; batch_size := 512;
              minibatch_size := 170 |}, 195%Z)
  ∧ py_range 0 512 170 = inr [0; 170; 340; 510]%Z.
Proof. split; [by vm_compute|]. split; reflexivity. Qed.

(** C3 (amended): [parse_args] makes no divisibility check.  It fails only
    when num_minibatches is 0, with a division by zero; otherwise it returns
    the batch size num_envs * num_steps and the minibatch size
    floor(batch_size / num_minibatches), divisible or not. *)
Theorem parse_args_floor_division (c : cli) :
  parse_args c
  = if (num_minibatches c =? 0)%Z then inl ZeroDivisionError
    else inr {| opts := c;
                batch_size := num_envs c * num_steps c;
                minibatch_size :=
                  (num_envs c * num_steps c) `div` num_minibatches c |}.
Proof.
  unfold parse_args, floordiv. by destruct (num_minibatches c =? 0)%Z.
Qed.

(** *** Policy update *)

Section Update.

Context {obs policy rng : Type}.
Variable shuffle : rng → list Z → list Z * rng.
Variable get_action_and_value : policy → list obs → list Z → vec * vec * vec.
Variable optimizer_step : policy → minibatch obs → policy.
Variable exp : Qc → Qc.
Variable std : vec → Qc.
Variable a : args.
Variable b : batch obs.

Local Abbreviation select := (select std a b).
Local Abbreviation forward := (forward get_action_and_value exp a).
Local Abbreviation minibatch_body :=
  (minibatch_body (rng:=rng) get_action_and_value optimizer_step exp std a b).
Local Abbreviation minibatch_loop :=
  (minibatch_loop (rng:=rng) get_action_and_value optimizer_step exp std a b).
Local Abbreviation epoch_body :=
  (epoch_body shuffle get_action_and_value optimizer_step exp std a b).
Local Abbreviation epochs :=
  (epochs shuffle get_action_and_value optimizer_step exp std a b).

Lemma minibatch_body_inr (st st' : @ustate obs policy rng) start :
  minibatch_body st start = inr st' →
  ∃ mb,
    select (py_slice (b_inds st) start (start + minibatch_size a)) = inr mb
    ∧ st' = {| agent := optimizer_step (agent st) mb;
               b_inds := b_inds st; gen := gen st;
               last := Some (forward (agent st) mb);
               applied := applied st ++ [mb] |}.
Proof.
  unfold PPO.minibatch_body. intros H.
  destruct (select (py_slice (b_inds st) start (start + minibatch_size a)))
    as [e|mb]; [discriminate H|].
  injection H as <-. by exists mb.
Qed.

(** The inner loop steps every minibatch of its range, in order. *)
Lemma minibatch_loop_applied (starts : list Z) :
  ∀ st st' : @ustate obs policy rng,
  minibatch_loop st starts = inr st' →
  b_inds st' = b_inds st
  ∧ ∃ mbs,
      Forall2 (λ start mb,
                 select (py_slice (b_inds st) start
                                  (start + minibatch_size a)) = inr mb)
              starts mbs
      ∧ applied st' = applied st ++ mbs.
Proof.
  induction starts as [|start starts IH]; intros st st' Hrun.
  - injection Hrun as <-. split; [done|]. exists [].
    split; [constructor|by rewrite app_nil_r].
  - cbn [PPO.minibatch_loop] in Hrun.
    destruct (minibatch_body st start) as [e|st1] eqn:Hbody;
      [discriminate Hrun|].
    cbv [mbind result_bind] in Hrun.
    apply minibatch_body_inr in Hbody as (mb & Hsel & ->).
    apply IH in Hrun as (Hinds & mbs & Hall & Happ). cbn in Hinds, Hall, Happ.
    split; [done|]. exists (mb :: mbs).
    split; [by constructor|]. rewrite Happ. by rewrite <- app_assoc.
Qed.

(** What the last pass of the inner loop leaves in [approx_kl] and the
    other scalars. *)
Lemma minibatch_loop_last (starts : list Z) start :
  ∀ st st' : @ustate obs policy rng,
  minibatch_loop st (starts ++ [start]) = inr st' →
  ∃ agent_prev mb,
    select (py_slice (b_inds st) start (start + minibatch_size a)) = inr mb
    ∧ last st' = Some (forward agent_prev mb).
Proof.
  induction starts as [|s0 starts IH]; intros st st' Hrun.
  - cbn [app PPO.minibatch_loop] in Hrun.
    destruct (minibatch_body st start) as [e|st1] eqn:Hbody;
      [discriminate Hrun|].
    injection Hrun as <-.
    apply minibatch_body_inr in Hbody as (mb & Hsel & ->).
    by exists (agent st), mb.
  - cbn [app PPO.minibatch_loop] in Hrun.
    destruct (minibatch_body st s0) as [e|st1] eqn:Hbody;
      [discriminate Hrun|].
    cbv [mbind result_bind] in Hrun.
    apply minibatch_body_inr in Hbody as (mb0 & _ & ->).
    by apply IH in Hrun.
Qed.

Lemma zip_with_zip_with {A B C D F} (h : C → D → F) (f : A → B → C)
    (g : A → B → D) (l : list A) : ∀ k : list B,
  zip_with h (zip_with f l k) (zip_with g l k)
  = zip_with (λ p q, h (f p q) (g p q)) l k.
Proof.
  induction l as [|p l IH]; intros [|q k]; simpl; [done..|].
  by rewrite IH.
Qed.

(** C4 (amended): when a target KL is configured, the approximate KL is
    compared with it once per epoch, after the inner loop: every minibatch
    of the epoch's range receives its gradient step, whatever the KL of the
    earlier ones; the value compared is the one computed in the last
    minibatch of the epoch; if it exceeds the target the remaining epochs
    are skipped, and otherwise the next epoch runs. *)
Theorem kl_checked_at_epoch_end (n : nat) (st st1 : @ustate obs policy rng)
    (target : Qc) (l : losses) :
  target_kl (opts a) = Some target →
  epoch_body st = inr st1 →
  last st1 = Some l →
  (∃ starts mbs,
     py_range 0 (batch_size a) (minibatch_size a) = inr starts
     ∧ Forall2 (λ start mb,
                  select (py_slice (b_inds st1) start
                                   (start + minibatch_size a)) = inr mb)
               starts mbs
     ∧ applied st1 = applied st ++ mbs
     ∧ (starts = []
        ∨ ∃ agent_prev mbs' mb,
            mbs = mbs' ++ [mb] ∧ l = forward agent_prev mb))
  ∧ epochs (S n) st
    = if bool_decide (target < approx_kl l)%Qc then inr st1
      else epochs n st1.
Proof.
  intros Htarget Hepoch Hlast. split.
  - unfold PPO.epoch_body in Hepoch.
    destruct (shuffle (gen st) (b_inds st)) as [inds g].
    destruct (py_range 0 (batch_size a) (minibatch_size a))
      as [e|starts]; [discriminate Hepoch|].
    cbv [mbind result_bind] in Hepoch.
    pose proof (minibatch_loop_applied _ _ _ Hepoch)
      as (Hinds & mbs & Hall & Happ).
    cbn in Hinds, Hall, Happ. rewrite <- Hinds in Hall.
    exists starts, mbs. split; [done|]. split; [done|]. split; [done|].
    destruct starts as [|start starts _] using rev_ind; [by left|].
    right.
    apply minibatch_loop_last in Hepoch as (agent_prev & mb & Hsel & Hl).
    cbn in Hsel. rewrite <- Hinds in Hsel.
    apply Forall2_app_inv_l in Hall as (mbs1 & mbs2 & _ & Hlast2 & ->).
    apply Forall2_cons_inv_l in Hlast2 as (mb' & mbs3 & Hsel' & Hnil & ->).
    apply Forall2_nil_inv_l in Hnil as ->.
    rewrite Hsel in Hsel'. injection Hsel' as <-.
    exists agent_prev, mbs1, mb. split; [done|].
    rewrite Hl in Hlast. by injection Hlast.
  - cbn [PPO.epochs]. rewrite Hepoch.
    cbv [mbind result_bind]. unfold kl_break. rewrite Htarget, Hlast.
    cbv [of_option mret result_ret mbind result_bind].
    by case_bool_decide.
Qed.

(** C10: with advantage normalization enabled, as it is by default, the
    advantages that enter the policy loss of a minibatch are the
    standardized ones, each raw advantage minus the minibatch mean,
    divided by the minibatch standard deviation plus 1e-8, and the policy
    loss is the mean of the clipped surrogate terms formed from them. *)
Theorem policy_loss_on_standardized_advantages (agent : policy)
    (mb_inds : list Z) (raw : vec) (mb : minibatch obs) :
  norm_adv (opts a) = true →
  gather (b_advantages b) mb_inds = inr raw →
  select mb_inds = inr mb →
  let adv := (λ p, (p - mean raw) / (std raw + eps))%Qc <$> raw in
  let ratio :=
    exp <$> vsub (get_action_and_value agent (mb_obs mb) (mb_actions mb)).1.1
                 (mb_logprobs mb) in
  norm_adv defaults = true
  ∧ mb_advantages mb = adv
  ∧ pg_loss (forward agent mb)
    = mean (zip_with
              (λ p r, qmax (- p * r)
                           (- p * qmin (qmax r (1 - clip_coef (opts a)))
                                       (1 + clip_coef (opts a))))%Qc
              adv ratio).
Proof.
  intros Hnorm Hraw Hsel adv ratio. split; [done|].
  assert (Hadv : mb_advantages mb = adv).
  { unfold PPO.select in Hsel. rewrite Hraw, Hnorm in Hsel.
    destruct (gather (b_obs b) mb_inds); [discriminate Hsel|].
    destruct (gather (b_actions b) mb_inds); [discriminate Hsel|].
    destruct (gather (b_logprobs b) mb_inds); [discriminate Hsel|].
    destruct (gather (b_returns b) mb_inds); [discriminate Hsel|].
    destruct (gather (b_values b) mb_inds); [discriminate Hsel|].
    injection Hsel as <-. cbn [mb_advantages].
    unfold normalize. rewrite <- list_fmap_compose. done. }
  split; [done|].
  unfold PPO.forward. subst ratio.
  destruct (get_action_and_value agent (mb_obs mb) (mb_actions mb))
    as [[newlogprob entropy] newvalue].
  cbn [pg_loss fst]. unfold policy_loss. rewrite Hadv.
  unfold vmax, vmul, vneg, clamp.
  rewrite !zip_with_fmap_l, !zip_with_fmap_r, zip_with_zip_with. done.
Qed.

End Update.

(** C4, as stated, fails: on the small learner the approximate KL computed
    in the first minibatch of the first epoch is 1/2, above the target of
    1/4, and the update still applies all four gradient steps of its two
    epochs. *)
Lemma kl_exceeded_then_three_more_steps :
  (∃ mb, select small_std small_args small_batch (py_slice [0; 1]%Z 0 1)
         = inr mb
         ∧ (Q2Qc (1 # 4)
            < approx_kl (forward small_agent small_exp small_args O mb))%Qc)
  ∧ ∃ st, update small_shuffle small_agent small_step small_exp small_std
                 small_args small_batch small_start = inr st
          ∧ length (applied st) = 4.
Proof.
  split.
  - eexists. split; [vm_compute; reflexivity|]. by vm_compute.
  - eexists. split; [vm_compute; reflexivity|]. reflexivity.
Qed.

Lemma kl_checked_at_epoch_end_witness :
  ∃ st1 l,
    target_kl (opts small_args) = Some (Q2Qc (1 # 4))
    ∧ epoch_body small_shuffle small_agent small_step small_exp small_std
                 small_args small_batch small_start = inr st1
    ∧ last st1 = Some l
    ∧ epochs small_shuffle small_agent small_step small_exp small_std
             small_args small_batch 1 small_start
      = if bool_decide (Q2Qc (1 # 4) < approx_kl l)%Qc then inr st1
        else epochs small_shuffle small_agent small_step small_exp small_std
                    small_args small_batch 0 st1.
Proof.
  assert (He : ∃ st1, epoch_body small_shuffle small_agent small_step
                        small_exp small_std small_args small_batch
                        small_start = inr st1 ∧ is_Some (last st1)).
  { vm_compute. eexists. split; [reflexivity|]. by eexists. }
  destruct He as (st1 & He & [l Hl]).
  exists st1, l. split; [reflexivity|]. split; [exact He|]. split; [exact Hl|].
  exact (proj2 (kl_checked_at_epoch_end small_shuffle small_agent small_step
                  small_exp small_std small_args small_batch 0 small_start st1
                  (Q2Qc (1 # 4)) l eq_refl He Hl)).
Defined.

Lemma policy_loss_on_standardized_advantages_witness :
  ∃ mb,
    norm_adv (opts small_args) = true
    ∧ gather (b_advantages small_batch) [0; 1]%Z = inr [1; Q2Qc 3]%Qc
    ∧ select small_std small_args small_batch [0; 1]%Z = inr mb
    ∧ mb_advantages mb
      = (λ p, (p - mean [1; Q2Qc 3]) / (small_std [1; Q2Qc 3] + eps))%Qc
        <$> [1; Q2Qc 3]%Qc.
Proof.
  assert (Hs : ∃ mb, select small_std small_args small_batch [0; 1]%Z
                     = inr mb).
  { vm_compute. by eexists. }
  destruct Hs as [mb Hs]. exists mb.
  split; [reflexivity|]. split; [reflexivity|]. split; [exact Hs|].
  exact (proj1 (proj2 (policy_loss_on_standardized_advantages small_agent
                         small_exp small_std small_args small_batch O
                         [0; 1]%Z [1; Q2Qc 3]%Qc mb eq_refl eq_refl Hs))).
Defined.

(** *** Episode slices *)

Lemma mod_eq N k q p : p < N → k = N * q + p → k mod N = p.
Proof. intros Hp Hk. symmetry. by eapply Nat.mod_unique. Qed.

Lemma py_slice_nat {A} (l : list A) lo hi :
  lo ≤ hi ≤ length l →
  py_slice l (Z.of_nat lo) (Z.of_nat hi) = take (hi - lo) (drop lo l).
Proof.
  intros H. unfold py_slice, slice_index.
  destruct (Z.ltb_spec (Z.of_nat lo) 0); [lia|].
  destruct (Z.ltb_spec (Z.of_nat hi) 0); [lia|].
  rewrite !Z.min_l by lia. f_equal; [lia|]. f_equal. lia.
Qed.

Lemma py_slice_from_nat {A} (l : list A) lo :
  lo ≤ length l → py_slice_from l (Z.of_nat lo) = drop lo l.
Proof.
  intros H. unfold py_slice_from, slice_index.
  destruct (Z.ltb_spec (Z.of_nat lo) 0); [lia|].
  rewrite Z.min_l by lia. f_equal. lia.
Qed.

Lemma take_drop_tabulate {A} (l : list A) (f : nat → A) p k0 n :
  p + n ≤ length l →
  (∀ i, i < n → l !! (p + i) = Some (f (k0 + i))) →
  take n (drop p l) = f <$> seq k0 n.
Proof.
  intros Hlen Hl. apply list_eq. intros i.
  destruct (decide (i < n)) as [Hi|Hi].
  - rewrite lookup_take_lt, lookup_drop by done. rewrite Hl by done.
    by rewrite list_lookup_fmap, lookup_seq_lt.
  - rewrite !lookup_ge_None_2; [done| |].
    + rewrite length_fmap, length_seq. lia.
    + rewrite length_take, length_drop. lia.
Qed.

Lemma column_tabulate {A} (h : nat → list A) (f : nat → A) env_ind n :
  (∀ k, h k !! env_ind = Some (f k)) →
  ∀ k0, column env_ind (h <$> seq k0 n) = inr (f <$> seq k0 n).
Proof.
  intros Hh. induction n as [|n IH]; intros k0; [done|].
  simpl. unfold item. rewrite Hh. simpl. by rewrite IH.
Qed.

Lemma names_of_tabulate (action_names : list string) (act : nat → Z)
    (name : nat → string) n :
  (∀ k, py_item action_names (act k) = inr (name k)) →
  ∀ k0, names_of action_names (act <$> seq k0 n) = inr (name <$> seq k0 n).
Proof.
  intros Hn. induction n as [|n IH]; intros k0; [done|].
  simpl. rewrite Hn. simpl. by rewrite IH.
Qed.

Section Buffer.

Context {A : Type}.
Variable N : nat.
Variable zero : A.
Variable h : nat → A.
Hypothesis N_pos : 0 < N.

Lemma length_buffer_after g : length (buffer_after N zero h g) = N.
Proof.
  induction g as [|g IH]; simpl.
  - apply length_replicate.
  - unfold record. by rewrite length_insert.
Qed.

(** A slot holds what the latest step that maps to it has written. *)
Lemma buffer_recent g : ∀ k,
  k < g → g - k ≤ N → buffer_after N zero h g !! (k mod N) = Some (h k).
Proof.
  induction g as [|g IH]; intros k Hk HN; [lia|].
  simpl. unfold record.
  assert (Hg : g mod N < N) by (apply Nat.mod_upper_bound; lia).
  destruct (decide (k = g)) as [->|Hne].
  - apply list_lookup_insert_eq. by rewrite length_buffer_after.
  - rewrite list_lookup_insert_ne; [apply IH; lia|].
    intros Heq.
    pose proof (Nat.div_mod_eq g N) as Hdg.
    pose proof (Nat.div_mod_eq k N) as Hdk.
    rewrite Heq in Hdg.
    assert (Hq : k / N < g / N).
    { apply Nat.nle_gt. intros Hle.
      pose proof (Nat.mul_le_mono_l _ _ N Hle). lia. }
    pose proof (Nat.mul_le_mono_l _ _ N Hq) as Hm.
    rewrite Nat.mul_succ_r in Hm. lia.
Qed.

(** The slice of an episode that fits the buffer. *)
Lemma episode_slice_recent (g L : nat) :
  1 ≤ L ≤ N → L ≤ S g →
  let buf := buffer_after N zero h (S g) in
  let s := g mod N in
  (if decide (L ≤ S s) then take L (drop (S s - L) buf)
   else drop (N + S s - L) buf ++ take (S s) buf)
  = h <$> seq (S g - L) L.
Proof.
  intros HL Hg buf s.
  assert (Hs : s < N) by (apply Nat.mod_upper_bound; lia).
  pose proof (Nat.div_mod_eq g N) as Hdiv. fold s in Hdiv.
  assert (Hlen : length buf = N) by apply length_buffer_after.
  assert (Hslot : ∀ k p q, p < N → k = N * q + p → k < S g → S g - k ≤ N →
                           buf !! p = Some (h k)).
  { intros k p q Hp Hk Hlt Hle.
    rewrite <- (mod_eq N k q p Hp Hk). by apply buffer_recent. }
  case_decide as Hcase.
  - apply take_drop_tabulate; [lia|]. intros i Hi.
    apply (Hslot _ _ (g / N)); lia.
  - assert (Hq : 1 ≤ g / N).
    { destruct (g / N); [lia|lia]. }
    replace L with ((L - S s) + S s) at 3 by lia.
    rewrite seq_app, fmap_app. f_equal.
    + rewrite <- (take_ge (drop (N + S s - L) buf) (L - S s))
        by (rewrite length_drop; lia).
      apply take_drop_tabulate; [lia|]. intros i Hi.
      apply (Hslot _ _ (g / N - 1)); [lia| |lia|lia].
      rewrite Nat.mul_sub_distr_l. nia.
    + rewrite <- (drop_0 buf) at 1.
      apply take_drop_tabulate; [lia|]. intros i Hi.
      apply (Hslot _ _ (g / N)); lia.
Qed.

End Buffer.

Lemma episode_slice_chronological {A} (N : nat) (z : list A)
    (h : nat → list A) (f : nat → A) (env_ind g L : nat) :
  (∀ k, h k !! env_ind = Some (f k)) →
  1 ≤ L ≤ N → L ≤ S g →
  episode_slice (Z.of_nat N) (Z.of_nat (g mod N)) (Z.of_nat L) env_ind
                (buffer_after N z h (S g))
  = inr (f <$> seq (S g - L) L).
Proof.
  intros Hh HL Hg.
  assert (HN : 0 < N) by lia.
  assert (Hs : g mod N < N) by (apply Nat.mod_upper_bound; lia).
  pose proof (episode_slice_recent N z h HN g L HL Hg) as Hslice.
  cbv zeta in Hslice.
  pose proof (length_buffer_after N z h (S g)) as Hlen.
  unfold episode_slice.
  destruct (Z.ltb_spec (Z.of_nat (g mod N) + 1 - Z.of_nat L) 0) as [Hneg|Hpos].
  - rewrite decide_False in Hslice by lia.
    replace (Z.of_nat N + (Z.of_nat (g mod N) + 1 - Z.of_nat L))%Z
      with (Z.of_nat (N + S (g mod N) - L)) by lia.
    replace (Z.of_nat (g mod N) + 1)%Z with (Z.of_nat (S (g mod N))) by lia.
    rewrite py_slice_from_nat by lia.
    change 0%Z with (Z.of_nat 0). rewrite py_slice_nat by lia.
    rewrite Nat.sub_0_r, drop_0.
    assert (Hcol : column env_ind
                     (drop (N + S (g mod N) - L) (buffer_after N z h (S g))
                      ++ take (S (g mod N)) (buffer_after N z h (S g)))
                   = inr (f <$> seq (S g - L) L)).
    { rewrite Hslice. by apply column_tabulate. }
    revert Hcol. generalize (f <$> seq (S g - L) L).
    generalize (take (S (g mod N)) (buffer_after N z h (S g))).
    generalize (drop (N + S (g mod N) - L) (buffer_after N z h (S g))).
    intros tl. induction tl as [|r tl IH]; intros hd res Hcol.
    + simpl in *. rewrite Hcol. done.
    + simpl in *. destruct (item r env_ind) as [e|x]; [done|]. simpl in *.
      destruct (column env_ind (tl ++ hd)) as [e|col] eqn:Hc; [done|].
      simpl in Hcol. injection Hcol as <-.
      specialize (IH hd col Hc).
      destruct (column env_ind tl) as [e|ctl]; [done|]. simpl in *.
      destruct (column env_ind hd) as [e|chd]; [done|]. simpl in *.
      by injection IH as <-.
  - rewrite decide_True in Hslice by lia.
    replace (Z.of_nat (g mod N) + 1 - Z.of_nat L)%Z
      with (Z.of_nat (S (g mod N) - L)) by lia.
    replace (Z.of_nat (g mod N) + 1)%Z with (Z.of_nat (S (g mod N))) by lia.
    rewrite py_slice_nat by lia.
    replace (S (g mod N) - (S (g mod N) - L)) with L by lia.
    rewrite Hslice. by apply column_tabulate.
Qed.

(** C2, as stated, fails: in a buffer of 4 slots, an episode of length 7 that
    ends at step index 1 is reported with 3 entries, and one of length 6 with
    6 entries that start with the two newest steps (8 and 9) instead of the
    oldest (4). *)
Lemma long_episode_slice_is_wrong :
  let rewards := buffer_after 4 [0%Qc]
                   (λ k, [Q2Qc (inject_Z (Z.of_nat k))]) 10 in
  let actions := buffer_after 4 [0%Z] (λ k, [0%Z]) 10 in
  (∃ ep, ep_a_r scenario ["end"] actions rewards 1 0 7 = inr ep
         ∧ length ep = 3)
  ∧ (∃ ep, ep_a_r scenario ["end"] actions rewards 1 0 6 = inr ep
           ∧ length ep = 6
           ∧ ep.*2 !! 0 = Some (Q2Qc (inject_Z 8))
           ∧ ep.*2 !! 0 ≠ Some (Q2Qc (inject_Z 4))).
Proof.
  split.
  - eexists. split; [vm_compute; reflexivity|]. reflexivity.
  - eexists. split; [vm_compute; reflexivity|]. split; [reflexivity|].
    split; [by apply (f_equal Some), Qc_is_canon|].
    by intros [= H].
Qed.

(** C2 (amended): for a finished episode of length L with 1 <= L <=
    num_steps that ends at buffer step index s (the step just recorded),
    the reconstruction returns exactly the L (action name, reward) entries
    of that environment's episode, oldest first; when the start index
    (s + 1) - L is negative they are the tail of the buffer, written by the
    previous rollout, followed by its head. *)
Theorem episode_slice_in_buffer (a : args) (action_names : list string)
    (N g L env_ind : nat) (zA : list Z) (zR : vec)
    (hA : nat → list Z) (hR : nat → vec)
    (act : nat → Z) (rew : nat → Qc) (name : nat → string) :
  num_steps (opts a) = Z.of_nat N →
  (∀ k, hA k !! env_ind = Some (act k)) →
  (∀ k, hR k !! env_ind = Some (rew k)) →
  (∀ k, py_item action_names (act k) = inr (name k)) →
  1 ≤ L ≤ N → L ≤ S g →
  ep_a_r a action_names
         (buffer_after N zA hA (S g)) (buffer_after N zR hR (S g))
         (Z.of_nat (g mod N)) env_ind (Z.of_nat L)
  = inr ((λ k, (name k, rew k)) <$> seq (S g - L) L).
Proof.
  intros HN HA HR Hname HL Hg. unfold ep_a_r. rewrite HN.
  rewrite (episode_slice_chronological N zA hA act env_ind g L) by done.
  rewrite (episode_slice_chronological N zR hR rew env_ind g L) by done.
  cbv [mbind result_bind].
  rewrite (names_of_tabulate action_names act name L Hname).
  cbv [mret result_ret]. f_equal.
  rewrite zip_with_fmap_l, zip_with_fmap_r. unfold zip.
  generalize (S g - L). induction L as [|L' IH]; intros k0; [done|].
  simpl. f_equal. apply zip_with_diag.
Qed.

Lemma episode_slice_in_buffer_witness :
  num_steps (opts scenario) = Z.of_nat 4
  ∧ 1 ≤ 3 ≤ 4
  ∧ ep_a_r scenario ["end"]
      (buffer_after 4 [0%Z] (λ _, [0%Z]) 10)
      (buffer_after 4 [0%Qc] (λ k, [Q2Qc (inject_Z (Z.of_nat k))]) 10)
      (Z.of_nat (9 mod 4)) 0 (Z.of_nat 3)
    = inr ((λ k, ("end", Q2Qc (inject_Z (Z.of_nat k)))) <$> seq 7 3).
Proof.
  split; [reflexivity|]. split; [lia|].
  apply (episode_slice_in_buffer scenario ["end"] 4 9 3 0 [0%Z] [0%Qc]
           (λ _, [0%Z]) (λ k, [Q2Qc (inject_Z (Z.of_nat k))])
           (λ _, 0%Z) (λ k, Q2Qc (inject_Z (Z.of_nat k))) (λ _, "end"));
    [reflexivity | intros; reflexivity | intros; reflexivity
    | intros; reflexivity | lia | lia].
Defined.

End PPOFacts.

(** ** More on the encoder *)

Module LibMoreFacts.
Import Lib LibFacts LibMore.

Local Open Scope nat_scope.

Section Rows.

Variable all_operators : list string.
Context {data : Type}.

(** *** Feature rows *)

(** [encode_node] raises exactly on the operator nodes whose class is not
  in the vocabulary, with its "Failed to encode node", and on the int
  operands outside the 64-bit range, with the overflow error of torch; on
  every other node it returns a row of the fixed width. *)
Theorem encode_node_fails_exactly_on_unknown (node : operator) :
match node with
| Scalar v =>
    if in_int64 v
    then ∃ r, encode_node all_operators node = inr r
              ∧ length r = num_node_features all_operators
    else encode_node all_operators node = inl Overflow
| OpNode cls _ =>
    if bool_decide (cls ∈ all_operators)
    then ∃ r, encode_node all_operators node = inr r
              ∧ length r = num_node_features all_operators
    else encode_node all_operators node = inl EncodeFailure
end.
Proof.
destruct node as [v|cls children].
- destruct (in_int64 v) eqn:Hv; [|by apply encode_scalar_overflow].
  destruct (known_operator_encodes all_operators (Scalar v) Hv)
    as (r & Hr & Hl & _).
  by exists r.
- case_bool_decide as Hk.
  + destruct (known_operator_encodes all_operators (OpNode cls children))
      as (r & Hr & Hl & _); [by apply bool_decide_eq_true|].
    by exists r.
  + unfold encode_node. by apply encode_op_missing.
Qed.

(** The two ways in which [encode_node] fails. *)
Lemma encode_node_inl (node : operator) e :
encode_node all_operators node = inl e →
(e = Overflow ∧ scalar_fits node = false)
∨ (e = EncodeFailure ∧ class_known all_operators node = false).
Proof.
destruct node as [v|cls children]; intros He.
- left. cbn [scalar_fits]. destruct (in_int64 v) eqn:Hv.
  + by rewrite encode_scalar in He.
  + rewrite encode_scalar_overflow in He by done. by injection He as <-.
- right. cbn [class_known].
  destruct (decide (cls ∈ all_operators)) as [Hin|Hnin].
  + destruct (encode_opnode all_operators cls children Hin) as (k & _ & Hr).
    by rewrite Hr in He.
  + unfold encode_node in He. rewrite encode_op_missing in He by done.
    injection He as <-. split; [done|]. by apply bool_decide_eq_false.
Qed.

Lemma known_operator_split (node : operator) :
known_operator all_operators node
= class_known all_operators node && scalar_fits node.
Proof. destruct node; cbn; by rewrite ?andb_true_r. Qed.

Lemma encode_op_first cls onehot ops : ∀ ind,
cls ∈ ops →
∃ k, ops !! k = Some cls
     ∧ (∀ j, j < k → ops !! j ≠ Some cls)
     ∧ encode_op cls onehot ind ops = inr (<[4 + (ind + k) := 1%Z]> onehot).
Proof.
induction ops as [|o ops IH]; intros ind Hin.
- by apply elem_of_nil in Hin.
- simpl. destruct (String.eqb cls o) eqn:Heq.
  + apply String.eqb_eq in Heq as ->. exists 0.
    split; [done|]. split; [intros j ?; lia|]. by rewrite Nat.add_0_r.
  + apply String.eqb_neq in Heq.
    apply elem_of_cons in Hin as [->|Hin]; [done|].
    destruct (IH (S ind) Hin) as (k & Hk & Hfirst & ->).
    exists (S k). split; [done|]. split.
    * intros [|j] Hj; simpl; [congruence|]. apply Hfirst. lia.
    * by replace (S ind + k) with (ind + S k) by lia.
Qed.

Lemma lookup_onehot n k i :
k < n → i < n →
<[k := 1%Z]> (replicate n 0%Z) !! i
= Some (if bool_decide (i = k) then 1%Z else 0%Z).
Proof.
intros Hk Hi. case_bool_decide as Heq.
- subst. apply list_lookup_insert_eq. by rewrite length_replicate.
- rewrite list_lookup_insert_ne by done. by apply lookup_replicate_2.
Qed.

(** The row of an operator node is one-hot on the operator segment: besides
  the is_enode flag, its only 1 sits in the column of the first class of
  the vocabulary that the node is an instance of, which is the column
  that [feature_names] labels with the class name; every other entry
  is 0. *)
Theorem operator_row_is_one_hot (cls : string) (children : list Z) :
cls ∈ all_operators →
∃ r ind,
  encode_node all_operators (OpNode cls children) = inr r
  ∧ all_operators !! ind = Some cls
  ∧ (∀ j, j < ind → all_operators !! j ≠ Some cls)
  ∧ feature_names all_operators !! (4 + ind) = Some cls
  ∧ feature_names all_operators !! 1 = Some "is_enode"
  ∧ ∀ i, i < num_node_features all_operators →
         r !! i = Some (if bool_decide (i = 1 ∨ i = 4 + ind)
                        then 1%Z else 0%Z).
Proof.
intros Hin. unfold encode_node.
destruct (encode_op_first cls
            (<[1 := 1%Z]> (replicate (num_node_features all_operators) 0%Z))
            all_operators 0 Hin) as (ind & Hind & Hfirst & ->).
pose proof (lookup_lt_Some _ _ _ Hind) as Hlt.
eexists _, ind. split; [done|]. split; [done|]. split; [done|].
split; [done|]. split; [done|].
intros i Hi. unfold num_node_features in *. cbn [Nat.add].
destruct (decide (i = 4 + ind)) as [->|Hne4].
- rewrite bool_decide_eq_true_2 by (by right).
  apply list_lookup_insert_eq.
  rewrite length_insert, length_replicate. lia.
- rewrite list_lookup_insert_ne by done.
  destruct (decide (i = 1)) as [->|Hne1].
  + rewrite bool_decide_eq_true_2 by (by left).
    apply list_lookup_insert_eq. rewrite length_replicate. lia.
  + rewrite list_lookup_insert_ne by done.
    rewrite bool_decide_eq_false_2 by tauto.
    apply lookup_replicate_2. lia.
Qed.

Lemma binary_below (l : list Z) :
Forall binary l → Forall2 below l (replicate (length l) (Finite 1)).
Proof.
induction 1 as [|v l [->| ->] _ IH]; simpl; constructor; simpl; done || lia.
Qed.

Lemma binary_zeros n : Forall binary (replicate n 0%Z).
Proof. apply Forall_replicate. by left. Qed.

Lemma binary_onehot n k : Forall binary (<[k := 1%Z]> (replicate n 0%Z)).
Proof.
destruct (decide (k < n)) as [Hk|Hk].
- apply Forall_insert; [apply binary_zeros|by right].
- rewrite list_insert_ge by (rewrite length_replicate; lia).
  apply binary_zeros.
Qed.

(** The shape of every row the encoder produces: three flags, the scalar
  value, and one flag per operator class. *)
Lemma encoded_row_shape (k : node_kind data) (r : list Z) :
encode_kind all_operators k = inr r →
∃ f0 f1 f2 v tail,
  r = f0 :: f1 :: f2 :: v :: tail
  ∧ binary f0 ∧ binary f1 ∧ binary f2
  ∧ Forall binary tail ∧ length tail = length all_operators.
Proof.
destruct k as [id d|[v|cls children]]; cbn [encode_kind]; intros Hr.
- rewrite encode_eclass_row in Hr. injection Hr as <-.
  eexists _, _, _, _, _. split; [done|].
  repeat split; try (by left); try (by right);
    [apply binary_zeros|apply length_replicate].
- destruct (in_int64 v) eqn:Hv;
    [|by rewrite encode_scalar_overflow in Hr].
  rewrite encode_scalar in Hr by done. injection Hr as <-.
  eexists _, _, _, _, _. split; [done|].
  repeat split; try (by left); try (by right);
    [apply binary_zeros|apply length_replicate].
- destruct (decide (cls ∈ all_operators)) as [Hin|Hnin].
  + destruct (encode_opnode all_operators cls children Hin) as (i & _ & Henc).
    rewrite Henc in Hr. injection Hr as <-.
    eexists _, _, _, _, _. split; [done|].
    repeat split; try (by left); try (by right); [apply binary_onehot|].
    by rewrite length_insert, length_replicate.
  + unfold encode_node in Hr.
    by rewrite encode_op_missing in Hr.
Qed.

(** Every feature row that [encode_eclass] or [encode_node] returns has as
  many entries as [get_feature_upper_bounds] and lies below it entry by
  entry; apart from the scalar value, which is unbounded, every entry is
  0 or 1. *)
Theorem feature_row_within_upper_bounds (k : node_kind data) (r : list Z) :
encode_kind all_operators k = inr r →
length r = length (get_feature_upper_bounds all_operators)
∧ Forall2 below r (get_feature_upper_bounds all_operators)
∧ ∀ i v, i ≠ 3 → r !! i = Some v → v = 0%Z ∨ v = 1%Z.
Proof.
intros Hr.
destruct (encoded_row_shape k r Hr)
  as (f0 & f1 & f2 & v & tail & -> & H0 & H1 & H2 & Htail & Hlen).
unfold get_feature_upper_bounds. split; [|split].
- simpl. by rewrite length_replicate, Hlen.
- rewrite <- Hlen.
  do 3 (constructor; [by (destruct H0, H1, H2; subst; simpl; lia)|]).
  constructor; [done|]. by apply binary_below.
- intros [|[|[|[|i]]]] w Hi Hw; simpl in Hw.
  + injection Hw as <-. exact H0.
  + injection Hw as <-. exact H1.
  + injection Hw as <-. exact H2.
  + done.
  + eapply Forall_lookup_1 in Htail; [|exact Hw]. exact Htail.
Qed.

Lemma argmax_from_lt (l : list Z) : ∀ best_i best i,
best_i < i → argmax_from best_i best i l < i + length l.
Proof.
induction l as [|y l IH]; intros best_i best i Hlt; simpl; [lia|].
destruct (best <? y)%Z.
- specialize (IH i y (S i)). lia.
- specialize (IH best_i best (S i)). lia.
Qed.

(** On a row of the vocabulary's width, with a vocabulary that is not
  empty, [decode_node] always returns: the arg-max over the one-hot
  segment is an index of the vocabulary.  It reports an operator
  exactly when the is_enode flag is 1, and the operator is one of the
  vocabulary. *)
Theorem decode_node_defined_on_rows (node : list Z) :
length node = num_node_features all_operators →
all_operators ≠ [] →
∃ d, decode_node all_operators node = inr d
     ∧ (node !! 1 ≠ Some 1%Z → op d = None)
     ∧ (node !! 1 = Some 1%Z → ∃ o, op d = Some o ∧ o ∈ all_operators).
Proof.
unfold num_node_features. intros Hlen Hne.
destruct node as [|n0 [|n1 [|n2 [|n3 onehot]]]]; simpl in Hlen; try lia.
destruct (Z.eqb_spec n1 1) as [->|Hn1].
- rewrite decode_enode_row.
  destruct onehot as [|y onehot].
  { destruct all_operators; [done|simpl in Hlen; lia]. }
  cbn [argmax]. cbv [mbind result_bind].
  pose proof (argmax_from_lt onehot 0 y 1 ltac:(lia)) as Hlt.
  destruct (lookup_lt_is_Some_2 all_operators (argmax_from 0 y 1 onehot))
    as [o Ho]; [simpl in Hlen; lia|].
  unfold item. rewrite Ho. eexists. split; [done|]. split; [done|].
  intros _. exists o. split; [done|]. apply list_elem_of_lookup. eauto.
- eexists. split.
  + unfold decode_node, item. cbn.
    destruct (Z.eqb_spec n1 1); [done|]. done.
  + split; [done|]. intros [= ?]. done.
Qed.

(** A row with fewer than four entries is rejected with an IndexError. *)
Theorem decode_node_short_row (node : list Z) :
length node < 4 → decode_node all_operators node = inl IndexError.
Proof.
intros Hlen.
destruct node as [|n0 [|n1 [|n2 [|n3 onehot]]]]; simpl in Hlen;
  try lia; reflexivity.
Qed.

(** *** Failures of [encode_egraph] *)

Lemma insert_eclasses_acc_dom (cs : @eclasses data) : ∀ nodes0 m0 id i,
(foldl (insert_eclass all_operators) (nodes0, m0) cs).2 !! id = Some i →
id ∈ cs.*1 ∨ m0 !! id = Some i.
Proof.
induction cs as [|c cs IH]; intros nodes0 m0 id i Hi; simpl in *.
- by right.
- apply IH in Hi as [Hin|Hi].
  + left. by apply elem_of_cons; right.
  + unfold insert_eclass in Hi. simpl in Hi.
    destruct (decide (c.1 = id)) as [<-|Hne].
    * left. by apply elem_of_cons; left.
    * rewrite lookup_insert_ne in Hi by done. by right.
Qed.

Lemma insert_eclasses_dom (classes : @eclasses data) id :
is_Some ((insert_eclasses all_operators classes).2 !! id)
↔ id ∈ classes.*1.
Proof.
split.
- intros [i Hi]. apply insert_eclasses_acc_dom in Hi as [?|Hi]; [done|].
  by rewrite lookup_empty in Hi.
- apply insert_eclasses_spec.
Qed.

Lemma connect_children_dangling m idx (children : list Z) : ∀ st,
¬ Forall (λ ecid, is_Some (m !! str ecid)) children →
∃ k, connect_children m idx children st = inl (KeyError k) ∧ m !! k = None.
Proof.
induction children as [|ecid rest IH]; intros st Hbad.
- destruct Hbad. constructor.
- simpl. destruct (m !! str ecid) as [tgt|] eqn:Htgt.
  + simpl. apply IH. intros Hrest. apply Hbad. constructor; [by eexists|done].
  + exists (str ecid). done.
Qed.

Lemma insert_enode_fails m eclass_id node st :
is_Some (m !! eclass_id) →
¬ (known_operator all_operators node = true
   ∧ Forall (λ ecid, is_Some (m !! str ecid)) (children_of node)) →
∃ e, insert_enode all_operators m eclass_id node st = inl e
     ∧ loop_error all_operators m [node] e.
Proof.
intros [src Hsrc] Hbad. unfold insert_enode.
destruct (known_operator all_operators node) eqn:Hk.
- destruct (known_operator_encodes all_operators node Hk) as (r & -> & _).
  simpl. rewrite Hsrc. simpl.
  assert (Hch : ¬ Forall (λ ecid, is_Some (m !! str ecid))
                         (children_of node)) by tauto.
  destruct node as [v|cls children].
  { destruct Hch. constructor. }
  cbn [children_of] in Hch.
  match goal with
  | |- context [connect_children m ?i children ?s] =>
      destruct (connect_children_dangling m i children s Hch)
        as (k & -> & Hk')
  end.
  eexists. split; [done|]. right. exists k.
  split; [done|]. split; [done|]. by apply Exists_cons_hd.
- destruct node as [v|cls children]; cbn [known_operator] in Hk.
  + rewrite encode_scalar_overflow by done.
    eexists. split; [done|].
    left. apply Exists_cons_hd. by apply encode_scalar_overflow.
  + apply bool_decide_eq_false in Hk.
    unfold encode_node. rewrite encode_op_missing by done.
    eexists. split; [done|].
    left. apply Exists_cons_hd.
    unfold encode_node. by apply encode_op_missing.
Qed.

Lemma loop_error_weaken m (pre nodes post : list operator) e :
loop_error all_operators m nodes e →
loop_error all_operators m (pre ++ nodes ++ post) e.
Proof.
intros [Hex|(k & -> & Hk & Hex)]; [left|right; exists k];
  repeat split; try done;
  apply Exists_app; right; apply Exists_app; by left.
Qed.

Lemma insert_enodes_fails m E eclass_id (nodes : list operator) : ∀ st,
index_below E m →
is_Some (m !! eclass_id) →
edges_ok E st →
¬ Forall (λ node, known_operator all_operators node = true
                  ∧ Forall (λ ecid, is_Some (m !! str ecid))
                           (children_of node)) nodes →
∃ e, insert_enodes all_operators m eclass_id nodes st = inl e
     ∧ loop_error all_operators m nodes e.
Proof.
intros st Hm Hid. revert st.
induction nodes as [|node rest IH]; intros st Hok Hbad.
- destruct Hbad. constructor.
- cbn [insert_enodes].
  destruct (decide (known_operator all_operators node = true
                    ∧ Forall (λ ecid, is_Some (m !! str ecid))
                             (children_of node))) as [[Hk Hc]|Hnode].
  + destruct (insert_enode_ok all_operators m E eclass_id node st
                Hm Hid Hk Hc Hok) as (st1 & r & -> & _ & _ & Hok1).
    cbv [mbind result_bind].
    destruct (IH st1 Hok1) as (e & He & Herr).
    { intros Hrest. apply Hbad. by constructor. }
    exists e. split; [done|].
    by apply (loop_error_weaken m [node] rest []) in Herr;
      rewrite app_nil_r in Herr.
  + destruct (insert_enode_fails m eclass_id node st Hid Hnode)
      as (e & -> & Herr).
    exists e. split; [done|].
    by apply (loop_error_weaken m [] [node] rest) in Herr.
Qed.

Lemma insert_classes_fails m E (cs : @eclasses data) : ∀ st,
index_below E m →
Forall (λ c, is_Some (m !! c.1)) cs →
edges_ok E st →
¬ Forall (λ node, known_operator all_operators node = true
                  ∧ Forall (λ ecid, is_Some (m !! str ecid))
                           (children_of node)) (enodes cs) →
∃ e, insert_classes all_operators m cs st = inl e
     ∧ loop_error all_operators m (enodes cs) e.
Proof.
intros st Hm. revert st.
induction cs as [|[eclass_id [d nodes]] rest IH]; intros st Hids Hok Hbad.
- destruct Hbad. constructor.
- apply Forall_cons_1 in Hids as [Hid Hids].
  change (enodes ((eclass_id, (d, nodes)) :: rest))
    with (nodes ++ enodes rest) in Hbad |- *.
  cbn [insert_classes].
  destruct (decide (Forall (λ node,
              known_operator all_operators node = true
              ∧ Forall (λ ecid, is_Some (m !! str ecid))
                       (children_of node)) nodes)) as [Hgood|Hnodes].
  + destruct (insert_enodes_ok all_operators m E eclass_id nodes st Hm Hid)
      as (st1 & rows & -> & _ & _ & Hok1); [| |done|].
    { eapply List.Forall_impl; [|exact Hgood]. simpl. tauto. }
    { eapply List.Forall_impl; [|exact Hgood]. simpl. tauto. }
    cbv [mbind result_bind].
    destruct (IH st1 Hids Hok1) as (e & He & Herr).
    { intros Hrest. apply Hbad. by apply Forall_app. }
    exists e. split; [done|].
    by apply (loop_error_weaken m nodes (enodes rest) []) in Herr;
      rewrite app_nil_r in Herr.
  + destruct (insert_enodes_fails m E eclass_id nodes st Hm Hid Hok Hnodes)
      as (e & -> & Herr).
    exists e. split; [done|].
    by apply (loop_error_weaken m [] nodes (enodes rest)) in Herr.
Qed.

Lemma insert_classes_no_enodes m (cs : @eclasses data) : ∀ st,
enodes cs = [] → insert_classes all_operators m cs st = inr st.
Proof.
induction cs as [|[eclass_id [d nodes]] rest IH]; intros st Hnil; [done|].
change (enodes ((eclass_id, (d, nodes)) :: rest))
  with (nodes ++ enodes rest) in Hnil.
apply app_eq_nil in Hnil as [-> Hrest]. cbn. by apply IH.
Qed.

(** The state that the loops of [encode_egraph] start from, and how a
  failure of the second loop surfaces. *)
Lemma encode_egraph_start (classes : @eclasses data) :
let m := (insert_eclasses all_operators classes).2 in
let st0 := {| all_nodes := (λ c, encode_eclass all_operators c.1 c.2.1)
                           <$> classes;
              all_edges := []; attrs := [] |} in
index_below (length classes) m
∧ Forall (λ c, is_Some (m !! c.1)) classes
∧ edges_ok (length classes) st0
∧ encode_egraph all_operators classes
  = (st ← insert_classes all_operators m classes st0;
     xs ← stack (all_nodes st);
     ei ← stack (all_edges st);
     ea ← stack (attrs st);
     let '(ei, ea) := add_remaining_self_loops ei ea in
     mret {| x := xs; edge_index := ei; edge_attr := ea |}).
Proof.
intros m st0.
destruct (insert_eclasses_spec all_operators classes) as (Hn & Hdom & Hbelow).
split; [done|]. split; [|split].
- apply Forall_forall. intros c Hin. apply Hdom.
  apply list_elem_of_In in Hin. by apply (list_elem_of_fmap_2 fst).
- unfold edges_ok, st0; simpl. rewrite length_fmap.
  split; [done|]. split; [done|]. split; [constructor|].
  split; [lia|constructor].
- unfold encode_egraph, m, st0.
  destruct (insert_eclasses all_operators classes) as [nodes m'].
  simpl in Hn. by rewrite Hn.
Qed.

Lemma operators_known_Forall (classes : @eclasses data) :
operators_known all_operators classes = true
∧ scalars_fit classes = true
↔ Forall (λ node, known_operator all_operators node = true)
         (enodes classes).
Proof.
unfold operators_known, scalars_fit.
rewrite !List.forallb_forall, Forall_forall. split.
- intros [Hc Hs] node Hin. rewrite known_operator_split.
  by rewrite Hc, Hs.
- intros Hk. split; intros node Hin; apply Hk in Hin;
    rewrite known_operator_split in Hin;
    by apply andb_true_iff in Hin as [? ?].
Qed.

Lemma children_resolve_Forall (classes : @eclasses data) :
children_resolve classes = true
↔ Forall (λ node,
     Forall (λ ecid,
       is_Some ((insert_eclasses all_operators classes).2 !! str ecid))
       (children_of node)) (enodes classes).
Proof.
unfold children_resolve. rewrite List.forallb_forall, Forall_forall.
apply forall_proper. intros node. apply forall_proper. intros _.
rewrite List.forallb_forall, Forall_forall.
apply forall_proper. intros ecid. apply forall_proper. intros _.
rewrite bool_decide_eq_true. symmetry. apply insert_eclasses_dom.
Qed.

Lemma wf_egraph_split (classes : @eclasses data) :
wf_egraph all_operators classes
= operators_known all_operators classes && scalars_fit classes
  && children_resolve classes
  && negb (Nat.eqb (length (enodes classes)) 0).
Proof.
unfold wf_egraph, operators_known, scalars_fit. do 2 f_equal.
induction (enodes classes) as [|node nodes IH]; [done|].
cbn [forallb]. rewrite IH, known_operator_split.
destruct (class_known all_operators node), (scalar_fits node); cbn;
  by rewrite ?andb_false_r.
Qed.

(** An operator node of a class outside the vocabulary makes
  [encode_egraph] fail with "Failed to encode node" (here for a state
  whose child identifiers all name e-classes and whose int operands fit
  64 bits, so that no KeyError and no overflow comes first): the
  inconsistency is not swallowed. *)
Theorem encode_egraph_unknown_operator (classes : @eclasses data) :
children_resolve classes = true →
scalars_fit classes = true →
operators_known all_operators classes = false →
encode_egraph all_operators classes = inl EncodeFailure.
Proof.
intros Hres Hfit Hunk.
destruct (encode_egraph_start classes) as (Hbelow & Hids & Hok0 & ->).
apply children_resolve_Forall in Hres.
match goal with
| |- context [insert_classes _ ?m classes ?st0] =>
    destruct (insert_classes_fails m (length classes) classes st0
                Hbelow Hids Hok0) as (e & -> & Herr)
end.
- intros Hgood. apply not_true_iff_false in Hunk. apply Hunk.
  apply operators_known_Forall.
  eapply List.Forall_impl; [|exact Hgood]. simpl. tauto.
- destruct Herr as [Hex|(k & _ & _ & Hex)].
  + apply Exists_exists in Hex as (node & Hin & Hnode).
    apply encode_node_inl in Hnode as [[_ Hbad]|[-> _]]; [|done].
    unfold scalars_fit in Hfit. rewrite List.forallb_forall in Hfit.
    apply Hfit in Hin. congruence.
  + apply Exists_exists in Hex as (node & Hin & Hnode).
    destruct Hnode. rewrite Forall_forall in Hres. by apply Hres.
Qed.

(** A child identifier that names no e-class makes [encode_egraph] fail
  with the KeyError of that identifier (here for a state whose operator
  nodes are all of the vocabulary and whose int operands fit 64 bits). *)
Theorem encode_egraph_dangling_child (classes : @eclasses data) :
operators_known all_operators classes = true →
scalars_fit classes = true →
children_resolve classes = false →
∃ k, encode_egraph all_operators classes = inl (KeyError k)
     ∧ k ∉ classes.*1.
Proof.
intros Hknown Hfit Hres.
destruct (encode_egraph_start classes) as (Hbelow & Hids & Hok0 & ->).
pose proof (proj1 (operators_known_Forall classes) (conj Hknown Hfit))
  as Hk.
match goal with
| |- context [insert_classes _ ?m classes ?st0] =>
    destruct (insert_classes_fails m (length classes) classes st0
                Hbelow Hids Hok0) as (e & -> & Herr)
end.
- intros Hgood. apply not_true_iff_false in Hres. apply Hres.
  apply children_resolve_Forall.
  eapply List.Forall_impl; [|exact Hgood]. simpl. tauto.
- destruct Herr as [Hex|(k & -> & Hk' & _)].
  + apply Exists_exists in Hex as (node & Hin & Hnode).
    rewrite Forall_forall in Hk. apply Hk in Hin.
    destruct (known_operator_encodes all_operators node Hin)
      as (r & Hr & _).
    congruence.
  + exists k. split; [done|]. intros Hin.
    apply insert_eclasses_dom in Hin as [i Hi]. congruence.
Qed.

(** Without any e-node there is nothing to stack: [encode_egraph] fails in
  [torch.stack], on the empty list of rows when the state has no e-class
  and on the empty list of edges otherwise. *)
Theorem encode_egraph_without_enodes (classes : @eclasses data) :
enodes classes = [] →
encode_egraph all_operators classes = inl EmptyTensorList.
Proof.
intros Hnil.
destruct (encode_egraph_start classes) as (_ & _ & _ & ->).
rewrite insert_classes_no_enodes by done.
cbv [mbind result_bind]. cbn [all_nodes all_edges].
by destruct classes.
Qed.

(** [encode_egraph] returns a graph exactly for the well-formed search
  states (operator nodes of the vocabulary, int operands within 64 bits,
  child identifiers that name e-classes, at least one e-node); on every
  other state it raises. *)
Theorem encode_egraph_returns_iff_wf (classes : @eclasses data) :
(∃ g, encode_egraph all_operators classes = inr g)
↔ wf_egraph all_operators classes = true.
Proof.
split.
- intros [g Hg]. rewrite wf_egraph_split.
  destruct (encode_egraph_start classes) as (Hbelow & Hids & Hok0 & Heq).
  rewrite Heq in Hg.
  destruct (decide (Forall (λ node,
              known_operator all_operators node = true
              ∧ Forall (λ ecid,
                  is_Some ((insert_eclasses all_operators classes).2
                             !! str ecid)) (children_of node))
              (enodes classes))) as [Hgood|Hbad].
  + assert (Hk : Forall (λ node, known_operator all_operators node = true)
                        (enodes classes)).
    { eapply List.Forall_impl; [|exact Hgood]. simpl. tauto. }
    apply operators_known_Forall in Hk as [-> ->].
    assert (Hc : children_resolve classes = true).
    { apply children_resolve_Forall.
      eapply List.Forall_impl; [|exact Hgood]. simpl. tauto. }
    rewrite Hc. cbn [andb].
    destruct (enodes classes) eqn:Hn; [|done].
    rewrite insert_classes_no_enodes in Hg by done.
    cbv [mbind result_bind] in Hg. cbn [all_nodes all_edges] in Hg.
    by destruct classes.
  + match type of Hg with
    | context [insert_classes _ ?m classes ?st0] =>
        destruct (insert_classes_fails m (length classes) classes st0
                    Hbelow Hids Hok0 Hbad) as (e & He & _)
    end.
    by rewrite He in Hg.
- intros Hwf.
  destruct (encode_egraph_run all_operators classes Hwf) as (st & _ & Hg & _).
  eauto.
Qed.

(** *** The edges of the encoded graph *)

Lemma key_index_lt (keys : list string) id :
id ∈ keys → key_index keys id < length keys.
Proof.
induction keys as [|k keys IH]; intros Hin; [by apply elem_of_nil in Hin|].
simpl. destruct (String.eqb_spec k id) as [->|Hne]; [lia|].
apply elem_of_cons in Hin as [->|Hin]; [done|]. specialize (IH Hin). lia.
Qed.

Lemma key_index_lookup (keys : list string) j id :
NoDup keys → keys !! j = Some id → key_index keys id = j.
Proof.
intros Hnd. revert j. induction Hnd as [|k keys Hk _ IH]; intros j Hj.
- by rewrite lookup_nil in Hj.
- simpl. destruct j as [|j]; simpl in Hj.
  + injection Hj as ->. by rewrite String.eqb_refl.
  + destruct (String.eqb_spec k id) as [->|Hne].
    * destruct Hk. apply list_elem_of_lookup. eauto.
    * f_equal. by apply IH.
Qed.

Lemma insert_eclasses_acc_other (cs : @eclasses data) : ∀ nodes0 m0 id,
id ∉ cs.*1 →
(foldl (insert_eclass all_operators) (nodes0, m0) cs).2 !! id = m0 !! id.
Proof.
induction cs as [|c cs IH]; intros nodes0 m0 id Hid; [done|].
simpl in Hid. apply not_elem_of_cons in Hid as [Hne Hid].
cbn [foldl].
change (insert_eclass all_operators (nodes0, m0) c)
  with (nodes0 ++ [encode_eclass all_operators c.1 c.2.1],
        <[c.1 := length (nodes0 ++ [encode_eclass all_operators c.1 c.2.1])
                 - 1]> m0).
rewrite IH by done. by rewrite lookup_insert_ne.
Qed.

Lemma insert_eclasses_acc_key (cs : @eclasses data) : ∀ nodes0 m0 id,
NoDup cs.*1 → id ∈ cs.*1 →
(foldl (insert_eclass all_operators) (nodes0, m0) cs).2 !! id
= Some (length nodes0 + key_index cs.*1 id).
Proof.
induction cs as [|c cs IH]; intros nodes0 m0 id Hnd Hid.
- by apply elem_of_nil in Hid.
- simpl in Hnd, Hid. apply list.NoDup_cons in Hnd as [Hc Hnd].
  cbn [foldl fmap list_fmap key_index].
  change (insert_eclass all_operators (nodes0, m0) c)
    with (nodes0 ++ [encode_eclass all_operators c.1 c.2.1],
          <[c.1 := length (nodes0 ++ [encode_eclass all_operators c.1 c.2.1])
                   - 1]> m0).
  destruct (String.eqb_spec c.1 id) as [<-|Hne].
  + rewrite insert_eclasses_acc_other by done.
    rewrite lookup_insert_eq.
    rewrite length_app. simpl. f_equal. lia.
  + apply elem_of_cons in Hid as [->|Hid]; [done|].
    rewrite IH by done.
    rewrite length_app. simpl. f_equal. lia.
Qed.

(** With distinct keys, the index map sends every identifier to its row. *)
Lemma insert_eclasses_key (classes : @eclasses data) id :
NoDup classes.*1 → id ∈ classes.*1 →
(insert_eclasses all_operators classes).2 !! id
= Some (key_index classes.*1 id).
Proof.
intros Hnd Hid. unfold insert_eclasses.
by rewrite insert_eclasses_acc_key.
Qed.

Section Exact.

Variable keys : list string.
Variable m : gmap string nat.
Hypothesis m_keys : ∀ id, id ∈ keys → m !! id = Some (key_index keys id).

Lemma connect_children_exact idx (children : list Z) : ∀ st,
  Forall (λ ecid, str ecid ∈ keys) children →
  connect_children m idx children st
  = inr {| all_nodes := all_nodes st;
       all_edges := all_edges st
                    ++ ((λ ecid, (idx, key_index keys (str ecid)))
                        <$> children);
       attrs := attrs st ++ ((λ _, [1; 0]%Z) <$> children) |}.
Proof.
  induction children as [|ecid rest IH]; intros st Hch.
  - simpl. rewrite !app_nil_r. by destruct st.
  - apply Forall_cons_1 in Hch as [Hc Hrest]. simpl.
rewrite (m_keys _ Hc). simpl. rewrite IH by done. simpl.
by rewrite <- !app_assoc.
Qed.

Lemma insert_enode_exact eclass_id node st :
  eclass_id ∈ keys →
  known_operator all_operators node = true →
  Forall (λ ecid, str ecid ∈ keys) (children_of node) →
  ∃ r,
encode_node all_operators node = inr r
∧ insert_enode all_operators m eclass_id node st
  = inr {| all_nodes := all_nodes st ++ [r];
           all_edges :=
             all_edges st
             ++ (node_edges keys (key_index keys eclass_id)
                            (length (all_nodes st)) node).*1;
           attrs :=
             attrs st
             ++ (node_edges keys (key_index keys eclass_id)
                            (length (all_nodes st)) node).*2 |}.
Proof.
  intros Hid Hk Hch.
  destruct (known_operator_encodes all_operators node Hk) as (r & Hr & _).
  exists r. split; [done|].
  unfold insert_enode. rewrite Hr. simpl. rewrite (m_keys _ Hid). simpl.
  replace (length (all_nodes st ++ [r]) - 1) with (length (all_nodes st))
by (rewrite length_app; simpl; lia).
  unfold node_edges. destruct node as [v|cls children]; simpl.
  - done.
  - rewrite connect_children_exact by done. simpl.
rewrite <- !list_fmap_compose, <- !app_assoc. done.
Qed.

Lemma insert_enodes_exact eclass_id (nodes : list operator) : ∀ st,
  eclass_id ∈ keys →
  Forall (λ node, known_operator all_operators node = true) nodes →
  Forall (λ node, Forall (λ ecid, str ecid ∈ keys) (children_of node))
     nodes →
  ∃ rows,
Forall2 (λ node r, encode_node all_operators node = inr r) nodes rows
∧ insert_enodes all_operators m eclass_id nodes st
  = inr {| all_nodes := all_nodes st ++ rows;
           all_edges :=
             all_edges st
             ++ (class_edges keys (key_index keys eclass_id)
                             (length (all_nodes st)) nodes).*1;
           attrs :=
             attrs st
             ++ (class_edges keys (key_index keys eclass_id)
                             (length (all_nodes st)) nodes).*2 |}.
Proof.
  intros st Hid. revert st.
  induction nodes as [|node rest IH]; intros st Hk Hch.
  - exists []. split; [constructor|]. simpl. rewrite !app_nil_r.
by destruct st.
  - apply Forall_cons_1 in Hk as [Hk Hks].
apply Forall_cons_1 in Hch as [Hc Hcs].
destruct (insert_enode_exact eclass_id node st Hid Hk Hc) as (r & Hr & Hrun).
match type of Hrun with _ = inr ?s => set (st1 := s) in * end.
destruct (IH st1 Hks Hcs) as (rows & Hrows & Hrest).
exists (r :: rows). split; [by constructor|].
cbn [insert_enodes]. rewrite Hrun. cbv [mbind result_bind].
rewrite Hrest. unfold st1. cbn [all_nodes all_edges attrs class_edges].
rewrite length_app. simpl.
replace (length (all_nodes st) + 1) with (S (length (all_nodes st)))
  by lia.
rewrite !fmap_app, <- !app_assoc. done.
Qed.

Lemma insert_classes_exact (cs : @eclasses data) : ∀ src st,
  (∀ j c, cs !! j = Some c →
      c.1 ∈ keys ∧ key_index keys c.1 = src + j) →
  Forall (λ node, known_operator all_operators node = true) (enodes cs) →
  Forall (λ node, Forall (λ ecid, str ecid ∈ keys) (children_of node))
     (enodes cs) →
  ∃ rows,
Forall2 (λ node r, encode_node all_operators node = inr r)
        (enodes cs) rows
∧ insert_classes all_operators m cs st
  = inr {| all_nodes := all_nodes st ++ rows;
           all_edges :=
             all_edges st
             ++ (graph_edges keys src (length (all_nodes st)) cs).*1;
           attrs :=
             attrs st
             ++ (graph_edges keys src (length (all_nodes st)) cs).*2 |}.
Proof.
  induction cs as [|[eclass_id [d nodes]] rest IH]; intros src st Hsrc Hk Hch.
  - exists []. split; [constructor|]. simpl. rewrite !app_nil_r.
by destruct st.
  - change (enodes ((eclass_id, (d, nodes)) :: rest))
  with (nodes ++ enodes rest) in Hk, Hch |- *.
apply Forall_app in Hk as [Hk Hks]. apply Forall_app in Hch as [Hc Hcs].
destruct (Hsrc 0 _ eq_refl) as [Hid Hidx]. simpl in Hid, Hidx.
rewrite Nat.add_0_r in Hidx.
destruct (insert_enodes_exact eclass_id nodes st Hid Hk Hc)
  as (rows1 & Hrows1 & Hrun1).
rewrite Hidx in Hrun1.
match type of Hrun1 with _ = inr ?s => set (st1 := s) in * end.
destruct (IH (S src) st1) as (rows & Hrows & Hrest); [|done|done|].
{ intros j c Hj. destruct (Hsrc (S j) c Hj) as [? ?].
  split; [done|]. lia. }
exists (rows1 ++ rows). split; [by apply Forall2_app|].
cbn [insert_classes]. rewrite Hrun1. cbv [mbind result_bind].
rewrite Hrest. unfold st1.
cbn [all_nodes all_edges attrs graph_edges fst snd].
assert (Hl1 : length nodes = length rows1) by (by eapply Forall2_length).
rewrite length_app, <- Hl1.
rewrite !fmap_app, <- !app_assoc. done.
Qed.

End Exact.

Lemma encode_egraph_finish E (st : enc_state) :
edges_ok E st → E < length (all_nodes st) →
(xs ← stack (all_nodes st);
 ei ← stack (all_edges st);
 ea ← stack (attrs st);
 let '(ei, ea) := add_remaining_self_loops ei ea in
 mret {| x := xs; edge_index := ei; edge_attr := ea |})
= inr {| x := all_nodes st;
         edge_index :=
           all_edges st ++ ((λ i, (i, i)) <$> seq 0 (length (all_nodes st)));
         edge_attr :=
           attrs st ++ replicate (length (all_nodes st)) [1; 1]%Z |}.
Proof.
intros (H1 & H2 & H3 & H4 & H5) HE.
destruct (H4 HE) as (e & He & Hmax).
assert (Hnum : maybe_num_nodes (all_edges st) = length (all_nodes st)).
{ apply maybe_num_nodes_exact; [|by exists e].
  eapply List.Forall_impl; [|exact H3]. simpl. tauto. }
assert (Hst_nodes : stack (all_nodes st) = inr (all_nodes st)).
{ destruct (all_nodes st); [simpl in HE; lia|done]. }
assert (Hst_edges : stack (all_edges st) = inr (all_edges st)).
{ destruct (all_edges st); [by apply elem_of_nil in He|done]. }
assert (Hst_attrs : stack (attrs st) = inr (attrs st)
                    ∧ length (hd [] (attrs st)) = 2).
{ destruct (attrs st) as [|ea ats].
  - destruct (all_edges st); [by apply elem_of_nil in He|done].
  - split; [done|]. apply Forall_cons_1 in H5 as [[->| ->] _]; done. }
destruct Hst_attrs as [Hst_attrs Hwidth].
rewrite Hst_nodes, Hst_edges, Hst_attrs. cbv [mbind result_bind].
rewrite add_loops_no_loops; [|done|].
- by rewrite Hnum, Hwidth.
- eapply List.Forall_impl; [|exact H3]. simpl. tauto.
Qed.

(** The graph of a well-formed state whose keys are distinct, edge for
  edge. *)
Lemma encode_egraph_exact (classes : @eclasses data) :
wf_egraph all_operators classes = true →
NoDup classes.*1 →
∃ rows,
  Forall2 (λ node r, encode_node all_operators node = inr r)
          (enodes classes) rows
  ∧ encode_egraph all_operators classes
    = inr {| x := ((λ c, encode_eclass all_operators c.1 c.2.1) <$> classes)
                  ++ rows;
             edge_index :=
               (graph_edges classes.*1 0 (length classes) classes).*1
               ++ ((λ i, (i, i))
                   <$> seq 0 (length classes + length (enodes classes)));
             edge_attr :=
               (graph_edges classes.*1 0 (length classes) classes).*2
               ++ replicate (length classes + length (enodes classes))
                            [1; 1]%Z |}.
Proof.
intros Hwf Hnd.
destruct (wf_egraph_unfold all_operators classes Hwf) as (Hk & Hc & Hne).
destruct (encode_egraph_start classes) as (Hbelow & Hids & Hok0 & ->).
set (m := (insert_eclasses all_operators classes).2) in *.
match goal with
| |- context [insert_classes _ m classes ?s] => set (st0 := s) in *
end.
destruct (insert_classes_exact classes.*1 m) with (cs := classes)
  (src := 0) (st := st0) as (rows & Hrows & Hrun); try done.
{ intros id Hid. by apply insert_eclasses_key. }
{ intros j c Hj.
  assert (Hkey : classes.*1 !! j = Some c.1)
    by (rewrite list_lookup_fmap;
        etransitivity; [apply (f_equal (fmap fst)); exact Hj|done]).
  split; [apply list_elem_of_lookup; eauto|].
  by apply key_index_lookup. }
destruct (insert_classes_ok all_operators m (length classes) classes st0
            Hbelow Hids Hk) as (st & rows' & Hrun' & _ & _ & Hok); [|done|].
{ eapply List.Forall_impl; [|exact Hc]. simpl. intros node Hnode.
  eapply List.Forall_impl; [|exact Hnode]. simpl. intros ecid.
  apply insert_eclasses_dom. }
rewrite Hrun in Hrun'. injection Hrun' as <-.
exists rows. split; [done|]. rewrite Hrun.
change (inr ?s ≫= ?f) with (f s). cbv beta.
assert (Hlen : length (all_nodes st0 ++ rows)
               = length classes + length (enodes classes)).
{ unfold st0. cbn [all_nodes]. rewrite length_app, length_fmap.
  f_equal. symmetry. by eapply Forall2_length. }
rewrite (encode_egraph_finish (length classes)); [| exact Hok |].
- cbn [all_nodes all_edges attrs]. rewrite Hlen.
  unfold st0. cbn [all_nodes all_edges attrs app].
  by rewrite length_fmap.
- cbn [all_nodes]. rewrite Hlen. destruct (enodes classes); [done|].
  simpl. lia.
Qed.

Lemma length_graph_edges keys (cs : @eclasses data) : ∀ src idx,
length (graph_edges keys src idx cs)
= length (enodes cs) + length (enodes cs ≫= children_of).
Proof.
assert (Hclass : ∀ nodes src idx,
          length (class_edges keys src idx nodes)
          = length nodes + length (nodes ≫= children_of)).
{ induction nodes as [|node rest IH]; intros src idx; [done|].
  cbn [class_edges]. rewrite length_app, IH. unfold node_edges.
  cbn [length mbind list_bind]. rewrite length_app, length_fmap.
  cbn [length]. lia. }
induction cs as [|[id [d nodes]] rest IH]; intros src idx; [done|].
cbn [graph_edges snd].
change (enodes ((id, (d, nodes)) :: rest)) with (nodes ++ enodes rest).
rewrite bind_app, !length_app, IH, Hclass. lia.
Qed.


Lemma graph_edges_typed keys E bound (cs : @eclasses data) : ∀ src idx,
length keys = E →
src + length cs ≤ E → E ≤ idx → idx + length (enodes cs) ≤ bound →
Forall (λ node, Forall (λ ecid, str ecid ∈ keys) (children_of node))
       (enodes cs) →
Forall (typed_edge E bound) (graph_edges keys src idx cs).
Proof.
intros src idx HE. revert src idx.
assert (Hclass : ∀ nodes src idx,
          src < E → E ≤ idx → idx + length nodes ≤ bound →
          Forall (λ node, Forall (λ ecid, str ecid ∈ keys)
                                 (children_of node)) nodes →
          Forall (typed_edge E bound) (class_edges keys src idx nodes)).
{ induction nodes as [|node rest IH]; intros src idx Hs Hi Hb Hch;
    [constructor|].
  apply Forall_cons_1 in Hch as [Hc Hcs]. simpl in Hb.
  cbn [class_edges]. apply Forall_app. split; [|apply IH; lia || done].
  unfold node_edges. constructor.
  - left. simpl. split; [done|]. lia.
  - apply Forall_fmap, Forall_forall. intros ecid Hin.
    rewrite Forall_forall in Hc. apply Hc in Hin.
    apply key_index_lt in Hin. right. simpl. split; [done|]. lia. }
induction cs as [|[id [d nodes]] rest IH]; intros src idx Hs Hi Hb Hch;
  [constructor|].
change (enodes ((id, (d, nodes)) :: rest))
  with (nodes ++ enodes rest) in Hb, Hch.
rewrite length_app in Hb. apply Forall_app in Hch as [Hc Hcs].
simpl in Hs. cbn [graph_edges snd]. apply Forall_app. split.
- apply Hclass; lia || done.
- apply IH; lia || done.
Qed.


(** *** Labels *)

Lemma node_name_eclass eclass_id (d : data) :
node_name all_operators (encode_eclass all_operators eclass_id d)
= inr (Name "eclass").
Proof. reflexivity. Qed.

Lemma node_name_encoded (node : operator) r :
known_operator all_operators node = true →
encode_node all_operators node = inr r →
node_name all_operators r = inr (enode_label node).
Proof.
destruct node as [v|cls children]; cbn [known_operator]; intros Hk Hr.
- rewrite encode_scalar in Hr by done. injection Hr as <-.
  unfold node_name. cbn. destruct (Z.eqb_spec 1 0); done.
- apply bool_decide_eq_true in Hk.
  destruct (encode_opnode all_operators cls children Hk) as (i & Hi & Henc).
  rewrite Henc in Hr. injection Hr as <-.
  unfold node_name. rewrite decode_enode_row.
  rewrite argmax_onehot by (by eapply lookup_lt_Some).
  cbv [mbind result_bind item of_option]. rewrite Hi. reflexivity.
Qed.

Lemma node_names_app rows1 rows2 ns1 ns2 :
node_names all_operators rows1 = inr ns1 →
node_names all_operators rows2 = inr ns2 →
node_names all_operators (rows1 ++ rows2) = inr (ns1 ++ ns2).
Proof.
revert ns1. induction rows1 as [|r rows1 IH]; intros ns1 H1 H2.
- by injection H1 as <-.
- cbn [node_names app] in *.
  destruct (node_name all_operators r) as [e|n]; [done|].
  cbv [mbind result_bind] in *.
  destruct (node_names all_operators rows1) as [e|ns]; [done|].
  injection H1 as <-. by rewrite (IH ns eq_refl H2).
Qed.

(** The labels that [viz_egraph] computes for the graph of a well-formed
  state: "eclass" for each of the E e-class nodes, then, per e-node, the
  value of a scalar leaf as the row holds it, the float32 nearest to
  the operand, or the name of the operator. *)
Theorem viz_names_of_encoded (classes : @eclasses data) :
wf_egraph all_operators classes = true →
∃ g,
  encode_egraph all_operators classes = inr g
  ∧ viz_names all_operators g
    = inr (replicate (length classes) (Name "eclass")
           ++ (enode_label <$> enodes classes)).
Proof.
intros Hwf.
destruct (wf_egraph_unfold all_operators classes Hwf) as (Hk & _ & _).
destruct (encode_egraph_run all_operators classes Hwf)
  as (st & rows & Hg & Hnodes & Hrows & _).
eexists. split; [exact Hg|]. unfold viz_names. cbn [x]. rewrite Hnodes.
apply node_names_app.
- clear. induction classes as [|c cs IH]; [done|].
  cbn [fmap list_fmap node_names length replicate].
  rewrite node_name_eclass. cbv [mbind result_bind].
  change (list_fmap _ _ ?f cs) with (f <$> cs). by rewrite IH.
- clear Hg Hnodes. induction Hrows as [|node r nodes rows Hr _ IH];
    [done|].
  apply Forall_cons_1 in Hk as [Hk Hks].
  cbn [fmap list_fmap node_names].
  rewrite (node_name_encoded node r Hk Hr). cbv [mbind result_bind].
  change (list_fmap _ _ ?f nodes) with (f <$> nodes). by rewrite IH.
Qed.

End Rows.

Lemma operator_row_is_one_hot_witness :
  "Mul" ∈ sample_operators
  ∧ ∃ r, encode_node sample_operators (OpNode "Mul" [3; 4]%Z) = inr r
         ∧ feature_names sample_operators !! 5 = Some "Mul"
         ∧ r !! 5 = Some 1%Z.
Proof.
  assert (Hin : "Mul" ∈ sample_operators) by (by vm_compute; set_solver).
  split; [exact Hin|].
  destruct (operator_row_is_one_hot sample_operators "Mul" [3; 4]%Z Hin)
    as (r & ind & Hr & Hind & _ & _ & _ & Hrow).
  exists r. split; [exact Hr|]. split; [reflexivity|].
  injection Hr as <-. reflexivity.
Defined.

Lemma feature_row_within_upper_bounds_witness :
  ∃ r, encode_kind sample_operators (Enode (Scalar 16) : node_kind unit) = inr r
       ∧ Forall2 below r (get_feature_upper_bounds sample_operators).
Proof.
  exists [0; 0; 1; 16; 0; 0]%Z. split; [reflexivity|].
  exact (proj1 (proj2 (feature_row_within_upper_bounds sample_operators
                         (Enode (Scalar 16) : node_kind unit)
                         [0; 0; 1; 16; 0; 0]%Z eq_refl))).
Defined.

Lemma decode_node_defined_on_rows_witness :
  length [0; 1; 0; 0; 0; 1]%Z = num_node_features sample_operators
  ∧ sample_operators ≠ []
  ∧ ∃ d, decode_node sample_operators [0; 1; 0; 0; 0; 1]%Z = inr d.
Proof.
  assert (Hne : sample_operators ≠ []) by done.
  split; [reflexivity|]. split; [exact Hne|].
  destruct (decode_node_defined_on_rows sample_operators
              [0; 1; 0; 0; 0; 1]%Z eq_refl Hne) as (d & Hd & _).
  by exists d.
Defined.

Lemma decode_node_short_row_witness :
  length [1; 0; 0]%Z < 4
  ∧ decode_node sample_operators [1; 0; 0]%Z = inl IndexError.
Proof.
  assert (H : length [1; 0; 0]%Z < 4) by (simpl; lia).
  split; [exact H|].
  exact (decode_node_short_row sample_operators [1; 0; 0]%Z H).
Defined.

Lemma encode_egraph_unknown_operator_witness :
  let classes : @eclasses unit :=
    [("0", (tt, [Scalar 1])); ("1", (tt, [OpNode "Sub" [0; 0]%Z]))] in
  children_resolve classes = true
  ∧ scalars_fit classes = true
  ∧ operators_known sample_operators classes = false
  ∧ encode_egraph sample_operators classes = inl EncodeFailure.
Proof.
  intros classes.
  assert (H1 : children_resolve classes = true) by (vm_compute; reflexivity).
  assert (Hf : scalars_fit classes = true) by (vm_compute; reflexivity).
  assert (H2 : operators_known sample_operators classes = false)
    by (vm_compute; reflexivity).
  split; [exact H1|]. split; [exact Hf|]. split; [exact H2|].
  exact (encode_egraph_unknown_operator sample_operators classes H1 Hf H2).
Defined.

Lemma encode_egraph_dangling_child_witness :
  let classes : @eclasses unit :=
    [("0", (tt, [Scalar 1])); ("1", (tt, [OpNode "Add" [0; 7]%Z]))] in
  operators_known sample_operators classes = true
  ∧ scalars_fit classes = true
  ∧ children_resolve classes = false
  ∧ ∃ k, encode_egraph sample_operators classes = inl (KeyError k).
Proof.
  intros classes.
  assert (H1 : operators_known sample_operators classes = true)
    by (vm_compute; reflexivity).
  assert (Hf : scalars_fit classes = true) by (vm_compute; reflexivity).
  assert (H2 : children_resolve classes = false) by (vm_compute; reflexivity).
  split; [exact H1|]. split; [exact Hf|]. split; [exact H2|].
  destruct (encode_egraph_dangling_child sample_operators classes H1 Hf H2)
    as (k & Hk & _).
  by exists k.
Defined.

Lemma encode_egraph_without_enodes_witness :
  enodes ([("0", (tt, []))] : @eclasses unit) = []
  ∧ encode_egraph sample_operators ([("0", (tt, []))] : @eclasses unit)
    = inl EmptyTensorList.
Proof.
  split; [reflexivity|].
  exact (encode_egraph_without_enodes sample_operators
           ([("0", (tt, []))] : @eclasses unit) eq_refl).
Defined.



Lemma viz_names_of_encoded_witness :
  wf_egraph sample_operators sample_egraph = true
  ∧ ∃ g, encode_egraph sample_operators sample_egraph = inr g
         ∧ viz_names sample_operators g
           = inr (replicate 6 (Name "eclass")
                  ++ [Value 16; Value 2; Name "Add"; Value 4; Value 0;
                      Name "Mul"; Name "Mul"]).
Proof.
  assert (Hwf : wf_egraph sample_operators sample_egraph = true)
    by (vm_compute; reflexivity).
  split; [exact Hwf|].
  exact (viz_names_of_encoded sample_operators sample_egraph Hwf).
Defined.

End LibMoreFacts.

(** ** More on the training loop *)

From Stdlib Require Import Lqa.

Module PPOMoreFacts.
Import PPO PPOFacts PPOMore.

Local Open Scope nat_scope.

(** *** Indexing *)

Lemma py_item_in_range {A} (l : list A) (i : Z) :
  (- Z.of_nat (length l) ≤ i < Z.of_nat (length l))%Z →
  ∃ y, py_item l i = inr y
       ∧ l !! Z.to_nat (i mod Z.of_nat (length l)) = Some y.
Proof.
  intros Hi. unfold py_item, item.
  destruct (Z.ltb_spec i 0) as [Hneg|Hpos].
  - destruct (Z.ltb_spec (i + Z.of_nat (length l)) 0) as [|_]; [lia|].
    replace (i mod Z.of_nat (length l))%Z with (i + Z.of_nat (length l))%Z.
    + destruct (lookup_lt_is_Some_2 l (Z.to_nat (i + Z.of_nat (length l))))
        as [y Hy]; [lia|].
      exists y. by rewrite Hy.
    + apply (Z.mod_unique _ _ (-1)); lia.
  - destruct (Z.ltb_spec i 0) as [|_]; [lia|].
    rewrite Z.mod_small by lia.
    destruct (lookup_lt_is_Some_2 l (Z.to_nat i)) as [y Hy]; [lia|].
    exists y. by rewrite Hy.
Qed.

Lemma py_item_out_of_range {A} (l : list A) (i : Z) :
  ¬ (- Z.of_nat (length l) ≤ i < Z.of_nat (length l))%Z →
  py_item l i = inl IndexError.
Proof.
  intros Hi. unfold py_item, item.
  destruct (Z.ltb_spec i 0) as [Hneg|Hpos].
  - destruct (Z.ltb_spec (i + Z.of_nat (length l)) 0) as [|]; [done|lia].
  - destruct (Z.ltb_spec i 0) as [|_]; [lia|].
    rewrite lookup_ge_None_2 by lia. done.
Qed.

Lemma py_item_nat {A} (l : list A) (i : nat) :
  py_item l (Z.of_nat i) = item l i.
Proof.
  unfold py_item. destruct (Z.ltb_spec (Z.of_nat i) 0) as [|_]; [lia|].
  destruct (Z.ltb_spec (Z.of_nat i) 0) as [|_]; [lia|].
  by rewrite Nat2Z.id.
Qed.

Lemma gather_in_range {A} (l : list A) (inds : list Z) :
  Forall (λ i, (- Z.of_nat (length l) ≤ i < Z.of_nat (length l))%Z) inds →
  ∃ ys, gather l inds = inr ys
        ∧ Forall2 (λ i y, l !! Z.to_nat (i mod Z.of_nat (length l)) = Some y)
                  inds ys.
Proof.
  induction 1 as [|i inds Hi _ (ys & Hys & Hall)].
  - exists []. split; [done|constructor].
  - destruct (py_item_in_range l i Hi) as (y & Hy & Hl).
    exists (y :: ys). split; [|by constructor].
    cbn [gather]. rewrite Hy, Hys. done.
Qed.

(** Indexing with an array of ints returns one entry for each index, in the
    order of the indices and with negative indices counted from the end,
    when every index lies in [[-len, len)]; otherwise it raises
    [IndexError]. *)
Theorem gather_succeeds_iff_in_range {A} (l : list A) (inds : list Z) :
  let in_range (i : Z) :=
    (- Z.of_nat (length l) ≤ i < Z.of_nat (length l))%Z in
  (Forall in_range inds →
   ∃ ys, gather l inds = inr ys
         ∧ Forall2 (λ i y, l !! Z.to_nat (i mod Z.of_nat (length l)) = Some y)
                   inds ys)
  ∧ (¬ Forall in_range inds → gather l inds = inl IndexError).
Proof.
  intros in_range. split; [apply gather_in_range|].
  induction inds as [|i inds IH]; intros Hnot.
  - destruct Hnot. constructor.
  - cbn [gather].
    destruct (decide (in_range i)) as [Hi|Hi].
    + destruct (py_item_in_range l i Hi) as (y & -> & _).
      cbv [mbind result_bind]. rewrite IH; [done|].
      intros Hall. apply Hnot. by constructor.
    + by rewrite py_item_out_of_range.
Qed.

(** *** Action vocabulary *)

(** Every action index from 0 to the number of rewrite rules has a name:
    the name of the rule with that index, and ["end"] for the index after
    the last rule. *)
Theorem action_names_cover_actions {pattern : Type}
    (all_rules : list (string * (pattern * pattern))) (acts : list Z) :
  Forall (λ i, (0 ≤ i ≤ Z.of_nat (length all_rules))%Z) acts →
  names_of (action_names all_rules) acts
  = inr ((λ i, default "end"%string (all_rules.*1 !! Z.to_nat i)) <$> acts).
Proof.
  induction 1 as [|i acts Hi _ IH]; [done|].
  cbn [names_of fmap list_fmap]. rewrite IH.
  replace i with (Z.of_nat (Z.to_nat i)) at 1 by lia.
  rewrite py_item_nat. unfold item, action_names.
  destruct (decide (Z.to_nat i < length all_rules)) as [Hlt|Hge].
  - rewrite lookup_app_l by (rewrite length_fmap; lia).
    destruct (lookup_lt_is_Some_2 (all_rules.*1) (Z.to_nat i)) as [x Hx];
      [rewrite length_fmap; lia|].
    by rewrite Hx.
  - rewrite lookup_app_r by (rewrite length_fmap; lia).
    rewrite length_fmap.
    replace (Z.to_nat i - length all_rules) with 0 by lia.
    rewrite (lookup_ge_None_2 (all_rules.*1)) by (rewrite length_fmap; lia).
    done.
Qed.

(** *** Flattening *)

Lemma lookup_concat_uniform {A} (m : list (list A)) (n : nat) :
  Forall (λ r, length r = n) m →
  ∀ t e, e < n → concat m !! (t * n + e) = m !! t ≫= (.!! e).
Proof.
  induction 1 as [|r m Hr _ IH]; intros t e He; [done|].
  destruct t as [|t]; cbn [concat].
  - rewrite lookup_app_l by lia. done.
  - rewrite lookup_app_r by lia.
    replace (S t * n + e - length r) with (t * n + e) by lia.
    by apply IH.
Qed.

Lemma length_concat_uniform {A} (m : list (list A)) (n : nat) :
  Forall (λ r, length r = n) m → length (concat m) = length m * n.
Proof.
  induction 1 as [|r m Hr _ IH]; [done|].
  cbn [concat length]. rewrite length_app, IH. lia.
Qed.

(** A buffer of [num_steps] rows of [num_envs] entries is flattened row by
    row: the entry of step [t] and environment [e] gets the index
    [t * num_envs + e], and the flat array has [batch_size] entries. *)
Theorem flatten_row_major {A} (c : cli) (a : args) (m : list (list A))
    (t e : nat) :
  parse_args c = inr a →
  length m = T a → Forall (λ r, length r = E a) m →
  t < T a → e < E a →
  Z.of_nat (length (flatten m)) = batch_size a
  ∧ flatten m !! (t * E a + e) = m !! t ≫= (.!! e).
Proof.
  intros Hparse Hlen Hrows Ht He. split.
  - unfold flatten. rewrite (length_concat_uniform m (E a)), Hlen by done.
    unfold parse_args in Hparse.
    destruct (floordiv (num_envs c * num_steps c) (num_minibatches c))
      as [|mb]; [done|].
    injection Hparse as <-. unfold T, E in *. cbn in *. lia.
  - by apply lookup_concat_uniform.
Qed.

(** *** Step counter *)

Lemma foldl_count {A} (c : Z) (l : list A) (g : Z) :
  foldl (λ g _, (g + c)%Z) g l = (g + Z.of_nat (length l) * c)%Z.
Proof.
  revert g. induction l as [|x l IH]; intros g; cbn [foldl length]; [lia|].
  rewrite IH. lia.
Qed.

Lemma count_rollout_eq (a : args) (g : Z) :
  count_rollout a g
  = (g + Z.of_nat (T a) * num_envs (opts a))%Z.
Proof.
  unfold count_rollout.
  rewrite (foldl_count (1 * num_envs (opts a)) (seq 0 (T a)) g), length_seq.
  lia.
Qed.

(** The run makes [total_timesteps // batch_size] rollouts, and with
    positive sizes [global_step] ends at that number times [batch_size]:
    the largest multiple of the batch size within [total_timesteps]. *)
Theorem global_step_budget (c : cli) (a : args) (n : Z) :
  startup c = inr (a, n) →
  (0 < num_envs c)%Z → (0 < num_steps c)%Z → (0 ≤ total_timesteps c)%Z →
  let g := global_step_after a (Z.to_nat n) in
  g = (n * batch_size a)%Z
  ∧ (g ≤ total_timesteps c < g + batch_size a)%Z.
Proof.
  intros Hstart Henvs Hsteps Htotal g.
  unfold startup, parse_args in Hstart.
  destruct (floordiv (num_envs c * num_steps c) (num_minibatches c))
    as [|mb]; [done|].
  cbv [mbind result_bind mret result_ret num_updates floordiv] in Hstart.
  cbn [opts batch_size] in Hstart.
  destruct (Z.eqb_spec (num_envs c * num_steps c) 0) as [|_]; [lia|].
  injection Hstart as <- <-. cbn [batch_size].
  assert (Hg : ∀ k, global_step_after
                      {| opts := c; batch_size := num_envs c * num_steps c;
                         minibatch_size := mb |} k
                    = (Z.of_nat k * (num_envs c * num_steps c))%Z).
  { intros k. unfold global_step_after.
    assert (Hgen : ∀ (l : list nat) g0,
               foldl (λ g _, count_rollout
                        {| opts := c; batch_size := num_envs c * num_steps c;
                           minibatch_size := mb |} g) g0 l
               = (g0 + Z.of_nat (length l) * (num_envs c * num_steps c))%Z).
    { induction l as [|x l IH]; intros g0; cbn [foldl length]; [lia|].
      rewrite IH, count_rollout_eq. unfold T. cbn [opts]. lia. }
    rewrite Hgen, length_seq. lia. }
  subst g. rewrite Hg.
  assert (0 ≤ total_timesteps c / (num_envs c * num_steps c))%Z
    by (apply Z.div_pos; lia).
  rewrite Z2Nat.id by done.
  pose proof (Z.mul_div_le (total_timesteps c) (num_envs c * num_steps c)).
  pose proof (Z.mul_succ_div_gt (total_timesteps c)
                                (num_envs c * num_steps c)).
  split; [done|]. lia.
Qed.

(** *** Learning rate *)

Lemma Q2Qc_inject_Z (z : Z) : Q2Qc (inject_Z z) = Qc_of_Z z.
Proof. apply Qc_is_canon. simpl. apply Qred_correct. Qed.


(** *** Rollout *)

(** A loop that writes slot [t] of a buffer in pass [t]. *)
Lemma fold_record {S A} (body : S → nat → S) (buf : S → list A)
    (val : S → A) :
  (∀ s t, buf (body s t) = record (buf s) t (val s)) →
  ∀ n s, n ≤ length (buf s) →
    length (buf (foldl body s (seq 0 n))) = length (buf s)
    ∧ (∀ t, t < n →
         buf (foldl body s (seq 0 n)) !! t
         = Some (val (foldl body s (seq 0 t))))
    ∧ (∀ t, n ≤ t → buf (foldl body s (seq 0 n)) !! t = buf s !! t).
Proof.
  intros Hbody n s. induction n as [|n IH]; intros Hn.
  - split; [done|]. split; [|done]. intros t Ht. lia.
  - destruct IH as (Hlen & Hlo & Hhi); [lia|].
    rewrite seq_S, foldl_app. cbn [foldl plus]. rewrite Hbody.
    unfold record. split; [by rewrite length_insert|]. split.
    + intros t Ht. destruct (decide (t = n)) as [->|Hne].
      * rewrite list_lookup_insert_eq by lia. done.
      * rewrite list_lookup_insert_ne by done. apply Hlo. lia.
    + intros t Ht. rewrite list_lookup_insert_ne by lia. apply Hhi. lia.
Qed.

Section Rollout.

Context {observation world : Type}.
Variable sample_action_and_value :
world → observation → (list Z * vec * vec) * world.
Variable step_envs : world → list Z → (observation * vec * vec) * world.
Variable a : args.

Local Abbreviation rollout_body :=
(rollout_body sample_action_and_value step_envs a).
Local Abbreviation rollout := (rollout sample_action_and_value step_envs a).
Local Abbreviation before_step :=
(before_step sample_action_and_value step_envs a).
Local Abbreviation chosen := (chosen sample_action_and_value).
Local Abbreviation stepped := (stepped sample_action_and_value step_envs).

Lemma rollout_body_fields (st : @rollout_state observation world) step :
obs (rollout_body st step) = record (obs st) step (Some (next_obs st))
∧ dones (rollout_body st step) = record (dones st) step (next_done st)
∧ values (rollout_body st step) = record (values st) step (chosen st).2
∧ actions (rollout_body st step) = record (actions st) step (chosen st).1.1
∧ logprobs (rollout_body st step)
  = record (logprobs st) step (chosen st).1.2
∧ rewards (rollout_body st step) = record (rewards st) step (stepped st).1.2
∧ next_obs (rollout_body st step) = (stepped st).1.1
∧ next_done (rollout_body st step) = (stepped st).2
∧ global_step (rollout_body st step)
  = (global_step st + num_envs (opts a))%Z.
Proof.
unfold PPOMore.rollout_body, PPOMore.stepped. unfold PPOMore.chosen.
destruct (sample_action_and_value (outside st) (next_obs st))
  as [[[action logprob] value] w].
cbn [fst snd].
destruct (step_envs w action) as [[[o r] d] w'].
cbn [obs dones values actions logprobs rewards next_obs next_done
     global_step fst snd].
repeat split. lia.
Qed.

Lemma before_step_S (st : @rollout_state observation world) t :
before_step st (S t) = rollout_body (before_step st t) t.
Proof. unfold PPOMore.before_step. by rewrite seq_S, foldl_app. Qed.

Lemma allocated_lengths (st : @rollout_state observation world) :
allocated a st = true →
length (obs st) = T a ∧ length (actions st) = T a
∧ length (logprobs st) = T a ∧ length (rewards st) = T a
∧ length (dones st) = T a ∧ length (values st) = T a.
Proof.
unfold allocated. rewrite !andb_true_iff, !Nat.eqb_eq. tauto.
Qed.

(** A rollout overwrites every slot of the six buffers: slot [t] holds the
  observation and the done flags that step [t] started from, the action,
  log-probability and value that the agent gave for that observation, and
  the reward of the environment step taken with that action. *)
Theorem rollout_fills_buffers (st : @rollout_state observation world)
  (t : nat) :
allocated a st = true → t < T a →
let st' := rollout st in
let pre := before_step st t in
obs st' !! t = Some (Some (next_obs pre))
∧ dones st' !! t = Some (next_done pre)
∧ actions st' !! t = Some (chosen pre).1.1
∧ logprobs st' !! t = Some (chosen pre).1.2
∧ values st' !! t = Some (chosen pre).2
∧ rewards st' !! t = Some (stepped pre).1.2.
Proof.
intros Halloc Ht st' pre.
destruct (allocated_lengths st Halloc) as (Ho & Ha & Hl & Hr & Hd & Hv).
subst st' pre. unfold PPOMore.rollout, PPOMore.before_step.
repeat split.
- eapply (fold_record rollout_body obs (λ s, Some (next_obs s)));
    [intros s k; apply rollout_body_fields|lia|done].
- eapply (fold_record rollout_body dones next_done);
    [intros s k; apply rollout_body_fields|lia|done].
- eapply (fold_record rollout_body actions (λ s, (chosen s).1.1));
    [intros s k; apply rollout_body_fields|lia|done].
- eapply (fold_record rollout_body logprobs (λ s, (chosen s).1.2));
    [intros s k; apply rollout_body_fields|lia|done].
- eapply (fold_record rollout_body values (λ s, (chosen s).2));
    [intros s k; apply rollout_body_fields|lia|done].
- eapply (fold_record rollout_body rewards (λ s, (stepped s).1.2));
    [intros s k; apply rollout_body_fields|lia|done].
Qed.

(** The mask that the advantage loops use at step [t] comes from the done
  flags that the environment step taken at [t] returned: they are stored
  one slot later, and those of the last step are left in [next_done]. *)
Theorem nextnonterminal_of_rollout (st : @rollout_state observation world)
  (t : nat) :
allocated a st = true → t < T a →
let st' := rollout st in
nextnonterminal a (dones st') (next_done st') t
= (λ d, (1 - d)%Qc) <$> (stepped (before_step st t)).2.
Proof.
intros Halloc Ht st'.
destruct (allocated_lengths st Halloc) as (_ & _ & _ & _ & Hd & _).
unfold nextnonterminal. rewrite is_last_spec by done.
assert (Hnext : next_done (before_step st (S t))
                = (stepped (before_step st t)).2).
{ rewrite before_step_S. apply rollout_body_fields. }
case_bool_decide as Hlast; f_equal.
- subst st'. unfold PPOMore.rollout. rewrite <- Hlast. exact Hnext.
- unfold row. replace (t + 1) with (S t) by lia.
  subst st'. unfold PPOMore.rollout.
  destruct (fold_record rollout_body dones next_done) with (n := T a) (s := st)
    as (_ & Hlo & _); [intros s k; apply rollout_body_fields|lia|].
  rewrite Hlo by lia. exact Hnext.
Qed.

End Rollout.

(** *** Minibatches *)

Lemma py_slice_nonneg {A} (l : list A) (lo hi : Z) :
  (0 ≤ lo ≤ hi)%Z →
  py_slice l lo hi = take (Z.to_nat hi - Z.to_nat lo) (drop (Z.to_nat lo) l).
Proof.
  intros H. unfold py_slice, slice_index.
  destruct (Z.ltb_spec lo 0) as [|_]; [lia|].
  destruct (Z.ltb_spec hi 0) as [|_]; [lia|].
  destruct (decide (lo ≤ Z.of_nat (length l))%Z) as [Hlo|Hlo].
  - rewrite (Z.min_l lo) by done.
    destruct (decide (hi ≤ Z.of_nat (length l))%Z) as [Hhi|Hhi].
    + rewrite Z.min_l by done. f_equal. lia.
    + rewrite Z.min_r by lia. rewrite !take_ge; [done| |];
        rewrite length_drop; lia.
  - rewrite !Z.min_r by lia. rewrite Nat2Z.id.
    rewrite !drop_ge by lia. by rewrite !take_nil.
Qed.

Lemma concat_chunks {A} (l : list A) (m k : nat) :
  concat ((λ i, take m (drop (i * m) l)) <$> seq 0 k) = take (k * m) l.
Proof.
  induction k as [|k IH]; [done|].
  rewrite seq_S, fmap_app, concat_app, IH. cbn [fmap list_fmap concat plus].
  rewrite app_nil_r, take_take_drop. f_equal. lia.
Qed.

Lemma py_range_minibatches (a : args) :
  (0 < minibatch_size a)%Z →
  py_range 0 (batch_size a) (minibatch_size a)
  = inr ((λ i, (0 + Z.of_nat i * minibatch_size a)%Z)
           <$> seq 0 (minibatches_per_epoch a)).
Proof.
  intros Hm. unfold py_range, minibatches_per_epoch.
  destruct (Z.eqb_spec (minibatch_size a) 0) as [|_]; [lia|].
  destruct (Z.ltb_spec 0 (minibatch_size a)) as [_|]; [|lia].
  by rewrite Z.sub_0_r.
Qed.

Lemma minibatches_cover (a : args) :
  (0 < minibatch_size a)%Z →
  Z.to_nat (batch_size a)
  ≤ minibatches_per_epoch a * Z.to_nat (minibatch_size a).
Proof.
  intros Hm. unfold minibatches_per_epoch.
  destruct (decide (0 < batch_size a)%Z) as [Hb|Hb]; [|lia].
  pose proof (Z.mul_succ_div_gt (batch_size a + minibatch_size a - 1)
                                (minibatch_size a) Hm) as Hgt.
  assert (0 ≤ (batch_size a + minibatch_size a - 1) / minibatch_size a)%Z
    by (apply Z.div_pos; lia).
  nia.
Qed.

Lemma minibatches_needed (a : args) (i : nat) :
  (0 < minibatch_size a)%Z → i < minibatches_per_epoch a →
  i * Z.to_nat (minibatch_size a) < Z.to_nat (batch_size a).
Proof.
  intros Hm Hi. unfold minibatches_per_epoch in Hi.
  pose proof (Z.mul_div_le (batch_size a + minibatch_size a - 1)
                           (minibatch_size a) Hm) as Hle.
  assert (Z.of_nat i + 1
          ≤ (batch_size a + minibatch_size a - 1) / minibatch_size a)%Z
    by lia.
  nia.
Qed.

Lemma minibatch_indices_chunks (a : args) (inds : list Z) :
  (0 < minibatch_size a)%Z →
  minibatch_indices a inds
    ((λ i, (0 + Z.of_nat i * minibatch_size a)%Z)
       <$> seq 0 (minibatches_per_epoch a))
  = (λ i, take (Z.to_nat (minibatch_size a))
               (drop (i * Z.to_nat (minibatch_size a)) inds))
      <$> seq 0 (minibatches_per_epoch a).
Proof.
  intros Hm. unfold minibatch_indices. rewrite <- list_fmap_compose.
  apply list_fmap_ext. intros _ i _. cbn [compose].
  rewrite py_slice_nonneg by lia. f_equal; [lia|]. f_equal. lia.
Qed.

(** The minibatches of an epoch partition the index array: the slices
    [b_inds[start:start + minibatch_size]] over
    [range(0, batch_size, minibatch_size)] are non-empty, have at most
    [minibatch_size] entries and, put end to end, give [b_inds] back, so
    that a batch size that the minibatch size does not divide adds one
    shorter minibatch. *)
Theorem minibatches_partition_indices (a : args) (b_inds : list Z) :
  (0 < minibatch_size a)%Z → Z.of_nat (length b_inds) = batch_size a →
  ∃ starts,
    py_range 0 (batch_size a) (minibatch_size a) = inr starts
    ∧ Z.of_nat (length starts)
      = ((batch_size a + minibatch_size a - 1) / minibatch_size a)%Z
    ∧ concat (minibatch_indices a b_inds starts) = b_inds
    ∧ Forall (λ mb_inds : list Z,
                (0 < Z.of_nat (length mb_inds) ≤ minibatch_size a)%Z)
             (minibatch_indices a b_inds starts).
Proof.
  intros Hm Hlen. eexists. split; [by apply py_range_minibatches|].
  split; [|split].
  - rewrite length_fmap, length_seq. unfold minibatches_per_epoch.
    rewrite Z2Nat.id; [done|]. apply Z.div_pos; lia.
  - rewrite minibatch_indices_chunks, concat_chunks by done.
    apply take_ge. pose proof (minibatches_cover a Hm). lia.
  - rewrite minibatch_indices_chunks by done.
    apply Forall_fmap, Forall_seq. intros i Hi. cbn [compose].
    rewrite length_take, length_drop.
    pose proof (minibatches_needed a i Hm). lia.
Qed.

(** *** Gathering over a permutation *)

Lemma gather_app {A} (l : list A) (inds1 inds2 : list Z) ys1 ys2 :
  gather l inds1 = inr ys1 → gather l inds2 = inr ys2 →
  gather l (inds1 ++ inds2) = inr (ys1 ++ ys2).
Proof.
  revert ys1. induction inds1 as [|i inds1 IH]; intros ys1 H1 H2.
  - injection H1 as <-. done.
  - cbn [app gather] in *. destruct (py_item l i) as [|y]; [done|].
    cbv [mbind result_bind mret result_ret] in *.
    destruct (gather l inds1) as [|ys]; [done|].
    injection H1 as <-. by rewrite (IH ys).
Qed.

Lemma gather_concat {A} (l : list A) (chunks : list (list Z)) yss :
  Forall2 (λ mb_inds ys, gather l mb_inds = inr ys) chunks yss →
  gather l (concat chunks) = inr (concat yss).
Proof.
  induction 1 as [|mb_inds ys chunks yss Hg _ IH]; [done|].
  cbn [concat]. by apply gather_app.
Qed.

Lemma gather_lookup {A} (l : list A) (inds : list Z) ys :
  gather l inds = inr ys → Forall (λ i, (0 ≤ i)%Z) inds →
  Some <$> ys = (λ i, l !! Z.to_nat i) <$> inds.
Proof.
  revert ys. induction inds as [|i inds IH]; intros ys Hg Hpos.
  - injection Hg as <-. done.
  - apply Forall_cons_1 in Hpos as [Hi Hpos].
    cbn [gather] in Hg. unfold py_item in Hg.
    destruct (Z.ltb_spec i 0) as [|_]; [lia|].
    destruct (Z.ltb_spec i 0) as [|_]; [lia|].
    unfold item in Hg. destruct (l !! Z.to_nat i) as [y|] eqn:Hy; [|done].
    cbv [mbind result_bind mret result_ret of_option] in Hg.
    destruct (gather l inds) as [|ys']; [done|].
    injection Hg as <-. cbn [fmap list_fmap]. rewrite Hy. f_equal.
    by apply IH.
Qed.

Lemma lookup_arange {A} (l : list A) :
  (λ i, l !! Z.to_nat i) <$> arange (Z.of_nat (length l)) = Some <$> l.
Proof.
  unfold arange. rewrite Nat2Z.id. apply list_eq. intros i.
  rewrite <- list_fmap_compose, !list_lookup_fmap.
  destruct (decide (i < length l)) as [Hi|Hi].
  - rewrite lookup_seq_lt by done. cbn. rewrite Nat2Z.id.
    destruct (lookup_lt_is_Some_2 l i Hi) as [x Hx]. by rewrite Hx.
  - rewrite lookup_seq_ge, lookup_ge_None_2 by lia. done.
Qed.

Lemma arange_nonneg (n : Z) : Forall (λ i, (0 ≤ i < n)%Z) (arange n).
Proof.
  unfold arange. apply Forall_fmap, Forall_seq. intros i Hi. cbn. lia.
Qed.

Lemma gather_permutation {A} (l : list A) (inds : list Z) ys :
  gather l inds = inr ys → inds ≡ₚ arange (Z.of_nat (length l)) → ys ≡ₚ l.
Proof.
  intros Hg Hperm.
  assert (Hpos : Forall (λ i, (0 ≤ i)%Z) inds).
  { rewrite Hperm. eapply List.Forall_impl; [|apply arange_nonneg].
    intros i Hi. cbn in Hi. lia. }
  pose proof (gather_lookup l inds ys Hg Hpos) as Hys.
  assert (Hp : Some <$> ys ≡ₚ Some <$> l).
  { rewrite Hys, <- lookup_arange. by apply fmap_Permutation. }
  apply Permutation_map_inv in Hp as (l3 & Heq & Hl3).
  apply (inj (fmap Some)) in Heq. subst l3. by symmetry.
Qed.

Lemma py_item_zip {A B} (l : list A) (k : list B) (i : Z) y z :
  length l = length k →
  py_item l i = inr y → py_item k i = inr z →
  py_item (zip l k) i = inr (y, z).
Proof.
  intros Hlen. unfold py_item. rewrite length_zip, <- Hlen, Nat.min_id.
  set (j := if (i <? 0)%Z then (i + Z.of_nat (length l))%Z else i).
  destruct (j <? 0)%Z; [done|]. unfold item.
  rewrite lookup_zip_with.
  destruct (l !! Z.to_nat j); [|done]. destruct (k !! Z.to_nat j); [|done].
  by intros [= ->] [= ->].
Qed.

Lemma gather_zip {A B} (l : list A) (k : list B) (inds : list Z) ys zs :
  length l = length k →
  gather l inds = inr ys → gather k inds = inr zs →
  gather (zip l k) inds = inr (zip ys zs).
Proof.
  intros Hlen. revert ys zs.
  induction inds as [|i inds IH]; intros ys zs Hy Hz.
  - injection Hy as <-. done.
  - cbn [gather] in *.
    destruct (py_item l i) as [|y] eqn:Ey; [done|].
    destruct (py_item k i) as [|z] eqn:Ez; [done|].
    rewrite (py_item_zip l k i y z Hlen Ey Ez).
    cbv [mbind result_bind mret result_ret] in *.
    destruct (gather l inds) as [|ys']; [done|].
    destruct (gather k inds) as [|zs']; [done|].
    injection Hy as <-. injection Hz as <-.
    by rewrite (IH ys' zs' eq_refl eq_refl).
Qed.

(** *** Epochs *)

Section Epochs.

Context {obs policy rng : Type}.
Variable shuffle : rng → list Z → list Z * rng.
Variable get_action_and_value : policy → list obs → list Z → vec * vec * vec.
Variable optimizer_step : policy → minibatch obs → policy.
Variable exp : Qc → Qc.
Variable std : vec → Qc.
Variable a : args.
Variable b : batch obs.

Local Abbreviation select := (select std a b).
Local Abbreviation forward := (forward get_action_and_value exp a).
Local Abbreviation minibatch_body :=
(minibatch_body get_action_and_value optimizer_step exp std a b).
Local Abbreviation minibatch_loop :=
(minibatch_loop get_action_and_value optimizer_step exp std a b).
Local Abbreviation epoch_body :=
(epoch_body shuffle get_action_and_value optimizer_step exp std a b).
Local Abbreviation kl_break := (@kl_break obs policy rng a).
Local Abbreviation epochs :=
(epochs shuffle get_action_and_value optimizer_step exp std a b).
Local Abbreviation update :=
(update shuffle get_action_and_value optimizer_step exp std a b).

Lemma select_inr (mb_inds : list Z) (mb : minibatch obs) :
select mb_inds = inr mb →
gather (b_obs b) mb_inds = inr (mb_obs mb)
∧ gather (b_actions b) mb_inds = inr (mb_actions mb)
∧ gather (b_logprobs b) mb_inds = inr (mb_logprobs mb)
∧ gather (b_returns b) mb_inds = inr (mb_returns mb)
∧ gather (b_values b) mb_inds = inr (mb_values mb).
Proof.
unfold PPO.select. cbv [mbind result_bind mret result_ret].
destruct (gather (b_obs b) mb_inds) as [|o]; [done|].
destruct (gather (b_actions b) mb_inds) as [|ac]; [done|].
destruct (gather (b_logprobs b) mb_inds) as [|lp]; [done|].
destruct (gather (b_advantages b) mb_inds) as [|ad]; [done|].
destruct (gather (b_returns b) mb_inds) as [|r]; [done|].
destruct (gather (b_values b) mb_inds) as [|v]; [done|].
intros [= <-]. done.
Qed.

(** With a zero minibatch size, which [parse_args] computes when there are
  more minibatches than samples, the first epoch fails: [range] raises
  [ValueError] for a zero step. *)
Theorem update_fails_on_empty_minibatches (c : cli)
  (st : @ustate obs policy rng) :
parse_args c = inr a →
(0 ≤ num_envs c * num_steps c < num_minibatches c)%Z →
(0 < update_epochs c)%Z →
minibatch_size a = 0%Z ∧ update st = inl ValueError.
Proof.
intros Hparse Hsmall Hepochs. unfold parse_args, floordiv in Hparse.
destruct (Z.eqb_spec (num_minibatches c) 0) as [|_]; [lia|].
injection Hparse as <-. cbn [minibatch_size]. rewrite Z.div_small by done.
split; [done|]. unfold PPO.update. cbn [opts batch_size].
destruct (Z.to_nat (update_epochs c)) as [|n] eqn:Hn; [lia|].
cbn [PPO.epochs]. unfold PPO.epoch_body. cbn [gen b_inds].
destruct (shuffle _ _) as [inds g]. done.
Qed.

Hypothesis shuffle_permutes : ∀ g l, (shuffle g l).1 ≡ₚ l.
Hypothesis minibatch_size_positive : (0 < minibatch_size a)%Z.
Hypothesis complete : batch_complete a b = true.

Lemma batch_lengths :
length (b_obs b) = Z.to_nat (batch_size a)
∧ length (b_logprobs b) = Z.to_nat (batch_size a)
∧ length (b_actions b) = Z.to_nat (batch_size a)
∧ length (b_advantages b) = Z.to_nat (batch_size a)
∧ length (b_returns b) = Z.to_nat (batch_size a)
∧ length (b_values b) = Z.to_nat (batch_size a).
Proof.
pose proof complete as H. unfold batch_complete in H.
rewrite !andb_true_iff, !Nat.eqb_eq in H. tauto.
Qed.

Lemma select_in_range (mb_inds : list Z) :
Forall (λ i, (0 ≤ i < batch_size a)%Z) mb_inds →
∃ mb, select mb_inds = inr mb.
Proof.
intros Hin. destruct batch_lengths as (Ho & Hl & Hac & Had & Hr & Hv).
assert (Hg : ∀ {A} (l : list A), length l = Z.to_nat (batch_size a) →
             ∃ ys, gather l mb_inds = inr ys).
{ intros A l Hlen. destruct (gather_in_range l mb_inds) as (ys & Hys & _).
  - eapply List.Forall_impl; [|exact Hin]. intros i Hi. cbn in Hi. lia.
  - by exists ys. }
destruct (Hg _ _ Ho) as (o & Eo). destruct (Hg _ _ Hl) as (lp & El).
destruct (Hg _ _ Hac) as (ac & Eac). destruct (Hg _ _ Had) as (ad & Ead).
destruct (Hg _ _ Hr) as (r & Er). destruct (Hg _ _ Hv) as (v & Ev).
unfold PPO.select. rewrite Eo, Eac, El, Ead, Er, Ev.
cbv [mbind result_bind mret result_ret]. eauto.
Qed.

Lemma minibatch_loop_runs (starts : list Z) :
∀ st : @ustate obs policy rng,
Forall (λ i, (0 ≤ i < batch_size a)%Z) (b_inds st) →
Forall (λ start, (0 ≤ start)%Z) starts →
∃ st', minibatch_loop st starts = inr st'.
Proof.
induction starts as [|start starts IH]; intros st Hinds Hstarts.
- by exists st.
- apply Forall_cons_1 in Hstarts as [Hstart Hstarts].
  destruct (select_in_range
              (py_slice (b_inds st) start (start + minibatch_size a)))
    as (mb & Hmb).
  { rewrite py_slice_nonneg by lia. by apply Forall_take, Forall_drop. }
  cbn [PPO.minibatch_loop]. unfold PPO.minibatch_body. rewrite Hmb.
  cbv [mbind result_bind mret result_ret].
  by apply IH.
Qed.

(** What one epoch does when the index array is a permutation of
  [arange(batch_size)]. *)
Lemma epoch_body_runs (st : @ustate obs policy rng) :
b_inds st ≡ₚ arange (batch_size a) →
∃ st' mbs,
  epoch_body st = inr st'
  ∧ b_inds st' ≡ₚ arange (batch_size a)
  ∧ applied st' = applied st ++ mbs
  ∧ length mbs = minibatches_per_epoch a
  ∧ (0 < minibatches_per_epoch a → is_Some (last st'))
  ∧ Forall2 (λ mb_inds mb, select mb_inds = inr mb)
            (minibatch_indices a (shuffle (gen st) (b_inds st)).1
               ((λ i, (0 + Z.of_nat i * minibatch_size a)%Z)
                  <$> seq 0 (minibatches_per_epoch a)))
            mbs.
Proof.
intros Hperm. unfold PPO.epoch_body.
pose proof (shuffle_permutes (gen st) (b_inds st)) as Hsh.
destruct (shuffle (gen st) (b_inds st)) as [inds g]. cbn [fst] in *.
rewrite py_range_minibatches by done. cbv [mbind result_bind].
set (starts := (λ i, (0 + Z.of_nat i * minibatch_size a)%Z)
                 <$> seq 0 (minibatches_per_epoch a)).
set (st0 := {| agent := agent st; b_inds := inds; gen := g;
               last := last st; applied := applied st |}).
assert (Hinds : inds ≡ₚ arange (batch_size a)) by by rewrite Hsh.
destruct (minibatch_loop_runs starts st0) as (st' & Hrun).
{ cbn [b_inds st0]. rewrite Hinds. apply arange_nonneg. }
{ apply Forall_fmap, Forall_seq. intros i Hi. cbn. lia. }
exists st'.
destruct (minibatch_loop_applied get_action_and_value optimizer_step exp
            std a b starts st0 st' Hrun) as (Hb & mbs & Hall & Happ).
exists mbs. split; [done|]. cbn [b_inds applied st0] in *.
split; [by rewrite Hb|]. split; [done|].
split; [|split].
- apply Forall2_length in Hall. rewrite <- Hall.
  unfold starts. by rewrite length_fmap, length_seq.
- intros Hpos. unfold starts in Hrun.
  destruct (minibatches_per_epoch a) as [|k]; [lia|].
  rewrite seq_S, fmap_app in Hrun. cbn [fmap list_fmap] in Hrun.
  destruct (minibatch_loop_last get_action_and_value optimizer_step exp
              std a b _ _ st0 st' Hrun) as (agent_prev & mb & _ & Hlast).
  by rewrite Hlast.
- unfold minibatch_indices. by apply Forall2_fmap_l.
Qed.

Lemma select_samples (mb_inds : list Z) (mb : minibatch obs) :
select mb_inds = inr mb →
gather (batch_samples b) mb_inds = inr (minibatch_samples mb).
Proof.
intros (Ho & Hac & Hl & Hr & Hv)%select_inr.
destruct batch_lengths as (Lo & Ll & Lac & _ & Lr & Lv).
unfold batch_samples, minibatch_samples, samples.
repeat (apply gather_zip; [rewrite ?length_zip; lia|done|]).
done.
Qed.

(** Every epoch trains on every sample once: it succeeds, it applies one
  gradient step for each minibatch of its range, each minibatch is the
  selection of the batch at a list of indices, these lists put end to end
  are a permutation of [arange(batch_size)], and so the samples of the
  minibatches, each an observation with its action, old log-probability,
  return and old value, are the samples of the batch, each once. *)
Theorem epoch_uses_every_sample_once (st : @ustate obs policy rng) :
Z.of_nat (length (b_inds st)) = batch_size a →
b_inds st ≡ₚ arange (batch_size a) →
∃ st' mbs chunks,
  epoch_body st = inr st'
  ∧ applied st' = applied st ++ mbs
  ∧ Z.of_nat (length mbs)
    = ((batch_size a + minibatch_size a - 1) / minibatch_size a)%Z
  ∧ Forall2 (λ mb_inds mb, select mb_inds = inr mb) chunks mbs
  ∧ concat chunks ≡ₚ arange (batch_size a)
  ∧ concat (minibatch_samples <$> mbs) ≡ₚ batch_samples b.
Proof.
intros Hlen Hperm.
destruct (epoch_body_runs st Hperm)
  as (st' & mbs & Hrun & _ & Happ & Hcount & _ & Hall).
pose proof (shuffle_permutes (gen st) (b_inds st)) as Hsh.
set (inds := (shuffle (gen st) (b_inds st)).1) in *.
set (chunks := minibatch_indices a inds
                 ((λ i, (0 + Z.of_nat i * minibatch_size a)%Z)
                    <$> seq 0 (minibatches_per_epoch a))) in *.
exists st', mbs, chunks. split; [done|]. split; [done|]. split.
{ rewrite Hcount. unfold minibatches_per_epoch.
  rewrite Z2Nat.id; [done|]. apply Z.div_pos; lia. }
split; [done|].
assert (Hinds_len : Z.of_nat (length inds) = batch_size a).
{ by rewrite (Permutation_length Hsh). }
assert (Hcat : concat chunks = inds).
{ unfold chunks. rewrite minibatch_indices_chunks, concat_chunks by done.
  apply take_ge. pose proof (minibatches_cover a minibatch_size_positive).
  lia. }
split; [by rewrite Hcat, Hsh|].
destruct batch_lengths as (Lo & Ll & Lac & _ & Lr & Lv).
apply (gather_permutation (batch_samples b) inds).
- rewrite <- Hcat. apply gather_concat. apply Forall2_fmap_r.
  eapply List.Forall2_impl; [|exact Hall].
  intros mb_inds mb Hs. cbn [compose]. by apply select_samples.
- replace (length (batch_samples b)) with (Z.to_nat (batch_size a)).
  + rewrite Z2Nat.id by lia. by rewrite Hsh.
  + unfold batch_samples, samples. rewrite !length_zip. lia.
Qed.

Hypothesis batch_size_positive : (0 < batch_size a)%Z.

Lemma minibatches_per_epoch_positive : 0 < minibatches_per_epoch a.
Proof.
pose proof (minibatches_cover a minibatch_size_positive). nia.
Qed.

Lemma epochs_run (n : nat) :
∀ st : @ustate obs policy rng,
b_inds st ≡ₚ arange (batch_size a) →
∃ st' k,
  epochs n st = inr st'
  ∧ k ≤ n ∧ (0 < n → 0 < k)
  ∧ (target_kl (opts a) = None → k = n)
  ∧ length (applied st')
    = length (applied st) + k * minibatches_per_epoch a.
Proof.
induction n as [|n IH]; intros st Hperm.
- exists st, 0. repeat split; try done; lia.
- destruct (epoch_body_runs st Hperm)
    as (st1 & mbs & Hrun & Hperm1 & Happ & Hcount & Hlast & _).
  destruct (Hlast minibatches_per_epoch_positive) as [l Hl].
  cbn [PPO.epochs]. rewrite Hrun. cbv [mbind result_bind].
  assert (Hlen1 : length (applied st1)
                  = length (applied st) + minibatches_per_epoch a).
  { by rewrite Happ, length_app, Hcount. }
  destruct (IH st1 Hperm1) as (st' & k & Hrest & Hk & Hk0 & Hnone & Hlen).
  unfold PPO.kl_break.
  destruct (target_kl (opts a)) as [target|] eqn:Htarget.
  + rewrite Hl. cbv [of_option mbind result_bind mret result_ret].
    destruct (bool_decide (target < approx_kl l)%Qc).
    * exists st1, 1. split; [done|].
      repeat split; try done; try lia.
    * exists st', (S k). split; [done|].
      repeat split; try done; try lia.
  + exists st', (S k). split; [done|].
    repeat split; try lia. intros _. f_equal. by apply Hnone.
Qed.

(** The update of one rollout succeeds and applies the gradient steps of
  whole epochs only: of every epoch when no target KL is set, and of at
  least one epoch otherwise, each epoch counting one step for every
  minibatch of its range. *)
Theorem update_applies_whole_epochs (st : @ustate obs policy rng) :
∃ st' k,
  update st = inr st'
  ∧ k ≤ Z.to_nat (update_epochs (opts a))
  ∧ ((0 < update_epochs (opts a))%Z → 0 < k)
  ∧ (target_kl (opts a) = None → k = Z.to_nat (update_epochs (opts a)))
  ∧ length (applied st')
    = length (applied st)
      + k * Z.to_nat ((batch_size a + minibatch_size a - 1)
                      / minibatch_size a).
Proof.
unfold PPO.update.
set (st0 := {| agent := agent st;
               b_inds := Z.of_nat <$> seq 0 (Z.to_nat (batch_size a));
               gen := gen st; last := last st; applied := applied st |}).
destruct (epochs_run (Z.to_nat (update_epochs (opts a))) st0)
  as (st' & k & Hrun & Hk & Hk0 & Hnone & Hlen); [done|].
exists st', k. split; [done|]. split; [done|].
split; [intros; apply Hk0; lia|]. split; [done|]. exact Hlen.
Qed.

End Epochs.

(** *** Returns without GAE, and episode ends *)

Section Returns.

Variable a : args.
Variables rewards values dones : list vec.
Variables next_value next_done : vec.
Hypothesis shaped :
well_shaped a rewards values dones next_value next_done = true.

Local Abbreviation plain_returns :=
(plain_returns a rewards dones next_value next_done).
Local Abbreviation plain_advantages :=
(plain_advantages a rewards values dones next_value next_done).
Local Abbreviation gae_advantages :=
(gae_advantages a rewards values dones next_value next_done).
Local Abbreviation gae_returns :=
(gae_returns a rewards values dones next_value next_done).

(** The done flag that follows step [t]. *)
Local Abbreviation done_after t e :=
(if bool_decide (S t = T a) then at_env next_done e
 else entry dones (S t) e).

Lemma plain_returns_entry t e :
t < T a → e < E a →
entry plain_returns t e
= (entry rewards t e
   + gamma (opts a) * (1 - done_after t e)
     * (if bool_decide (S t = T a) then at_env next_value e
        else entry plain_returns (S t) e))%Qc.
Proof.
intros Ht He.
pose proof (shapes a rewards values dones next_value next_done shaped)
  as ([Hr _] & _).
unfold entry at 1, row. rewrite plain_returns_row by done. simpl.
replace (T a - t) with (S (T a - S t)) by lia.
rewrite (at_return_after a rewards values dones next_value next_done shaped)
  by lia.
replace (T a - S (T a - S t)) with t by lia.
rewrite (at_nextnonterminal a rewards values dones next_value next_done
           shaped) by done.
do 2 f_equal. case_bool_decide as Hl.
- by replace (T a - S t) with 0 by lia.
- unfold entry, row. rewrite plain_returns_row by (done || lia). done.
Qed.

Lemma plain_advantages_entry t e :
t < T a → e < E a →
entry plain_advantages t e
= (entry plain_returns t e - entry values t e)%Qc.
Proof.
intros Ht He.
pose proof (shapes a rewards values dones next_value next_done shaped)
  as ([Hr _] & [Hv Hvr] & _).
unfold PPO.plain_advantages, entry.
rewrite row_zip_with by (rewrite ?length_plain_returns; lia).
apply at_env_vsub; [|by rewrite Hvr].
unfold row. rewrite plain_returns_row by done. simpl.
rewrite (length_return_after a rewards values dones next_value next_done
           shaped); lia.
Qed.

Lemma gae_returns_entry t e :
t < T a → e < E a →
entry gae_returns t e
= (entry gae_advantages t e + entry values t e)%Qc.
Proof.
intros Ht He.
pose proof (shapes a rewards values dones next_value next_done shaped)
  as ([Hr _] & [Hv Hvr] & _).
unfold PPO.gae_returns, entry.
rewrite row_zip_with by (rewrite ?length_gae_advantages; lia).
apply at_env_vadd; [|by rewrite Hvr].
unfold row. rewrite gae_advantages_row by done. simpl.
rewrite (length_lastgaelam_after a rewards values dones next_value
           next_done shaped); lia.
Qed.

Lemma gae_advantages_at_end t e :
t < T a → e < E a → done_after t e = 1%Qc →
entry gae_advantages t e = (entry rewards t e - entry values t e)%Qc.
Proof.
intros Ht He Hdone.
rewrite (gae_advantages_entry a rewards values dones next_value next_done
           shaped t e Ht He).
rewrite (at_delta a rewards values dones next_value next_done shaped)
  by done.
rewrite (at_nextnonterminal a rewards values dones next_value next_done
           shaped) by done.
rewrite Hdone. ring.
Qed.

End Returns.

(** Without GAE the return of step [t] in environment [e] is the reward
    plus gamma times the return of the next step, which is dropped when the
    done flag that follows the step is set and is the bootstrap value after
    the last step; the advantage is the return minus the value. *)
Theorem plain_returns_recursion (a : args) (rewards values dones : list vec)
    (next_value next_done : vec) (t e : nat) :
  gae (opts a) = false →
  well_shaped a rewards values dones next_value next_done = true →
  t < T a → e < E a →
  let advantages :=
    (advantages_returns a rewards values dones next_value next_done).1 in
  let returns :=
    (advantages_returns a rewards values dones next_value next_done).2 in
  let last := bool_decide (S t = T a) in
  let nonterminal :=
    (1 - (if last then at_env next_done e else entry dones (S t) e))%Qc in
  let next_return :=
    if last then at_env next_value e else entry returns (S t) e in
  entry returns t e
  = (entry rewards t e + gamma (opts a) * nonterminal * next_return)%Qc
  ∧ entry advantages t e = (entry returns t e - entry values t e)%Qc.
Proof.
  intros Hgae Hshape Ht He. unfold advantages_returns. rewrite Hgae.
  cbn [fst snd]. cbv zeta. split.
  - by apply (plain_returns_entry a rewards values).
  - by apply plain_advantages_entry.
Qed.

(** Nothing is bootstrapped across the end of an episode: when the done
    flag that follows step [t] is 1 for environment [e], the advantage of
    that step is the reward minus the value, with GAE and without; the
    return is the reward without GAE, and with GAE the sum that the code
    forms of that advantage and the value. *)
Theorem episode_end_stops_bootstrap (a : args)
    (rewards values dones : list vec) (next_value next_done : vec)
    (t e : nat) :
  well_shaped a rewards values dones next_value next_done = true →
  t < T a → e < E a →
  (if bool_decide (S t = T a) then at_env next_done e
   else entry dones (S t) e) = 1%Qc →
  let advantages :=
    (advantages_returns a rewards values dones next_value next_done).1 in
  let returns :=
    (advantages_returns a rewards values dones next_value next_done).2 in
  entry advantages t e = (entry rewards t e - entry values t e)%Qc
  ∧ entry returns t e
    = (if gae (opts a)
       then entry rewards t e - entry values t e + entry values t e
       else entry rewards t e)%Qc.
Proof.
  intros Hshape Ht He Hdone. unfold advantages_returns.
  destruct (gae (opts a)); cbn [fst snd]; cbv zeta.
  - rewrite gae_returns_entry, gae_advantages_at_end by done. done.
  - rewrite plain_advantages_entry by done.
    rewrite (plain_returns_entry a rewards values) by done.
    rewrite Hdone. split; ring.
Qed.

(** *** Sums and means of rationals *)

Local Open Scope Qc_scope.

Ltac qc_to_q :=
  unfold Qcle, Qclt, Qcdiv, Qcminus, Qcopp, Qcplus, Qcmult, Qcinv in *;
  cbn [this Q2Qc] in *; repeat rewrite !Qred_correct in *.

Lemma square_nonneg (p : Qc) : 0 ≤ p * p.
Proof. qc_to_q. nra. Qed.

Lemma inv_nonneg (n : Qc) : 0 ≤ n → 0 ≤ / n.
Proof.
  intros [Hpos| <-]%Qcle_lt_or_eq.
  - by apply Qclt_le_weak, Qcinv_pos.
  - done.
Qed.

Lemma count_nonneg (n : nat) : 0 ≤ Q2Qc (inject_Z (Z.of_nat n)).
Proof.
  rewrite Q2Qc_inject_Z, <- Z2Qc_inj_0.
  apply (proj1 (Z2Qc_inj_le 0 (Z.of_nat n))). lia.
Qed.

Lemma sum_nonneg (v : vec) : Forall (λ p, 0 ≤ p) v → 0 ≤ sum v.
Proof.
  induction 1 as [|p v Hp _ IH]; [done|].
  cbn [sum foldr]. by apply Qcplus_nonneg_nonneg.
Qed.

Lemma sum_le (u v : vec) : Forall2 Qcle u v → sum u ≤ sum v.
Proof.
  induction 1 as [|p q u v Hpq _ IH]; [done|].
  cbn [sum foldr]. by apply Qcplus_le_compat.
Qed.

Lemma mean_nonneg (v : vec) : Forall (λ p, 0 ≤ p) v → 0 ≤ mean v.
Proof.
  intros Hv. unfold mean, Qcdiv.
  apply Qcmult_nonneg_nonneg; [by apply sum_nonneg|].
  apply inv_nonneg, count_nonneg.
Qed.

Lemma mean_le (u v : vec) : Forall2 Qcle u v → mean u ≤ mean v.
Proof.
  intros Huv. unfold mean, Qcdiv.
  assert (Hlen : length u = length v) by by eapply Forall2_length.
  rewrite Hlen.
  apply Qcmult_le_compat_r; [by apply sum_le|].
  apply inv_nonneg, count_nonneg.
Qed.

Lemma mean_zeros (v : vec) : Forall (λ p, p = 0) v → mean v = 0.
Proof.
  intros Hv. unfold mean, Qcdiv.
  replace (sum v) with 0; [by rewrite Qcmult_0_l|].
  induction Hv as [|p v -> _ IH]; [done|].
  cbn [sum foldr]. fold (sum v). by rewrite <- IH, Qcplus_0_l.
Qed.

(** *** Explained variance *)

Lemma var_nonneg (v : vec) : 0 ≤ var v.
Proof.
  unfold var, vsquare. apply mean_nonneg.
  apply Forall_fmap, Forall_fmap, Forall_true. intros p. cbn.
  apply square_nonneg.
Qed.

Lemma vsub_diag (v : vec) : Forall (λ p, p = 0) (vsub v v).
Proof.
  unfold vsub. induction v as [|p v IH]; [constructor|].
  cbn [zip_with]. constructor; [ring|done].
Qed.

Lemma var_zeros (v : vec) : Forall (λ p, p = 0) v → var v = 0.
Proof.
  intros Hz. unfold var, vsquare. rewrite (mean_zeros v Hz).
  apply mean_zeros. apply Forall_fmap, Forall_fmap.
  eapply List.Forall_impl; [|exact Hz]. intros p ->. cbn. ring.
Qed.

(** The explained variance, nan when the variance of the returns is 0, is
    otherwise at most 1, and when the values predict the returns exactly it
    is nan or 1. *)
Theorem explained_var_range (y_pred y_true : vec) :
  (∀ ev, explained_var y_pred y_true = Some ev → ev ≤ 1)
  ∧ (explained_var y_true y_true = None
     ∨ explained_var y_true y_true = Some 1).
Proof.
  unfold explained_var. split.
  - intros ev. case_decide as Hvar; [done|]. intros [= <-].
    assert (0 ≤ var (vsub y_true y_pred) / var y_true).
    { unfold Qcdiv. apply Qcmult_nonneg_nonneg; [apply var_nonneg|].
      apply inv_nonneg, var_nonneg. }
    qc_to_q. lra.
  - case_decide as Hvar; [by left|]. right. f_equal.
    rewrite (var_zeros _ (vsub_diag y_true)). unfold Qcdiv. ring.
Qed.

(** *** Losses *)

Lemma qmax_ge_l (p q : Qc) : p ≤ qmax p q.
Proof. unfold qmax. case_decide; [done|apply Qcle_refl]. Qed.

Lemma qmax_same (p : Qc) : qmax p p = p.
Proof. unfold qmax. by case_decide. Qed.

Lemma clamp_inside (lo hi r : Qc) :
  lo ≤ r → r ≤ hi → qmin (qmax r lo) hi = r.
Proof.
  intros Hlo Hhi. unfold qmax, qmin.
  destruct (decide (r ≤ lo)) as [Hle|_].
  - assert (lo = r) as -> by by apply Qcle_antisym.
    by case_decide.
  - by case_decide.
Qed.

Lemma Forall2_zip_with {A B} (R : Qc → Qc → Prop) (f g : A → B → Qc)
    (l : list A) (k : list B) :
  (∀ x y, y ∈ k → R (f x y) (g x y)) →
  Forall2 R (zip_with f l k) (zip_with g l k).
Proof.
  revert k. induction l as [|x l IH]; intros [|y k] H; cbn [zip_with];
    try constructor.
  - apply H. apply list_elem_of_here.
  - apply IH. intros x' y' Hy'. apply H. by apply list_elem_of_further.
Qed.

(** The policy loss is never below the mean of the unclipped terms
    [-advantage * ratio], and it is that mean when every ratio lies within
    [[1 - clip_coef, 1 + clip_coef]]. *)
Theorem policy_loss_pessimistic (a : args) (advantages ratio : vec) :
  mean (vmul (vneg advantages) ratio) ≤ policy_loss a advantages ratio
  ∧ (Forall (λ r, 1 - clip_coef (opts a) ≤ r ∧ r ≤ 1 + clip_coef (opts a))
            ratio →
     policy_loss a advantages ratio = mean (vmul (vneg advantages) ratio)).
Proof.
  unfold policy_loss, vmax, vmul, vneg, clamp.
  rewrite !zip_with_fmap_l, !zip_with_fmap_r, zip_with_zip_with. split.
  - apply mean_le, Forall2_zip_with. intros p r _. apply qmax_ge_l.
  - intros Hin. f_equal. apply list_eq_Forall2, Forall2_zip_with.
    intros p r Hr. rewrite List.Forall_forall in Hin.
    destruct (Hin r) as [Hlo Hhi]; [by apply list_elem_of_In|].
    rewrite clamp_inside by done. apply qmax_same.
Qed.


Local Close Scope Qc_scope.

Lemma action_names_cover_actions_witness :
  names_of (action_names [("comm-add", (0, 1)); ("assoc-add", (2, 3))]%string)
           [0; 2; 1; 2]%Z
  = inr ["comm-add"; "end"; "assoc-add"; "end"]%string.
Proof.
  apply (action_names_cover_actions
           [("comm-add", (0, 1)); ("assoc-add", (2, 3))]%string [0; 2; 1; 2]%Z).
  repeat constructor; simpl; lia.
Defined.

Lemma flatten_row_major_witness :
  Z.of_nat (length (flatten [[10]; [11]; [12]; [13]])) = batch_size scenario
  ∧ flatten [[10]; [11]; [12]; [13]] !! (2 * E scenario + 0) = Some 12.
Proof.
  apply (flatten_row_major (opts scenario) scenario
           [[10]; [11]; [12]; [13]] 2 0).
  - vm_compute; reflexivity.
  - reflexivity.
  - repeat constructor.
  - vm_compute; lia.
  - vm_compute; lia.
Defined.

Lemma global_step_budget_witness :
  global_step_after scenario (Z.to_nat 25000) = (25000 * batch_size scenario)%Z
  ∧ (global_step_after scenario (Z.to_nat 25000)
     ≤ total_timesteps (opts scenario)
     < global_step_after scenario (Z.to_nat 25000) + batch_size scenario)%Z.
Proof.
  apply (global_step_budget (opts scenario) scenario 25000).
  - vm_compute; reflexivity.
  - simpl; lia.
  - simpl; lia.
  - simpl; lia.
Defined.


Lemma rollout_fills_buffers_witness :
  let st := storage_setup scenario 0 0 in
  let st' := rollout counting_agent counting_envs scenario st in
  let pre := before_step counting_agent counting_envs scenario st 2 in
  obs st' !! 2 = Some (Some (next_obs pre))
  ∧ dones st' !! 2 = Some (next_done pre)
  ∧ actions st' !! 2 = Some (chosen counting_agent pre).1.1
  ∧ logprobs st' !! 2 = Some (chosen counting_agent pre).1.2
  ∧ values st' !! 2 = Some (chosen counting_agent pre).2
  ∧ rewards st' !! 2 = Some (stepped counting_agent counting_envs pre).1.2.
Proof.
  apply (rollout_fills_buffers counting_agent counting_envs scenario
           (storage_setup scenario 0 0) 2).
  - vm_compute; reflexivity.
  - vm_compute; lia.
Defined.

Lemma nextnonterminal_of_rollout_witness :
  let st := storage_setup scenario 0 0 in
  let st' := rollout counting_agent counting_envs scenario st in
  nextnonterminal scenario (dones st') (next_done st') 2
  = (λ d, (1 - d)%Qc)
      <$> (stepped counting_agent counting_envs
             (before_step counting_agent counting_envs scenario st 2)).2.
Proof.
  apply (nextnonterminal_of_rollout counting_agent counting_envs scenario
           (storage_setup scenario 0 0) 2).
  - vm_compute; reflexivity.
  - vm_compute; lia.
Defined.

Lemma minibatches_partition_indices_witness :
  ∃ starts,
    py_range 0 (batch_size uneven_args) (minibatch_size uneven_args)
    = inr starts
    ∧ Z.of_nat (length starts)
      = ((batch_size uneven_args + minibatch_size uneven_args - 1)
         / minibatch_size uneven_args)%Z
    ∧ concat (minibatch_indices uneven_args (arange 512) starts)
      = arange 512
    ∧ Forall (λ mb_inds : list Z,
                (0 < Z.of_nat (length mb_inds)
                 ≤ minibatch_size uneven_args)%Z)
             (minibatch_indices uneven_args (arange 512) starts).
Proof.
  apply (minibatches_partition_indices uneven_args (arange 512)).
  - simpl; lia.
  - vm_compute; reflexivity.
Defined.

Lemma update_fails_on_empty_minibatches_witness :
  minibatch_size few_samples_args = 0%Z
  ∧ update small_shuffle small_agent small_step small_exp small_std
           few_samples_args small_batch small_start
    = inl ValueError.
Proof.
  apply (update_fails_on_empty_minibatches small_shuffle small_agent
           small_step small_exp small_std few_samples_args small_batch
           few_samples small_start).
  - vm_compute; reflexivity.
  - simpl; lia.
  - simpl; lia.
Defined.

Lemma epoch_uses_every_sample_once_witness :
  ∃ st' mbs chunks,
    epoch_body small_shuffle small_agent small_step small_exp small_std
               small_args small_batch small_epoch_start = inr st'
    ∧ applied st' = applied small_epoch_start ++ mbs
    ∧ Z.of_nat (length mbs)
      = ((batch_size small_args + minibatch_size small_args - 1)
         / minibatch_size small_args)%Z
    ∧ Forall2 (λ mb_inds mb,
                 select small_std small_args small_batch mb_inds = inr mb)
              chunks mbs
    ∧ concat chunks ≡ₚ arange (batch_size small_args)
    ∧ concat (minibatch_samples <$> mbs) ≡ₚ batch_samples small_batch.
Proof.
  apply (epoch_uses_every_sample_once small_shuffle small_agent small_step
           small_exp small_std small_args small_batch).
  - intros g l. reflexivity.
  - simpl; lia.
  - vm_compute; reflexivity.
  - vm_compute; reflexivity.
  - vm_compute. reflexivity.
Defined.

Lemma update_applies_whole_epochs_witness :
  ∃ st' k,
    update small_shuffle small_agent small_step small_exp small_std
           small_args small_batch small_start = inr st'
    ∧ k ≤ Z.to_nat (update_epochs (opts small_args))
    ∧ ((0 < update_epochs (opts small_args))%Z → 0 < k)
    ∧ (target_kl (opts small_args) = None
       → k = Z.to_nat (update_epochs (opts small_args)))
    ∧ length (applied st')
      = length (applied small_start)
        + k * Z.to_nat ((batch_size small_args + minibatch_size small_args - 1)
                        / minibatch_size small_args).
Proof.
  apply (update_applies_whole_epochs small_shuffle small_agent small_step
           small_exp small_std small_args small_batch).
  - intros g l. reflexivity.
  - simpl; lia.
  - vm_compute; reflexivity.
  - simpl; lia.
Defined.


Lemma plain_returns_recursion_witness :
  let advantages :=
    (advantages_returns plain_scenario scenario_rewards scenario_zeros
                        scenario_dones [0%Qc] [0%Qc]).1 in
  let returns :=
    (advantages_returns plain_scenario scenario_rewards scenario_zeros
                        scenario_dones [0%Qc] [0%Qc]).2 in
  let last := bool_decide (2 = T plain_scenario) in
  let nonterminal :=
    (1 - (if last then at_env [0%Qc] 0 else entry scenario_dones 2 0))%Qc in
  let next_return := if last then at_env [0%Qc] 0 else entry returns 2 0 in
  entry returns 1 0
  = (entry scenario_rewards 1 0
     + gamma (opts plain_scenario) * nonterminal * next_return)%Qc
  ∧ entry advantages 1 0 = (entry returns 1 0 - entry scenario_zeros 1 0)%Qc.
Proof.
  apply (plain_returns_recursion plain_scenario scenario_rewards
           scenario_zeros scenario_dones [0%Qc] [0%Qc] 1 0).
  - reflexivity.
  - vm_compute; reflexivity.
  - vm_compute; lia.
  - vm_compute; lia.
Defined.

Lemma episode_end_stops_bootstrap_witness :
  let advantages :=
    (advantages_returns scenario scenario_rewards scenario_zeros
                        scenario_dones [0%Qc] [0%Qc]).1 in
  let returns :=
    (advantages_returns scenario scenario_rewards scenario_zeros
                        scenario_dones [0%Qc] [0%Qc]).2 in
  entry advantages 2 0
  = (entry scenario_rewards 2 0 - entry scenario_zeros 2 0)%Qc
  ∧ entry returns 2 0
    = (if gae (opts scenario)
       then entry scenario_rewards 2 0 - entry scenario_zeros 2 0
            + entry scenario_zeros 2 0
       else entry scenario_rewards 2 0)%Qc.
Proof.
  apply (episode_end_stops_bootstrap scenario scenario_rewards
           scenario_zeros scenario_dones [0%Qc] [0%Qc] 2 0).
  - vm_compute; reflexivity.
  - vm_compute; lia.
  - vm_compute; lia.
  - vm_compute; reflexivity.
Defined.

End PPOMoreFacts.
